(** * feed-watcher-ui: the loader, parser and cache core, embedded in Rocq

    The development follows the TypeScript sources:
    - [lib/mdx-parser.ts]      entity decoding, front-matter validation,
                               attachments, content preview, filename dates;
    - [lib/persistent-cache.ts] the TTL and capacity bounded store;
    - [lib/config.ts]          the feed configuration and its persistence;
    - [lib/github-api.ts]      the remote adapter: cache tiers, rate-limit
                               gate, sorting and pagination;
    - [lib/post-loader.ts]     the local adapter (same sort and pagination).

    JavaScript strings are sequences of UTF-16 code units, numbers that the
    code uses as integers (times in milliseconds, counts, indices) are [Z],
    and [NaN] is written out as [None] where the code can produce it. *)

From Stdlib Require Import ZArith Lia String Ascii.
From stdpp Require Import base option list gmap sorting.

Local Open Scope Z_scope.

(** ** JavaScript strings *)

Module JS.

(** A string is the list of its UTF-16 code units. *)
Definition jsstring := list N.

(** An ASCII literal of the source. *)
Definition js (s : string) : jsstring :=
  N_of_ascii <$> list_ascii_of_string s.

Definition inRange (lo hi c : N) : bool := ((lo <=? c) && (c <=? hi))%N.

Definition isDigit (c : N) : bool := inRange 48 57 c.
Definition isUpper (c : N) : bool := inRange 65 90 c.
Definition isLower (c : N) : bool := inRange 97 122 c.
Definition isAlnum (c : N) : bool := isDigit c || isUpper c || isLower c.

(** Line terminators: what [.] refuses. *)
Definition isLineTerminator (c : N) : bool :=
  ((c =? 10) || (c =? 13) || (c =? 8232) || (c =? 8233))%N.

(** [\s], and what [trim] strips: white space and line terminators. *)
Definition isSpace (c : N) : bool :=
  ((c =? 9) || (c =? 10) || (c =? 11) || (c =? 12) || (c =? 13) || (c =? 32)
   || (c =? 160) || (c =? 5760) || inRange 8192 8202 c || (c =? 8232)
   || (c =? 8233) || (c =? 8239) || (c =? 8287) || (c =? 12288)
   || (c =? 65279))%N.

Definition anyChar (_ : N) : bool := true.
Definition dot (c : N) : bool := negb (isLineTerminator c).
Definition isChar (c : N) : N → bool := N.eqb c.
Definition isNot (c : N) (d : N) : bool := negb (N.eqb c d).

Definition eqs (a b : jsstring) : bool := bool_decide (a = b).

(** [String.prototype.startsWith], [endsWith], [includes]. *)
Fixpoint startsWith (s p : jsstring) : bool :=
  match p, s with
  | [], _ => true
  | _ :: _, [] => false
  | a :: p', b :: s' => (a =? b)%N && startsWith s' p'
  end.

Definition endsWith (s p : jsstring) : bool :=
  startsWith (reverse s) (reverse p).

Fixpoint includes (s p : jsstring) : bool :=
  startsWith s p ||
  match s with
  | [] => false
  | _ :: s' => includes s' p
  end.

(** [String.prototype.trim]. *)
Fixpoint trimStart (s : jsstring) : jsstring :=
  match s with
  | c :: s' => if isSpace c then trimStart s' else s
  | [] => []
  end.

Definition trim (s : jsstring) : jsstring :=
  reverse (trimStart (reverse (trimStart s))).

(** [Array.prototype.slice(start, end)] on integer arguments: a negative
    index counts from the end, and both are clamped to the array. *)
Definition sliceIndex (len i : Z) : Z :=
  if i <? 0 then Z.max (len + i) 0 else Z.min i len.

Definition slice {A} (l : list A) (start stop : Z) : list A :=
  let len := Z.of_nat (length l) in
  let k := sliceIndex len start in
  let final := sliceIndex len stop in
  take (Z.to_nat (final - k)) (drop (Z.to_nat k) l).

(** [Array.prototype.sort(cmp)]: the sort is stable; the comparator's
    result is a number, [None] being [NaN], which the sort reads as [0].
    For a consistent comparator every stable sort gives this list; for an
    inconsistent one the order is left to the engine, and this insertion
    is one such order. *)
Definition sortCompare {A} (cmp : A → A → option Z) (a b : A) : Z :=
  default 0 (cmp a b).

Fixpoint sortInsert {A} (cmp : A → A → option Z) (x : A) (l : list A) : list A :=
  match l with
  | [] => [x]
  | y :: l' =>
      if 0 <? sortCompare cmp x y then y :: sortInsert cmp x l' else x :: l
  end.

Definition sort {A} (cmp : A → A → option Z) (l : list A) : list A :=
  foldr (sortInsert cmp) [] l.

(** [String.prototype.split(sep)] for a non-empty separator. *)
Fixpoint splitAux (sep : jsstring) (skip : nat) (cur : jsstring)
    (s : jsstring) : list jsstring :=
  match s with
  | [] => [reverse cur]
  | c :: s' =>
      match skip with
      | S n => splitAux sep n cur s'
      | O =>
          if startsWith s sep
          then reverse cur :: splitAux sep (length sep - 1) [] s'
          else splitAux sep 0 (c :: cur) s'
      end
  end.

Definition split (s sep : jsstring) : list jsstring := splitAux sep 0 [] s.

(** [Array.from(string)]: the string's code points, a surrogate pair being
    one element and a lone surrogate an element of its own. *)
Definition isHighSurrogate (c : N) : bool := inRange 55296 56319 c.
Definition isLowSurrogate (c : N) : bool := inRange 56320 57343 c.

Fixpoint arrayFrom (s : jsstring) : list jsstring :=
  match s with
  | [] => []
  | c :: s' =>
      match s' with
      | d :: s'' =>
          if isHighSurrogate c && isLowSurrogate d
          then [c; d] :: arrayFrom s''
          else [c] :: arrayFrom s'
      | [] => [[c]]
      end
  end.

(** [Array.prototype.join('')]. *)
Definition join (l : list jsstring) : jsstring := concat l.

(** The length of a string in Unicode code points. *)
Definition codePoints (s : jsstring) : nat := length (arrayFrom s).

End JS.

Import JS.

(** ** Regular expressions

    The patterns of the sources are matched by a backtracking matcher in
    continuation-passing style, which tries alternatives in the order
    ECMAScript does: a greedy star takes the longest run first, a lazy one
    the shortest.  Repetition only ever applies to a character class in
    these sources. *)

Module Regex.

Inductive regex :=
| Eps
| Chr (p : N → bool)            (* one code unit of a class *)
| Seq (r1 r2 : regex)
| Alt (r1 r2 : regex)
| Star (p : N → bool)           (* [c*], greedy *)
| StarLazy (p : N → bool)       (* [c*?] *)
| Group (r : regex)             (* a capture group *)
| Ahead (r : regex)             (* [(?=r)] *)
| Eoi.                          (* [$] without the m flag *)

(** A literal string, [c+], [c+?] and [c{n}]. *)
Definition Lit (s : jsstring) : regex := foldr (λ c r, Seq (Chr (isChar c)) r) Eps s.
Definition Plus (p : N → bool) : regex := Seq (Chr p) (Star p).
Definition Rep (n : nat) (p : N → bool) : regex := Nat.iter n (Seq (Chr p)) Eps.

(** The captures so far and the input that is left. *)
Definition mresult : Type := list jsstring * jsstring.

Fixpoint rmatch (r : regex) (caps : list jsstring) (s : jsstring)
    (k : list jsstring → jsstring → option mresult) : option mresult :=
  match r with
  | Eps => k caps s
  | Chr p =>
      match s with
      | c :: s' => if p c then k caps s' else None
      | [] => None
      end
  | Seq r1 r2 => rmatch r1 caps s (λ caps' s', rmatch r2 caps' s' k)
  | Alt r1 r2 =>
      match rmatch r1 caps s k with
      | Some m => Some m
      | None => rmatch r2 caps s k
      end
  | Star p =>
      (fix star (s : jsstring) : option mresult :=
         match s with
         | c :: s' =>
             if p c
             then match star s' with
                  | Some m => Some m
                  | None => k caps s
                  end
             else k caps s
         | [] => k caps s
         end) s
  | StarLazy p =>
      (fix star (s : jsstring) : option mresult :=
         match k caps s with
         | Some m => Some m
         | None =>
             match s with
             | c :: s' => if p c then star s' else None
             | [] => None
             end
         end) s
  | Group r1 =>
      rmatch r1 caps s
        (λ caps' s', k (caps' ++ [take (length s - length s') s]) s')
  | Ahead r1 =>
      match rmatch r1 caps s (λ caps' s', Some (caps', s')) with
      | Some (caps', _) => k caps' s
      | None => None
      end
  | Eoi =>
      match s with
      | [] => k caps s
      | _ :: _ => None
      end
  end.

(** The last continuation: the match is complete. *)
Definition accept (caps : list jsstring) (s : jsstring) : option mresult :=
  Some (caps, s).

(** A match of [r] at the start of [s]: the matched text, the captures and
    the rest of the input. *)
Record rmatched := { matched : jsstring; groups : list jsstring; rest : jsstring }.

Definition matchAt (r : regex) (s : jsstring) : option rmatched :=
  match rmatch r [] s accept with
  | Some (caps, s') =>
      Some {| matched := take (length s - length s') s; groups := caps; rest := s' |}
  | None => None
  end.

(** The first match of [r] in [s], scanning from the left: the text before
    it and the match ([String.prototype.match] and [replace] without the g
    flag, [RegExp.prototype.exec]). *)
Fixpoint searchFrom (r : regex) (before : jsstring) (s : jsstring)
    : option (jsstring * rmatched) :=
  match matchAt r s with
  | Some m => Some (reverse before, m)
  | None =>
      match s with
      | c :: s' => searchFrom r (c :: before) s'
      | [] => None
      end
  end.

Definition search (r : regex) (s : jsstring) : option (jsstring * rmatched) :=
  searchFrom r [] s.

(** [s.replace(/r/g, f)]: every match, left to right, none overlapping,
    replaced by [f match]; [skip] counts the code units of the last match
    that the scan still has to step over.  An empty match gives way to the
    next code unit, as [lastIndex] advances. *)
Fixpoint replaceAllFrom (r : regex) (f : rmatched → jsstring) (skip : nat)
    (s : jsstring) : jsstring :=
  match s with
  | [] =>
      match skip, matchAt r [] with
      | O, Some m => f m
      | _, _ => []
      end
  | c :: s' =>
      match skip with
      | S n => replaceAllFrom r f n s'
      | O =>
          match matchAt r s with
          | Some m =>
              f m ++
              match length (matched m) with
              | O => c :: replaceAllFrom r f 0 s'
              | S n => replaceAllFrom r f n s'
              end
          | None => c :: replaceAllFrom r f 0 s'
          end
      end
  end.

Definition replaceAll (r : regex) (f : rmatched → jsstring) (s : jsstring) : jsstring :=
  replaceAllFrom r f 0 s.

(** [s.replace(/r/g, '')]. *)
Definition removeAll (r : regex) (s : jsstring) : jsstring :=
  replaceAll r (λ _, []) s.

(** [s.replace(/^r/, '')]: the pattern is anchored at the start. *)
Definition removePrefix (r : regex) (s : jsstring) : jsstring :=
  match matchAt r s with
  | Some m => rest m
  | None => s
  end.

(** All matches of a global pattern, as the [exec] loop of the source
    collects them. *)
Fixpoint matchAllFrom (r : regex) (skip : nat) (s : jsstring) : list rmatched :=
  match s with
  | [] =>
      match skip, matchAt r [] with
      | O, Some m => [m]
      | _, _ => []
      end
  | c :: s' =>
      match skip with
      | S n => matchAllFrom r n s'
      | O =>
          match matchAt r s with
          | Some m => m :: matchAllFrom r (length (matched m) - 1) s'
          | None => matchAllFrom r 0 s'
          end
      end
  end.

Definition matchAll (r : regex) (s : jsstring) : list rmatched := matchAllFrom r 0 s.

End Regex.

Import Regex.

(** ** lib/mdx-parser.ts *)

Module Parser.

Definition nl : N := 10.

(** *** decodeHtmlEntities *)

Definition htmlEntities : list (jsstring * jsstring) :=
  [ (js "&amp;", [38%N]); (js "&lt;", [60%N]); (js "&gt;", [62%N]);
    (js "&quot;", [34%N]); (js "&#39;", [39%N]); (js "&apos;", [39%N]);
    (js "&nbsp;", [32%N]);
    (js "&aacute;", [225%N]); (js "&agrave;", [224%N]);
    (js "&atilde;", [227%N]); (js "&acirc;", [226%N]);
    (js "&eacute;", [233%N]); (js "&egrave;", [232%N]);
    (js "&etilde;", [7869%N]); (js "&ecirc;", [234%N]);
    (js "&iacute;", [237%N]); (js "&igrave;", [236%N]);
    (js "&itilde;", [297%N]);
    (js "&oacute;", [243%N]); (js "&ograve;", [242%N]);
    (js "&otilde;", [245%N]); (js "&ocirc;", [244%N]);
    (js "&uacute;", [250%N]); (js "&ugrave;", [249%N]);
    (js "&utilde;", [361%N]);
    (js "&yacute;", [253%N]); (js "&ygrave;", [7923%N]);
    (js "&ytilde;", [7929%N]) ].

(** [htmlEntities[entity]]: the first entry of that key, if any. *)
Fixpoint lookupEntity (table : list (jsstring * jsstring)) (entity : jsstring)
    : option jsstring :=
  match table with
  | [] => None
  | (k, v) :: table' => if eqs k entity then Some v else lookupEntity table' entity
  end.

(** [[a-zA-Z0-9#]] *)
Definition isEntityChar (c : N) : bool := isAlnum c || (c =? 35)%N.

(** [/&[a-zA-Z0-9#]+;/] *)
Definition entityRe : regex :=
  Seq (Chr (isChar 38)) (Seq (Plus isEntityChar) (Chr (isChar 59))).

(** [htmlEntities[entity] || entity]: no value of the table is empty. *)
Definition decodeEntity (m : rmatched) : jsstring :=
  match lookupEntity htmlEntities (matched m) with
  | Some v => if eqs v [] then matched m else v
  | None => matched m
  end.

Definition decodeHtmlEntities (text : jsstring) : jsstring :=
  replaceAll entityRe decodeEntity text.

(** *** parseAttachments *)

Inductive attachmentType := photo | video | link.

Record PostAttachment := {
  type : attachmentType;
  description : option jsstring;
  url : option jsstring;
  image : option jsstring
}.

(** The [Partial<PostAttachment>] that the loop over the lines fills in. *)
Record partialAttachment := {
  ptype : option attachmentType;
  pdescription : option jsstring;
  purl : option jsstring;
  pimage : option jsstring
}.

(** [s.replace(pattern, '')] with a string pattern: the first occurrence
    only. *)
Fixpoint removeFirst (s pattern : jsstring) : jsstring :=
  if startsWith s pattern then drop (length pattern) s
  else match s with
       | [] => []
       | c :: s' => c :: removeFirst s' pattern
       end.

Definition attachmentTypeOf (s : jsstring) : option attachmentType :=
  if eqs s (js "photo") then Some photo
  else if eqs s (js "video") then Some video
  else if eqs s (js "link") then Some link
  else None.

Definition parseAttachmentLine (a : partialAttachment) (line : jsstring)
    : partialAttachment :=
  let trimmedLine := trim line in
  if startsWith trimmedLine (js "- **Type:**") then
    match attachmentTypeOf (trim (removeFirst trimmedLine (js "- **Type:**"))) with
    | Some t => {| ptype := Some t; pdescription := pdescription a;
                   purl := purl a; pimage := pimage a |}
    | None => a
    end
  else if startsWith trimmedLine (js "- **Description:**") then
    {| ptype := ptype a;
       pdescription := Some (trim (removeFirst trimmedLine (js "- **Description:**")));
       purl := purl a; pimage := pimage a |}
  else if startsWith trimmedLine (js "- **URL:**") then
    {| ptype := ptype a; pdescription := pdescription a;
       purl := Some (trim (removeFirst trimmedLine (js "- **URL:**")));
       pimage := pimage a |}
  else if startsWith trimmedLine (js "- **Image:**") then
    {| ptype := ptype a; pdescription := pdescription a; purl := purl a;
       pimage := Some (trim (removeFirst trimmedLine (js "- **Image:**"))) |}
  else a.

Definition isTruthyString (s : jsstring) : bool := negb (eqs s []).

Definition parseAttachmentSection (content : jsstring) : option PostAttachment :=
  let lines := filter (λ line, isTruthyString (trim line) = true) (split content [nl]) in
  let attachment :=
    foldl parseAttachmentLine
      {| ptype := None; pdescription := None; purl := None; pimage := None |} lines in
  match ptype attachment with
  | Some t => Some {| type := t; description := pdescription attachment;
                      url := purl attachment; image := pimage attachment |}
  | None => None
  end.

(** [/### Attachment \d+\n([\s\S]*?)(?=\n###|\n##|$)/g] *)
Definition sectionEnd (marks : list jsstring) : regex :=
  Ahead (foldr (λ m r, Alt (Lit (nl :: m)) r) Eoi marks).

Definition attachmentSectionRegex : regex :=
  Seq (Lit (js "### Attachment "))
    (Seq (Plus isDigit)
       (Seq (Chr (isChar nl))
          (Seq (Group (StarLazy anyChar)) (sectionEnd [js "###"; js "##"])))).

(** The [exec] loop: the pattern never matches the empty string, so every
    round advances. *)
Definition parseAttachments (content : jsstring) : list PostAttachment :=
  omap (λ m, parseAttachmentSection (default [] (groups m !! 0%nat)))
       (matchAll attachmentSectionRegex content).

(** *** extractContentPreview *)

(** [/\*\*Label:\*\*.*?\n/g] *)
Definition metadataLine (label : string) : regex :=
  Seq (Lit (js label)) (Seq (StarLazy dot) (Chr (isChar nl))).

Definition isWordChar (c : N) : bool := isAlnum c || (c =? 95)%N.

Definition cleanContent (decodedContent : jsstring) : jsstring :=
  let s := removePrefix
             (Seq (Lit (js "---")) (Seq (StarLazy anyChar) (Lit (js "---"))))
             decodedContent in
  let s := removeAll
             (Seq (Lit (js "### Attachment "))
                (Seq (Plus isDigit)
                   (Seq (StarLazy anyChar) (sectionEnd [js "###"; js "##"])))) s in
  let s := removeAll
             (Seq (Lit (js "## Attachments"))
                (Seq (StarLazy anyChar) (sectionEnd [js "##"]))) s in
  let s := removeAll
             (Seq (Lit (js "## Engagement"))
                (Seq (StarLazy anyChar) (sectionEnd [js "##"]))) s in
  let s := removeAll (metadataLine "**Date:**") s in
  let s := removeAll (metadataLine "**Feed:**") s in
  let s := removeAll (metadataLine "**Post ID:**") s in
  let s := removeAll (metadataLine "**Author:**") s in
  let s := removeAll (metadataLine "**Total Reactions:**") s in
  let s := removeAll
             (Seq (Plus (isChar 35))
                (Seq (Chr (isChar 32)) (Seq (Star (isNot nl)) (Chr (isChar nl))))) s in
  let s := removeAll
             (Seq (Lit (js "*Backed up by")) (Seq (StarLazy dot) (Chr (isChar 42)))) s in
  let s := removeAll (Seq (Chr (isChar 35)) (Plus isWordChar)) s in
  trim s.

(** [paragraphs[0] || cleanContent]: a paragraph that passes the filter is
    not empty. *)
Definition firstParagraphOf (clean : jsstring) : jsstring :=
  let paragraphs :=
    filter (λ p, (0 <? Z.of_nat (length (trim p))) = true) (split clean [nl; nl]) in
  match paragraphs with
  | p :: _ => if isTruthyString p then p else clean
  | [] => clean
  end.

Definition firstParagraph (content : jsstring) : jsstring :=
  firstParagraphOf (cleanContent (decodeHtmlEntities content)).

Definition ellipsis : jsstring := js "...".

Definition truncatePreview (firstParagraph : jsstring) : jsstring :=
  let fallback :=
    if isTruthyString firstParagraph then firstParagraph
    else js "No content preview available." in
  if 200 <? Z.of_nat (length firstParagraph) then
    let chars := arrayFrom firstParagraph in
    if 200 <? Z.of_nat (length chars)
    then join (slice chars 0 200) ++ ellipsis
    else fallback
  else fallback.

Definition extractContentPreview (content : jsstring) : jsstring :=
  truncatePreview (firstParagraph content).

(** *** extractDateFromFileName *)

(** A [Date] object: its time value in milliseconds since the epoch, [None]
    for an Invalid Date (whose [getTime()] is [NaN]). *)
Record Date := { getTime : option Z }.

Definition parseDigits (s : jsstring) : Z :=
  foldl (λ acc c, 10 * acc + (Z.of_N c - 48)) 0 s.

(** The day number of the first of a month of the proleptic Gregorian
    calendar, counted from 1970-01-01. *)
Definition daysFromCivil (y m : Z) : Z :=
  let y' := if m <=? 2 then y - 1 else y in
  let era := y' / 400 in
  let yoe := y' - era * 400 in
  let doy := (153 * (if 2 <? m then m - 3 else m + 9) + 2) / 5 in
  era * 146097 + (yoe * 365 + yoe / 4 - yoe / 100 + doy) - 719468.

(** [new Date(s)] for the one shape of string the source builds,
    [YYYY-MM-DDTHH:mm:ssZ]: the month is 01 to 12, the day 01 to 31, the
    time 00:00:00 to 23:59:59 or 24:00:00, anything else is an Invalid
    Date.  A day past the end of its month carries over into the next, as
    in V8 (Node.js, Chrome); other engines refuse such a day. *)
Definition isoRe : regex :=
  let d2 := Group (Rep 2 isDigit) in
  Seq (Group (Rep 4 isDigit))
    (Seq (Chr (isChar 45)) (Seq d2 (Seq (Chr (isChar 45)) (Seq d2
      (Seq (Chr (isChar 84)) (Seq d2 (Seq (Chr (isChar 58)) (Seq d2
        (Seq (Chr (isChar 58)) (Seq d2 (Seq (Chr (isChar 90)) Eoi))))))))))).

Definition makeTime (year month day hour minute second : Z) : option Z :=
  if (1 <=? month) && (month <=? 12) && (1 <=? day) && (day <=? 31)
     && (minute <=? 59) && (second <=? 59)
     && ((hour <=? 23) || ((hour =? 24) && (minute =? 0) && (second =? 0)))
  then Some ((daysFromCivil year month + (day - 1)) * 86400000
             + hour * 3600000 + minute * 60000 + second * 1000)
  else None.

Definition newDate (s : jsstring) : Date :=
  match matchAt isoRe s with
  | Some m =>
      match parseDigits <$> groups m with
      | [year; month; day; hour; minute; second] =>
          {| getTime := makeTime year month day hour minute second |}
      | _ => {| getTime := None |}
      end
  | None => {| getTime := None |}
  end.

(** [/^(\d{4})-(\d{2})-(\d{2})_(\d{2})-(\d{2})-(\d{2})/] *)
Definition fileNameDateRe : regex :=
  let d2 := Group (Rep 2 isDigit) in
  Seq (Group (Rep 4 isDigit))
    (Seq (Chr (isChar 45)) (Seq d2 (Seq (Chr (isChar 45)) (Seq d2
      (Seq (Chr (isChar 95)) (Seq d2 (Seq (Chr (isChar 45)) (Seq d2
        (Seq (Chr (isChar 45)) d2))))))))).

(** [null] is [None]; a match always gives a [Date], valid or not. *)
Definition extractDateFromFileName (fileName : jsstring) : option Date :=
  match matchAt fileNameDateRe fileName with
  | Some m =>
      match groups m with
      | [year; month; day; hour; minute; second] =>
          Some (newDate (year ++ js "-" ++ month ++ js "-" ++ day ++ js "T"
                         ++ hour ++ js ":" ++ minute ++ js ":" ++ second ++ js "Z"))
      | _ => None
      end
  | None => None
  end.

(** *** parseMDXContent *)

(** The values a front-matter block can bind a key to.  [VObject] stands
    for every object (a date, a list, a mapping): truthy, and not a
    string.  Numbers are the integers and [NaN]. *)
Inductive value :=
| VUndefined
| VNull
| VBool (b : bool)
| VNum (n : Z)
| VNaN
| VStr (s : jsstring)
| VObject.

Definition truthy (v : value) : bool :=
  match v with
  | VUndefined | VNull | VNaN => false
  | VBool b => b
  | VNum n => negb (n =? 0)
  | VStr s => isTruthyString s
  | VObject => true
  end.

(** [a || b] *)
Definition orElse (a b : value) : value := if truthy a then a else b.

(** [data[field]] *)
Definition getField (data : gmap jsstring value) (field : jsstring) : value :=
  default VUndefined (data !! field).

Record PostMetadata := {
  title : jsstring;
  author : jsstring;
  authorId : value;
  date : value;
  feedName : jsstring;
  feedType : value;
  postId : value;
  reactions : value
}.

Record Post := {
  metadata : PostMetadata;
  content : jsstring;
  attachments : list PostAttachment;
  totalReactions : value;
  fileName : jsstring;
  path : jsstring
}.

(** What the parser writes to the console. *)
Inductive logLine :=
| Warn (message : jsstring)
| Error (message : jsstring).

Definition requiredFields : list jsstring :=
  [js "title"; js "author"; js "date"; js "feedName"; js "postId"].

(** The loop over [requiredFields]: the first field whose value is falsy. *)
Fixpoint firstMissing (data : gmap jsstring value) (fields : list jsstring)
    : option jsstring :=
  match fields with
  | [] => None
  | field :: fields' =>
      if truthy (getField data field) then firstMissing data fields'
      else Some field
  end.

(** [decodeHtmlEntities(v)] on a value of the front matter: anything but a
    string has no [replace] method, and the call throws. *)
Definition decodeValue (v : value) : option jsstring :=
  match v with
  | VStr s => Some (decodeHtmlEntities s)
  | _ => None
  end.

Section ParseMDX.

(** [matter] of the gray-matter package: the front-matter data and the
    body, or [None] when it throws. *)
Variable matter : jsstring → option (gmap jsstring value * jsstring).

(** [new Date().toISOString()] at the time of the call. *)
Variable isoNow : jsstring.

Definition parseError (fileName : jsstring) : option Post * list logLine :=
  (None, [Error (js "Error parsing MDX content for " ++ fileName ++ js ":")]).

Definition parseMDXContent (content fileName path : jsstring)
    : option Post * list logLine :=
  let decodedContent := decodeHtmlEntities content in
  match matter decodedContent with
  | None => parseError fileName
  | Some (data, markdownContent) =>
      match firstMissing data requiredFields with
      | Some field =>
          (None, [Warn (js "Missing required field '" ++ field ++ js "' in "
                        ++ fileName)])
      | None =>
          match decodeValue (orElse (getField data (js "title")) (VStr (js "Untitled Post"))),
                decodeValue (orElse (getField data (js "author")) (VStr (js "Unknown Author"))),
                decodeValue (orElse (getField data (js "feedName")) (VStr (js "Unknown Feed")))
          with
          | Some title, Some author, Some feedName =>
              let metadata :=
                {| title := title;
                   author := author;
                   authorId := orElse (getField data (js "authorId")) (VStr (js "0"));
                   date := orElse (getField data (js "date")) (VStr isoNow);
                   feedName := feedName;
                   feedType := orElse (getField data (js "feedType")) (VStr (js "unknown"));
                   postId := orElse (getField data (js "postId")) (VStr fileName);
                   reactions := orElse (getField data (js "reactions")) (VNum 0) |} in
              (Some {| metadata := metadata;
                       content := extractContentPreview markdownContent;
                       attachments := parseAttachments markdownContent;
                       totalReactions := reactions metadata;
                       fileName := fileName;
                       path := path |}, [])
          | _, _, _ => parseError fileName
          end
      end
  end.

End ParseMDX.

End Parser.

Import Parser.

(** ** lib/persistent-cache.ts *)

Module PersistentCache.

Record PersistentCacheEntry (A : Type) := {
  data : A;
  timestamp : Z;
  etag : option jsstring;
  expiresAt : Z
}.
Arguments data {A} _.
Arguments timestamp {A} _.
Arguments etag {A} _.
Arguments expiresAt {A} _.

(** What [localStorage] holds under a key: the JSON text of an entry, as
    [set] writes it, or some other string, which [JSON.parse] refuses. *)
Inductive item (A : Type) :=
| Json (entry : PersistentCacheEntry A)
| Garbage (text : jsstring).
Arguments Json {A} _.
Arguments Garbage {A} _.

(** [localStorage]: its keys in the order [Object.keys] lists them, no key
    twice. *)
Definition storage (A : Type) : Type := list (jsstring * item A).

Section Store.

Context {A : Type}.

Definition keysOf (st : storage A) : list jsstring := fst <$> st.

Fixpoint getItem (st : storage A) (key : jsstring) : option (item A) :=
  match st with
  | [] => None
  | (k, v) :: st' => if eqs k key then Some v else getItem st' key
  end.

Definition removeItem (st : storage A) (key : jsstring) : storage A :=
  filter (λ kv, eqs kv.1 key = false) st.

(** A write keeps the place of a key that is there and puts a new key
    last. *)
Fixpoint putItem (st : storage A) (key : jsstring) (v : item A) : storage A :=
  match st with
  | [] => [(key, v)]
  | (k, w) :: st' =>
      if eqs k key then (k, v) :: st' else (k, w) :: putItem st' key v
  end.

(** Whether the store takes a write or raises (a full quota). *)
Variable accepts : storage A → jsstring → item A → bool.

Definition setItem (st : storage A) (key : jsstring) (v : item A)
    : option (storage A) :=
  if accepts st key v then Some (putItem st key v) else None.

Definition prefix : jsstring := js "feed-watcher-cache:".
Definition maxSize : Z := 50.
Definition defaultTTL : Z := 30 * 60 * 1000.

Definition getKey (key : jsstring) : jsstring := prefix ++ key.

(** [if (item)]: a missing item and the empty string are both falsy. *)
Definition itemTruthy (v : item A) : bool :=
  match v with
  | Json _ => true
  | Garbage text => isTruthyString text
  end.

(** The first loop of [cleanup]: the entries that parse are collected, an
    item that does not parse is removed. *)
Fixpoint collect (keys : list jsstring) (st : storage A)
    : list (jsstring * PersistentCacheEntry A) * storage A :=
  match keys with
  | [] => ([], st)
  | key :: keys' =>
      match getItem st key with
      | Some (Json entry) =>
          let '(entries, st') := collect keys' st in ((key, entry) :: entries, st')
      | Some (Garbage text) =>
          if isTruthyString text then collect keys' (removeItem st key)
          else collect keys' st
      | None => collect keys' st
      end
  end.

Definition removeKeys (st : storage A) (keys : list jsstring) : storage A :=
  foldl removeItem st keys.

Definition byTimestamp (a b : jsstring * PersistentCacheEntry A) : option Z :=
  Some (timestamp a.2 - timestamp b.2).

Definition cleanup (st : storage A) (now : Z) (aggressive : bool) : storage A :=
  let keys := filter (λ key, startsWith key prefix = true) (keysOf st) in
  let '(entries, st) := collect keys st in
  let st :=
    removeKeys st
      (fst <$> filter (λ ke, (expiresAt ke.2 <? now) = true) entries) in
  let validEntries := filter (λ ke, (now <=? expiresAt ke.2) = true) entries in
  if aggressive || (maxSize <? Z.of_nat (length validEntries)) then
    let sorted := sort byTimestamp validEntries in
    let toRemove :=
      if aggressive then Z.of_nat (length validEntries) / 2
      else Z.of_nat (length validEntries) - maxSize in
    removeKeys st (fst <$> take (Z.to_nat toRemove) sorted)
  else st.

(** The cache lives in [localStorage]; [None] is an execution context
    without a [window], where every operation does nothing.  The readings
    of [Date.now()] within one synchronous call are taken to agree: they
    are the one [now]. *)
Definition set (ls : option (storage A)) (now : Z) (key : jsstring) (d : A)
    (ttl : option Z) (tag : option jsstring) : option (storage A) :=
  match ls with
  | None => None
  | Some st =>
      let entry :=
        {| data := d; timestamp := now; etag := tag;
           expiresAt := now + default defaultTTL ttl |} in
      match setItem st (getKey key) (Json entry) with
      | Some st' => Some (cleanup st' now false)
      | None => Some (cleanup st now true)
      end
  end.

Definition delete (ls : option (storage A)) (key : jsstring) : option (storage A) :=
  match ls with
  | None => None
  | Some st => Some (removeItem st (getKey key))
  end.

Definition get (ls : option (storage A)) (now : Z) (key : jsstring)
    : option (PersistentCacheEntry A) * option (storage A) :=
  match ls with
  | None => (None, None)
  | Some st =>
      match getItem st (getKey key) with
      | None => (None, ls)
      | Some v =>
          if itemTruthy v then
            match v with
            | Json entry =>
                if expiresAt entry <? now then (None, delete ls key)
                else (Some entry, ls)
            | Garbage _ => (None, delete ls key)
            end
          else (None, ls)
      end
  end.

Definition clear (ls : option (storage A)) : option (storage A) :=
  match ls with
  | None => None
  | Some st =>
      Some (removeKeys st (filter (λ key, startsWith key prefix = true) (keysOf st)))
  end.

End Store.

End PersistentCache.

(** ** lib/config.ts *)

Module Config.

Record FeedConfig := {
  repositoryUrl : jsstring;
  owner : jsstring;
  repo : jsstring;
  postsPath : jsstring
}.

(** [Partial<FeedConfig>]: a property is there or not. *)
Record PartialConfig := {
  repositoryUrl' : option jsstring;
  owner' : option jsstring;
  repo' : option jsstring;
  postsPath' : option jsstring
}.

Definition defaultConfig : FeedConfig :=
  {| repositoryUrl := js "https://github.com/monokaijs/j2team-backup";
     owner := js "monokaijs";
     repo := js "j2team-backup";
     postsPath := js "posts/j2team-community-backup" |}.

(** [{ ...base, ...over }] *)
Definition merge (base : FeedConfig) (over : PartialConfig) : FeedConfig :=
  {| repositoryUrl := default (repositoryUrl base) (repositoryUrl' over);
     owner := default (owner base) (owner' over);
     repo := default (repo base) (repo' over);
     postsPath := default (postsPath base) (postsPath' over) |}.

Definition toPartial (c : FeedConfig) : PartialConfig :=
  {| repositoryUrl' := Some (repositoryUrl c); owner' := Some (owner c);
     repo' := Some (repo c); postsPath' := Some (postsPath c) |}.

(** [s.replace(/r/, replacement)]: the first match only. *)
Definition replaceFirst (r : regex) (replacement : jsstring) (s : jsstring) : jsstring :=
  match search r s with
  | Some (before, m) => before ++ replacement ++ rest m
  | None => s
  end.

Definition slash : N := 47.

(** [/github\.com\/([^\/]+)\/([^\/]+)/] *)
Definition githubUrlPattern : regex :=
  Seq (Lit (js "github.com/"))
    (Seq (Group (Plus (isNot slash)))
       (Seq (Chr (isChar slash)) (Group (Plus (isNot slash))))).

(** [/\.git$/] *)
Definition gitSuffix : regex := Seq (Lit (js ".git")) Eoi.

Definition parseRepositoryUrl (url : jsstring) : option (jsstring * jsstring) :=
  match search githubUrlPattern url with
  | Some (_, m) =>
      match groups m with
      | [owner; repo] => Some (owner, replaceFirst gitSuffix [] repo)
      | _ => None
      end
  | None => None
  end.

Definition validateRepositoryUrl (url : jsstring) : bool :=
  bool_decide (parseRepositoryUrl url ≠ None).

(** What [localStorage] holds under [CONFIG_KEY]: the JSON text of a
    configuration, or a string [JSON.parse] refuses. *)
Inductive stored :=
| Json (config : PartialConfig)
| Garbage (text : jsstring).

(** The item under [CONFIG_KEY], if any; the outer [None] is an execution
    context without a [window]. *)
Definition configStore : Type := option (option stored).

Definition getConfig (ls : configStore) : FeedConfig :=
  match ls with
  | None => defaultConfig
  | Some None => defaultConfig
  | Some (Some (Json config)) => merge defaultConfig config
  | Some (Some (Garbage _)) => defaultConfig
  end.

Section Save.

(** Whether the store takes the write or raises. *)
Variable accepts : FeedConfig → bool.

Definition saveConfig (ls : configStore) (config : PartialConfig) : configStore :=
  match ls with
  | None => None
  | Some _ =>
      let currentConfig := getConfig ls in
      let newConfig := merge currentConfig config in
      let newConfig :=
        match repositoryUrl' config with
        | Some url =>
            if isTruthyString url then
              match parseRepositoryUrl url with
              | Some (o, r) =>
                  {| repositoryUrl := repositoryUrl newConfig; owner := o;
                     repo := r; postsPath := postsPath newConfig |}
              | None => newConfig
              end
            else newConfig
        | None => newConfig
        end in
      if accepts newConfig then Some (Some (Json (toPartial newConfig))) else ls
  end.

End Save.

Definition resetConfig (ls : configStore) : configStore :=
  match ls with
  | None => None
  | Some _ => Some None
  end.

End Config.

(** ** Sorting and paging of the file listing
    (lib/github-api.ts and lib/post-loader.ts share the code) *)

Module Listing.

Section Compare.

(** [String.prototype.localeCompare]: the collation of the host, which the
    sources do not fix. *)
Variable localeCompare : jsstring → jsstring → Z.

(** [x - y] on numbers that may be [NaN]. *)
Definition numSub (x y : option Z) : option Z :=
  match x, y with
  | Some a, Some b => Some (a - b)
  | _, _ => None
  end.

(** The comparator of both [sort] calls, on the file names.  A [Date]
    object is truthy whether it is valid or not. *)
Definition compareNames (a b : jsstring) : option Z :=
  match extractDateFromFileName a, extractDateFromFileName b with
  | Some dateA, Some dateB => numSub (getTime dateB) (getTime dateA)
  | _, _ => Some (localeCompare b a)
  end.

(** [start = (page - 1) * pageSize], [end = start + pageSize]. *)
Definition startIndex (page pageSize : Z) : Z := (page - 1) * pageSize.
Definition endIndex (page pageSize : Z) : Z := startIndex page pageSize + pageSize.

Definition paginate {F} (files : list F) (page pageSize : Z) : list F :=
  slice files (startIndex page pageSize) (endIndex page pageSize).

Definition hasMoreOf {F} (files : list F) (page pageSize : Z) : bool :=
  endIndex page pageSize <? Z.of_nat (length files).

End Compare.

(** Modelled from the spec: [localeCompare] belongs to the host and is not
    in the sources; the spec reads it as the lexicographic comparison of
    the two names, taken here code unit by code unit. *)
Fixpoint lexCompare (a b : jsstring) : Z :=
  match a, b with
  | [], [] => 0
  | [], _ :: _ => -1
  | _ :: _, [] => 1
  | x :: a', y :: b' =>
      if (x <? y)%N then -1 else if (y <? x)%N then 1 else lexCompare a' b'
  end.

End Listing.

(** ** lib/github-api.ts *)

Module GitHubAPI.

Import Listing.

Record GitHubAPIError := { message : jsstring; status : option Z }.

(** An entry of a directory listing. *)
Record GitHubContentsResponse := {
  name : jsstring;
  path : jsstring;
  type : jsstring
}.

Record CacheEntry (A : Type) := {
  data : A;
  timestamp : Z;
  etag : option jsstring
}.
Arguments data {A} _.
Arguments timestamp {A} _.
Arguments etag {A} _.

(** The fields of a [GitHubAPI] object.  The two counters are numbers that
    [parseInt] gives, so they may be [NaN]. *)
Record api (A : Type) := {
  config : Config.FeedConfig;
  cache : gmap jsstring (CacheEntry A);
  rateLimitRemaining : option Z;
  rateLimitReset : option Z
}.
Arguments config {A} _.
Arguments cache {A} _.
Arguments rateLimitRemaining {A} _.
Arguments rateLimitReset {A} _.

Definition GITHUB_API_BASE : jsstring := js "https://api.github.com".
Definition CACHE_DURATION : Z := 5 * 60 * 1000.
Definition LONG_CACHE_DURATION : Z := 30 * 60 * 1000.

Definition new {A} (config : Config.FeedConfig) : api A :=
  {| config := config; cache := ∅;
     rateLimitRemaining := Some 60; rateLimitReset := Some 0 |}.

(** What [fetch] resolves to: the status, the three headers the code
    reads, and what [response.json()] gives, a value or the message of
    the error it rejects with. *)
Record response (A : Type) := {
  rstatus : Z;
  statusText : jsstring;
  xRateLimitRemaining : option jsstring;
  xRateLimitReset : option jsstring;
  eTag : option jsstring;
  json : jsstring + A
}.
Arguments rstatus {A} _.
Arguments statusText {A} _.
Arguments xRateLimitRemaining {A} _.
Arguments xRateLimitReset {A} _.
Arguments eTag {A} _.
Arguments json {A} _.

Definition ok {A} (r : response A) : bool := (200 <=? rstatus r) && (rstatus r <=? 299).

(** [parseInt(s)] without a radix: white space, a sign, then decimal
    digits, or hexadecimal ones after [0x]; [NaN] when there is no digit. *)
Definition hexValue (c : N) : option Z :=
  if isDigit c then Some (Z.of_N c - 48)
  else if inRange 97 102 c then Some (Z.of_N c - 87)
  else if inRange 65 70 c then Some (Z.of_N c - 55)
  else None.

Fixpoint parseDigitsFrom (radix : Z) (acc : option Z) (s : jsstring) : option Z :=
  match s with
  | [] => acc
  | c :: s' =>
      match hexValue c with
      | Some d =>
          if d <? radix then parseDigitsFrom radix (Some (radix * default 0 acc + d)) s'
          else acc
      | None => acc
      end
  end.

Definition parseUnsigned (s : jsstring) : option Z :=
  match s with
  | 48%N :: x :: s' =>
      if ((x =? 120) || (x =? 88))%N then parseDigitsFrom 16 None s'
      else parseDigitsFrom 10 None s
  | _ => parseDigitsFrom 10 None s
  end.

Definition parseInt (s : jsstring) : option Z :=
  match trimStart s with
  | 45%N :: s' => Z.opp <$> parseUnsigned s'
  | 43%N :: s' => parseUnsigned s'
  | s' => parseUnsigned s'
  end.

(** [header || fallback]: a missing header and an empty one give way. *)
Definition headerOr (h : option jsstring) (fallback : jsstring) : jsstring :=
  match h with
  | Some v => if isTruthyString v then v else fallback
  | None => fallback
  end.

Definition truthyHeader (h : option jsstring) : option jsstring :=
  match h with
  | Some v => if isTruthyString v then Some v else None
  | None => None
  end.

(** Comparisons of numbers that may be [NaN]: false on [NaN]. *)
Definition numLe (x y : option Z) : bool :=
  match x, y with
  | Some a, Some b => a <=? b
  | _, _ => false
  end.

Definition numLt (x y : option Z) : bool :=
  match x, y with
  | Some a, Some b => a <? b
  | _, _ => false
  end.

Definition numMul (x y : option Z) : option Z :=
  match x, y with
  | Some a, Some b => Some (a * b)
  | _, _ => None
  end.

Section Requests.

Context {A : Type}.

(** The collaborators: whether [localStorage] takes a write, and the
    network, where [fetch] rejects with a message or resolves to a
    response. *)
Variable accepts : PersistentCache.storage A → jsstring → PersistentCache.item A → bool.
Variable fetch : jsstring → list (jsstring * jsstring) → jsstring + response A.

(** What a call leaves behind: its outcome, the object's fields, the
    persistent store, and the requests that went out to the network. *)
Record result (T : Type) := {
  outcome : GitHubAPIError + T;
  self : api A;
  store : option (PersistentCache.storage A);
  requests : list (jsstring * list (jsstring * jsstring))
}.
Arguments outcome {T} _.
Arguments self {T} _.
Arguments store {T} _.
Arguments requests {T} _.

(** [cacheDuration || this.CACHE_DURATION] *)
Definition durationOf (cacheDuration : option Z) : Z :=
  match cacheDuration with
  | Some d => if d =? 0 then CACHE_DURATION else d
  | None => CACHE_DURATION
  end.

Definition rateLimited (this : api A) (now : Z) : bool :=
  numLe (rateLimitRemaining this) (Some 1)
  && numLt (Some now) (numMul (rateLimitReset this) (Some 1000)).

Definition ofPersistent (e : PersistentCache.PersistentCacheEntry A) : CacheEntry A :=
  {| data := PersistentCache.data e;
     timestamp := PersistentCache.timestamp e;
     etag := PersistentCache.etag e |}.

Definition withCache (this : api A) (c : gmap jsstring (CacheEntry A)) : api A :=
  {| config := config this; cache := c;
     rateLimitRemaining := rateLimitRemaining this;
     rateLimitReset := rateLimitReset this |}.

Definition withRateLimit (this : api A) (r : response A) : api A :=
  {| config := config this; cache := cache this;
     rateLimitRemaining := parseInt (headerOr (xRateLimitRemaining r) (js "60"));
     rateLimitReset := parseInt (headerOr (xRateLimitReset r) (js "0")) |}.

(** The part of [makeRequest] after the rate-limit gate: the request goes
    out at [now] and is answered at [later]. *)
Definition sendRequest (this : api A) (ls : option (PersistentCache.storage A))
    (later : Z) (endpoint : jsstring) (duration : Z)
    (persistentEntry : option (PersistentCache.PersistentCacheEntry A))
    : result A :=
  let url := GITHUB_API_BASE ++ endpoint in
  let cacheKey := js "api:" ++ endpoint in
  let inMemory := cache this !! url in
  let cachedEntry :=
    match inMemory with
    | Some e => Some e
    | None => ofPersistent <$> persistentEntry
    end in
  let headers :=
    [(js "Accept", js "application/vnd.github.v3+json");
     (js "User-Agent", js "FeedWatcher-UI/1.0")]
    ++ match cachedEntry ≫= (λ e, truthyHeader (etag e)) with
       | Some tag => [(js "If-None-Match", tag)]
       | None => []
       end in
  let sent := [(url, headers)] in
  match fetch url headers with
  | inl msg =>
      {| outcome := inl {| message := js "Network error: " ++ msg; status := None |};
         self := this; store := ls; requests := sent |}
  | inr r =>
      let this := withRateLimit this r in
      match (if rstatus r =? 304 then cachedEntry else None) with
      | Some e =>
          (* the entry of the memory cache is the object that is updated *)
          let this :=
            match inMemory with
            | Some _ =>
                withCache this
                  (<[url := {| data := data e; timestamp := later; etag := etag e |}]>
                     (cache this))
            | None => this
            end in
          {| outcome := inr (data e); self := this; store := ls; requests := sent |}
      | None =>
          if negb (ok r) then
            let err :=
              if rstatus r =? 404 then
                {| message := js "Repository or path not found"; status := Some 404 |}
              else if rstatus r =? 403 then
                {| message := js "Access forbidden or rate limit exceeded";
                   status := Some 403 |}
              else
                {| message := js "GitHub API error: " ++ statusText r;
                   status := Some (rstatus r) |} in
            {| outcome := inl err; self := this; store := ls; requests := sent |}
          else
            match json r with
            | inl msg =>
                {| outcome := inl {| message := js "Network error: " ++ msg;
                                      status := None |};
                   self := this; store := ls; requests := sent |}
            | inr d =>
                let tag := truthyHeader (eTag r) in
                let cacheEntry := {| data := d; timestamp := later; etag := tag |} in
                {| outcome := inr d;
                   self := withCache this (<[url := cacheEntry]> (cache this));
                   store := PersistentCache.set accepts ls later cacheKey d
                              (Some duration) tag;
                   requests := sent |}
            end
      end
  end.

(** [makeRequest]: the two cache tiers, the rate-limit gate, then the
    network.  What runs before the request is sent reads the clock as
    [now], what runs after the answer as [later]. *)
Definition makeRequest (this : api A) (ls : option (PersistentCache.storage A))
    (now later : Z) (endpoint : jsstring) (cacheDuration : option Z)
    : result A :=
  let url := GITHUB_API_BASE ++ endpoint in
  let duration := durationOf cacheDuration in
  let cacheKey := js "api:" ++ endpoint in
  (* the memory cache *)
  match (match cache this !! url with
         | Some cached =>
             if now - timestamp cached <? duration then Some cached else None
         | None => None
         end) with
  | Some cached =>
      {| outcome := inr (data cached); self := this; store := ls; requests := [] |}
  | None =>
      (* the persistent cache *)
      let '(persistentEntry, ls) := PersistentCache.get ls now cacheKey in
      match (match persistentEntry with
             | Some e =>
                 if now - PersistentCache.timestamp e <? duration then Some e else None
             | None => None
             end) with
      | Some e =>
          {| outcome := inr (PersistentCache.data e);
             self := withCache this (<[url := ofPersistent e]> (cache this));
             store := ls; requests := [] |}
      | None =>
          (* the rate limit *)
          if rateLimited this now then
            {| outcome :=
                 inl {| message := js "Rate limit exceeded. Please try again later.";
                        status := None |};
               self := this; store := ls; requests := [] |}
          else sendRequest this ls later endpoint duration persistentEntry
      end
  end.

End Requests.

Section Posts.

Variable localeCompare : jsstring → jsstring → Z.

(** [files.filter(...).sort(...)] *)
Definition mdxFiles (files : list GitHubContentsResponse) : list GitHubContentsResponse :=
  sort (λ a b, compareNames localeCompare (name a) (name b))
    (filter (λ file, eqs (type file) (js "file") && endsWith (name file) (js ".mdx") = true)
       files).

(** [getFileContent] followed by [parseMDXContent] on one file of the
    page: [None] when the fetch throws or the parser returns [null], in
    which case the file is left out. *)
Variable loadPost : GitHubContentsResponse → option Post.

Record postsPage := { posts : list Post; hasMore : bool }.

Definition paginatedFiles (files : list GitHubContentsResponse) (page pageSize : Z)
    : list GitHubContentsResponse :=
  paginate (mdxFiles files) page pageSize.

(** [getPosts], from the listing that [getRepositoryContents] gave; the
    defaults of [page] and [pageSize] are 1 and 10. *)
Definition getPosts (listing : GitHubAPIError + list GitHubContentsResponse)
    (page pageSize : option Z) : GitHubAPIError + postsPage :=
  let page := default 1 page in
  let pageSize := default 10 pageSize in
  match listing with
  | inl err => inl err
  | inr files =>
      inr {| posts := omap loadPost (paginatedFiles files page pageSize);
             hasMore := hasMoreOf (mdxFiles files) page pageSize |}
  end.

End Posts.

Section Maintenance.

Context {A : Type}.

(** [updateConfig]: the new configuration, and an empty memory cache. *)
Definition updateConfig (this : api A) (config : Config.FeedConfig) : api A :=
  {| config := config; cache := ∅;
     rateLimitRemaining := rateLimitRemaining this;
     rateLimitReset := rateLimitReset this |}.

(** [clearCache] *)
Definition clearCache (this : api A) : api A := withCache this ∅.

(** [getRateLimitInfo]: [remaining] and [resetTime]. *)
Definition getRateLimitInfo (this : api A) : option Z * option Z :=
  (rateLimitRemaining this, rateLimitReset this).

(** One round of the loop of [clearExpiredCache]. *)
Definition clearStep (now : Z) (acc : gmap jsstring (CacheEntry A) * Z)
    (item : jsstring * CacheEntry A) : gmap jsstring (CacheEntry A) * Z :=
  if 60 * 60 * 1000 <? now - timestamp item.2
  then (delete item.1 acc.1, acc.2 + 1)
  else acc.

(** [clearExpiredCache]: the loop runs over the entries of the map,
    deleting as it goes, and the number of deletions is returned.  A
    JavaScript [Map] is run through in the order of insertion, which the
    finite map here does not keep; the result does not depend on the
    order. *)
Definition clearExpiredCache (this : api A) (now : Z) : api A * Z :=
  let final := foldl (clearStep now) (cache this, 0) (map_to_list (cache this)) in
  (withCache this final.1, final.2).

End Maintenance.

End GitHubAPI.

(** ** lib/post-loader.ts, the local adapter *)

Module PostLoader.

Import Listing.

Record localFile := {
  name : jsstring;
  path : jsstring;
  fullPath : jsstring
}.

Section Local.

Variable localeCompare : jsstring → jsstring → Z.

(** [path.join] of Node.js. *)
Variable pathJoin : jsstring → jsstring → jsstring.

Variable localPostsPath : jsstring.

(** [fs.readdirSync(...).filter(...).map(...).sort(...)] *)
Definition localFiles (dir : list jsstring) : list localFile :=
  sort (λ a b, compareNames localeCompare (name a) (name b))
    ((λ file, {| name := file; path := pathJoin (js "posts") file;
                 fullPath := pathJoin localPostsPath file |})
       <$> filter (λ file, endsWith file (js ".mdx") = true) dir).

(** [fs.readFileSync] followed by [parseMDXContent]; [None] when either
    fails. *)
Variable loadPost : localFile → option Post.

Definition paginatedFiles (dir : list jsstring) (page pageSize : Z) : list localFile :=
  paginate (localFiles dir) page pageSize.

(** [getLocalPosts], from the names [fs.readdirSync] gave. *)
Definition getLocalPosts (dir : list jsstring) (page pageSize : option Z)
    : list Post * bool :=
  let page := default 1 page in
  let pageSize := default 10 pageSize in
  (omap loadPost (paginatedFiles dir page pageSize),
   hasMoreOf (localFiles dir) page pageSize).

End Local.

Section Files.

(** [path.join] and [path.isAbsolute] of Node.js. *)
Variable pathJoin : jsstring → jsstring → jsstring.
Variable isAbsolute : jsstring → bool.

(** [fs.readFileSync(p, 'utf-8')]: the text, or the message of the error
    it throws. *)
Variable readFileSync : jsstring → jsstring + jsstring.

Variable localPostsPath : jsstring.

(** The path [getLocalFileContent] reads. *)
Definition fullPathOf (filePath : jsstring) : jsstring :=
  if isAbsolute filePath then filePath
  else
    let relativePath :=
      if startsWith filePath (js "posts/") then drop 6 filePath else filePath in
    pathJoin localPostsPath relativePath.

(** [getLocalFileContent]; [modules] says whether [fs] and [path] could be
    loaded.  The left side is the message of the error thrown. *)
Definition getLocalFileContent (modules : bool) (filePath : jsstring)
    : jsstring + jsstring :=
  if negb modules then inl (js "File system modules not available")
  else
    match readFileSync (fullPathOf filePath) with
    | inl msg => inl (js "Error reading local file: " ++ msg)
    | inr text => inr text
    end.

(** [validateLocalRepository]: [fsLoaded] says whether [fs] could be
    loaded, [existsSync] what [fs.existsSync] answers for the folder;
    [dir] is what [fs.readdirSync] gives, [None] when it throws. *)
Definition validateLocalRepository (fsLoaded existsSync : bool)
    (dir : option (list jsstring)) : bool :=
  if negb fsLoaded then false
  else if negb existsSync then false
  else
    match dir with
    | Some files =>
        let mdxFiles := filter (λ file, endsWith file (js ".mdx") = true) files in
        0 <? Z.of_nat (length mdxFiles)
    | None => false
    end.

End Files.

End PostLoader.

(** * Properties *)

(** ** Pagination *)

Section Pagination.

Import Listing.



Lemma slice_take_drop {A} (l : list A) (a n : Z) :
  0 <= a → 0 <= n →
  slice l a (a + n) = take (Z.to_nat n) (drop (Z.to_nat a) l).
Proof.
  intros Ha Hn. unfold slice, sliceIndex.
  destruct (Z.ltb_spec a 0); [lia|].
  destruct (Z.ltb_spec (a + n) 0); [lia|].
  set (len := Z.of_nat (length l)).
  destruct (Z.le_gt_cases len a) as [Hge|Hlt].
  - rewrite !Z.min_r by lia.
    rewrite (drop_ge l (Z.to_nat a)) by (subst len; lia).
    rewrite drop_ge by (subst len; lia). by rewrite !take_nil.
  - rewrite (Z.min_l a) by lia.
    destruct (Z.le_gt_cases (a + n) len).
    + rewrite Z.min_l by lia. f_equal. lia.
    + rewrite Z.min_r by lia.
      rewrite !take_ge; [done| |]; rewrite length_drop; subst len; lia.
Qed.

Lemma paginate_take_drop {A} (l : list A) (page pageSize : Z) :
  1 <= page → 0 < pageSize →
  paginate l page pageSize =
  take (Z.to_nat pageSize) (drop (Z.to_nat ((page - 1) * pageSize)) l).
Proof.
  intros Hp Hs. unfold paginate, endIndex, startIndex.
  apply slice_take_drop; nia.
Qed.






End Pagination.

Section PaginationClaim.

Import Listing.

Variable localeCompare : jsstring → jsstring → Z.



End PaginationClaim.

(** A listing of three posts and a directory, for the pages of size two. *)
Definition exampleListing : list GitHubAPI.GitHubContentsResponse :=
  [ {| GitHubAPI.name := js "2024-12-14_09-00-00_first.mdx";
       GitHubAPI.path := js "posts/2024-12-14_09-00-00_first.mdx";
       GitHubAPI.type := js "file" |};
    {| GitHubAPI.name := js "2024-12-15_10-30-00_welcome-post.mdx";
       GitHubAPI.path := js "posts/2024-12-15_10-30-00_welcome-post.mdx";
       GitHubAPI.type := js "file" |};
    {| GitHubAPI.name := js "README.md";
       GitHubAPI.path := js "posts/README.md";
       GitHubAPI.type := js "file" |};
    {| GitHubAPI.name := js "notes.mdx";
       GitHubAPI.path := js "posts/notes.mdx";
       GitHubAPI.type := js "file" |} ].



(** ** Entity decoding *)

Section Rmatch.
Implicit Types (r : regex) (caps : list jsstring) (s : jsstring)
  (k : list jsstring → jsstring → option mresult).

Lemma rmatch_Seq r1 r2 caps s k :
  rmatch (Seq r1 r2) caps s k = rmatch r1 caps s (λ caps' s', rmatch r2 caps' s' k).
Proof. reflexivity. Qed.

Lemma rmatch_Chr p caps s k :
  rmatch (Chr p) caps s k =
  match s with
  | c :: s' => if p c then k caps s' else None
  | [] => None
  end.
Proof. reflexivity. Qed.

Lemma rmatch_Star p caps s k :
  rmatch (Star p) caps s k =
  match s with
  | c :: s' =>
      if p c
      then match rmatch (Star p) caps s' k with
           | Some m => Some m
           | None => k caps s
           end
      else k caps s
  | [] => k caps s
  end.
Proof. destruct s; reflexivity. Qed.
End Rmatch.

Fixpoint entityBody (s : jsstring) : option (jsstring * jsstring) :=
  match s with
  | [] => None
  | c :: s' =>
      if isEntityChar c then
        match entityBody s' with
        | Some (b, r) => Some (c :: b, r)
        | None => None
        end
      else if (c =? 59)%N then Some ([], s') else None
  end.

Lemma entityChar_not_semicolon c : isEntityChar c = true → isChar 59 c = false.
Proof.
  unfold isEntityChar, isAlnum, isDigit, isUpper, isLower, inRange, isChar.
  intros H. apply N.eqb_neq. intros <-. vm_compute in H. discriminate.
Qed.

Lemma star_entityBody s :
  rmatch (Star isEntityChar) [] s (λ caps' s', rmatch (Chr (isChar 59)) caps' s' accept)
  = match entityBody s with
    | Some (_, r) => Some ([], r)
    | None => None
    end.
Proof.
  induction s as [|c s IH]; [done|].
  rewrite rmatch_Star, IH. simpl entityBody.
  destruct (isEntityChar c) eqn:Hc.
  - destruct (entityBody s) as [[b r]|]; [done|].
    rewrite rmatch_Chr. by rewrite entityChar_not_semicolon.
  - rewrite rmatch_Chr. unfold isChar. rewrite (N.eqb_sym 59 c).
    by destruct (c =? 59)%N.
Qed.

Lemma entityBody_Some s b r :
  entityBody s = Some (b, r) → s = b ++ 59%N :: r ∧ forallb isEntityChar b = true.
Proof.
  revert b r. induction s as [|c s IH]; intros b r H; simpl in H; [done|].
  destruct (isEntityChar c) eqn:Hc.
  - destruct (entityBody s) as [[b' r']|] eqn:E; [|done].
    injection H as <- <-. destruct (IH _ _ eq_refl) as [-> Hb].
    simpl. by rewrite Hc.
  - destruct (c =? 59)%N eqn:E; [|done].
    apply N.eqb_eq in E as ->. by injection H as <- <-.
Qed.

Lemma entityBody_intro b r :
  forallb isEntityChar b = true → entityBody (b ++ 59%N :: r) = Some (b, r).
Proof.
  induction b as [|c b IH]; simpl; intros H; [done|].
  apply andb_prop in H as [Hc Hb]. by rewrite Hc, IH.
Qed.

Lemma matchAt_entityRe s :
  matchAt entityRe s =
  match s with
  | c :: s1 =>
      if isChar 38 c then
        match entityBody s1 with
        | Some (d :: b, r) =>
            Some {| matched := 38%N :: d :: b ++ [59%N]; groups := []; rest := r |}
        | _ => None
        end
      else None
  | [] => None
  end.
Proof.
  unfold matchAt, entityRe, Plus.
  rewrite rmatch_Seq, rmatch_Chr.
  destruct s as [|c s1]; [done|].
  destruct (isChar 38 c) eqn:Hc; [|done].
  apply N.eqb_eq in Hc as <-.
  rewrite rmatch_Seq, rmatch_Seq, rmatch_Chr.
  destruct s1 as [|d s2]; [done|].
  simpl entityBody.
  destruct (isEntityChar d) eqn:Hd.
  - rewrite star_entityBody.
    destruct (entityBody s2) as [[b r]|] eqn:E; [|done].
    apply entityBody_Some in E as [-> _].
    f_equal. f_equal.
    rewrite !length_cons, length_app, length_cons.
    replace (S (S (length b + S (length r))) - length r)%nat
      with (S (S (length b + 1)))%nat by lia.
    simpl. do 2 f_equal.
    rewrite (cons_middle 59%N b r), app_assoc.
    apply take_app_length'. rewrite length_app. simpl. lia.
  - by destruct (d =? 59)%N.
Qed.

Lemma replaceAllFrom_drop r f n s :
  (n ≤ length s)%nat → replaceAllFrom r f n s = replaceAllFrom r f 0 (drop n s).
Proof.
  revert s. induction n as [|n IH]; intros s Hn; [done|].
  destruct s as [|c s]; simpl in Hn; [lia|].
  simpl. apply IH. lia.
Qed.

(** What an entity is replaced by depends on its text alone. *)
Definition decodeText (e : jsstring) : jsstring :=
  decodeEntity {| matched := e; groups := []; rest := [] |}.

Lemma decode_nil : decodeHtmlEntities [] = [].
Proof. reflexivity. Qed.

Lemma decode_nomatch c s :
  matchAt entityRe (c :: s) = None →
  decodeHtmlEntities (c :: s) = c :: decodeHtmlEntities s.
Proof.
  intros H. unfold decodeHtmlEntities, replaceAll. cbn [replaceAllFrom].
  by rewrite H.
Qed.

Lemma entity_matchAt d b r :
  forallb isEntityChar (d :: b) = true →
  matchAt entityRe (38%N :: d :: b ++ 59%N :: r)
  = Some {| matched := 38%N :: d :: b ++ [59%N]; groups := []; rest := r |}.
Proof.
  intros H. rewrite matchAt_entityRe.
  change (d :: b ++ 59%N :: r) with ((d :: b) ++ 59%N :: r).
  by rewrite (entityBody_intro _ _ H).
Qed.

Lemma decode_match d b r :
  forallb isEntityChar (d :: b) = true →
  decodeHtmlEntities (38%N :: d :: b ++ 59%N :: r)
  = decodeText (38%N :: d :: b ++ [59%N]) ++ decodeHtmlEntities r.
Proof.
  intros H. unfold decodeHtmlEntities, replaceAll. cbn [replaceAllFrom].
  rewrite (entity_matchAt _ _ _ H). cbn [matched length].
  f_equal. rewrite replaceAllFrom_drop.
  - f_equal. rewrite (cons_middle 59%N b r), app_assoc.
    apply drop_app_length.
  - simpl. rewrite !length_app. simpl. lia.
Qed.

(** The shape of the input at a match. *)
Lemma matchAt_entity_inv s m :
  matchAt entityRe s = Some m →
  ∃ d b, forallb isEntityChar (d :: b) = true
         ∧ s = 38%N :: d :: b ++ 59%N :: rest m
         ∧ matched m = 38%N :: d :: b ++ [59%N].
Proof.
  rewrite matchAt_entityRe. destruct s as [|c s1]; [done|].
  destruct (isChar 38 c) eqn:Hc; [|done]. apply N.eqb_eq in Hc as <-.
  destruct (entityBody s1) as [[[|d b] r]|] eqn:E; try done.
  intros [= <-]. apply entityBody_Some in E as [-> Hb].
  exists d, b. done.
Qed.

(** Every value of the table is one code unit, which begins no entity
    unless it is the ampersand of [&amp;], and continues or ends none. *)
Lemma decodeText_cases e :
  decodeText e = e
  ∨ ∃ ch, decodeText e = [ch] ∧ isEntityChar ch = false ∧ ch ≠ 59%N
          ∧ (ch = 38%N → e = js "&amp;").
Proof.
  unfold decodeText, decodeEntity. cbn [matched].
  unfold htmlEntities, lookupEntity.
  repeat match goal with
  | |- context [eqs ?k e] =>
      let E := fresh in
      destruct (eqs k e) eqn:E;
      [ right; eexists; split; [reflexivity|];
        split; [reflexivity|]; split; [discriminate|];
        first [ discriminate | intros _; symmetry; apply bool_decide_eq_true in E; exact E ]
      | clear E ]
  end.
  by left.
Qed.

Lemma decode_head r c t :
  decodeHtmlEntities r = c :: t →
  isEntityChar c = true ∨ c = 59%N →
  ∃ r', r = c :: r' ∧ decodeHtmlEntities r' = t.
Proof.
  intros HD Hc. destruct r as [|a r']; [done|].
  destruct (matchAt entityRe (a :: r')) as [m|] eqn:E.
  - exfalso. destruct (matchAt_entity_inv _ _ E) as (d & b & Hb & Hs & Hm).
    rewrite Hs, (decode_match _ _ _ Hb) in HD.
    destruct (decodeText_cases (38%N :: d :: b ++ [59%N]))
      as [He|(ch & He & Hch & H59 & _)]; rewrite He in HD.
    + injection HD as <- _. by destruct Hc.
    + injection HD as <- _. destruct Hc; congruence.
  - rewrite (decode_nomatch _ _ E) in HD. injection HD as <- <-. by exists r'.
Qed.

Lemma decode_body b r tl :
  forallb isEntityChar b = true →
  decodeHtmlEntities r = b ++ 59%N :: tl →
  ∃ tl', r = b ++ 59%N :: tl'.
Proof.
  revert r. induction b as [|c b IH]; intros r Hb HD; simpl in *.
  - destruct (decode_head _ _ _ HD) as (r' & -> & _); [by right|]. by exists r'.
  - apply andb_prop in Hb as [Hc Hb].
    destruct (decode_head _ _ _ HD) as (r' & -> & HD'); [by left|].
    destruct (IH _ Hb HD') as [tl' ->]. by exists tl'.
Qed.

Lemma includes_app_r a b p : includes (a ++ b) p = false → includes b p = false.
Proof.
  induction a as [|c a IH]; [done|]. simpl.
  intros H. apply orb_false_elim in H as [_ H]. by apply IH.
Qed.

Lemma startsWith_app p s : startsWith (p ++ s) p = true.
Proof.
  induction p as [|c p IH]; [by destruct s|].
  simpl. by rewrite N.eqb_refl.
Qed.

Lemma includes_prefix p s : includes (p ++ s) p = true.
Proof.
  assert (H : ∀ t, startsWith t p = true → includes t p = true).
  { intros [|c t] Ht; cbn [includes]; by rewrite Ht. }
  apply H, startsWith_app.
Qed.

Lemma decode_twice_aux n : ∀ x,
  (length x ≤ n)%nat →
  includes x (js "&amp;") = false →
  decodeHtmlEntities (decodeHtmlEntities x) = decodeHtmlEntities x.
Proof.
  induction n as [|n IH]; intros x Hn Hx.
  { destruct x; [done|simpl in Hn; lia]. }
  destruct x as [|c x']; [done|].
  destruct (matchAt entityRe (c :: x')) as [m|] eqn:E.
  - destruct (matchAt_entity_inv _ _ E) as (d & b & Hb & Hs & Hm).
    assert (Hrest : decodeHtmlEntities (decodeHtmlEntities (rest m))
                    = decodeHtmlEntities (rest m)).
    { apply IH.
      - apply (f_equal length) in Hs. simpl in Hs, Hn.
        rewrite length_app in Hs. simpl in Hs. lia.
      - rewrite Hs in Hx.
        apply (includes_app_r (38%N :: d :: b ++ [59%N])).
        simpl. by rewrite <- app_assoc. }
    rewrite Hs, (decode_match _ _ _ Hb).
    destruct (decodeText_cases (38%N :: d :: b ++ [59%N]))
      as [He|(ch & He & Hch & H59 & Hamp)]; rewrite He.
    + simpl. rewrite <- app_assoc. simpl.
      rewrite (decode_match _ _ _ Hb), He, Hrest. simpl.
      by rewrite <- app_assoc.
    + simpl. rewrite decode_nomatch, Hrest; [done|].
      rewrite matchAt_entityRe.
      destruct (isChar 38 ch) eqn:H38; [|done].
      apply N.eqb_eq in H38. symmetry in H38. specialize (Hamp H38).
      exfalso. rewrite Hs in Hx.
      replace (38%N :: d :: b ++ 59%N :: rest m)
        with (js "&amp;" ++ rest m) in Hx
        by (rewrite <- Hamp; simpl; by rewrite <- app_assoc).
      rewrite includes_prefix in Hx. discriminate.
  - rewrite (decode_nomatch _ _ E).
    assert (Hx' : includes x' (js "&amp;") = false)
      by (simpl in Hx; by apply orb_false_elim in Hx as [_ Hx]).
    rewrite decode_nomatch, IH; [done|simpl in Hn; lia|done|].
    destruct (matchAt entityRe (c :: decodeHtmlEntities x')) as [m|] eqn:E'; [|done].
    exfalso. destruct (matchAt_entity_inv _ _ E') as (d & b & Hb & Hs & Hm).
    injection Hs as -> Hs.
    destruct (decode_body (d :: b) x' (rest m) Hb Hs) as [tl' ->].
    simpl in E. rewrite (entity_matchAt _ _ _ Hb) in E. discriminate.
Qed.

(** C3, as the code has it.  Decoding is idempotent on every text that
    holds no [&amp;]: there a second pass finds nothing left to decode.
    (An [&amp;] decodes to an ampersand, which can begin a new entity.) *)
Theorem decodeHtmlEntities_idempotent_without_amp (x : jsstring) :
  includes x (js "&amp;") = false →
  decodeHtmlEntities (decodeHtmlEntities x) = decodeHtmlEntities x.
Proof. by apply (decode_twice_aux (length x)). Qed.

Lemma decodeHtmlEntities_idempotent_without_amp_witness :
  includes (js "Tom &lt; Jerry &foo; caf&eacute;") (js "&amp;") = false
  ∧ decodeHtmlEntities (decodeHtmlEntities (js "Tom &lt; Jerry &foo; caf&eacute;"))
    = decodeHtmlEntities (js "Tom &lt; Jerry &foo; caf&eacute;").
Proof.
  split; [reflexivity|].
  apply (decodeHtmlEntities_idempotent_without_amp
           (js "Tom &lt; Jerry &foo; caf&eacute;")).
  reflexivity.
Defined.

(** C3, as stated, fails: the text [&amp;lt;] decodes to [&lt;], and
    decoding that again gives [<]. *)
Lemma decodeHtmlEntities_not_idempotent :
  decodeHtmlEntities (js "&amp;lt;") = js "&lt;"
  ∧ decodeHtmlEntities (decodeHtmlEntities (js "&amp;lt;")) = js "<"
  ∧ decodeHtmlEntities (decodeHtmlEntities (js "&amp;lt;"))
    ≠ decodeHtmlEntities (js "&amp;lt;").
Proof. split; [|split]; [reflexivity..|discriminate]. Qed.


(** ** The content preview *)

Lemma arrayFrom_cons c s :
  arrayFrom (c :: s) =
  match s with
  | d :: s'' =>
      if isHighSurrogate c && isLowSurrogate d
      then [c; d] :: arrayFrom s''
      else [c] :: arrayFrom s
  | [] => [[c]]
  end.
Proof. by destruct s. Qed.

Lemma arrayFrom_length_aux n : ∀ s,
  (length s ≤ n)%nat → (length (arrayFrom s) ≤ length s)%nat.
Proof.
  induction n as [|n IH]; intros s Hn.
  { destruct s; [done|simpl in Hn; lia]. }
  destruct s as [|c [|d s]]; [done|done|].
  rewrite arrayFrom_cons. simpl in Hn.
  destruct (isHighSurrogate c && isLowSurrogate d).
  - specialize (IH s ltac:(lia)). simpl. lia.
  - specialize (IH (d :: s) ltac:(simpl; lia)). simpl in *. lia.
Qed.

Lemma arrayFrom_length s : (length (arrayFrom s) ≤ length s)%nat.
Proof. by apply (arrayFrom_length_aux (length s)). Qed.

(** Whether a text begins with a low surrogate, which would pair with a
    high surrogate before it. *)
Definition startsLow (t : jsstring) : bool :=
  match t with
  | d :: _ => isLowSurrogate d
  | [] => false
  end.

Lemma arrayFrom_head c s : ∃ e l, arrayFrom (c :: s) = (c :: e) :: l.
Proof.
  rewrite arrayFrom_cons. destruct s as [|d s]; [by eexists _, _|].
  destruct (isHighSurrogate c && isLowSurrogate d); by eexists _, _.
Qed.

Lemma arrayFrom_take_aux k : ∀ s n t,
  (length s ≤ k)%nat → startsLow t = false →
  arrayFrom (join (take n (arrayFrom s)) ++ t) = take n (arrayFrom s) ++ arrayFrom t.
Proof.
  induction k as [|k IH]; intros s n t Hk Ht.
  { destruct s; [|simpl in Hk; lia]. cbn [arrayFrom]. by rewrite take_nil. }
  destruct n as [|n]; [done|].
  destruct s as [|c [|d s]].
  - done.
  - cbn [arrayFrom take]. rewrite take_nil. simpl.
    destruct t as [|d t]; [done|]. simpl in Ht. rewrite Ht.
    by rewrite andb_false_r.
  - rewrite (arrayFrom_cons c (d :: s)). simpl in Hk.
    destruct (isHighSurrogate c && isLowSurrogate d) eqn:E.
    + cbn [take join concat app]. unfold join in IH.
      rewrite arrayFrom_cons. cbn [app]. rewrite E.
      rewrite IH by (done || lia). done.
    + cbn [take join concat app]. unfold join in IH.
      rewrite arrayFrom_cons.
      destruct n as [|n].
      * simpl. destruct t as [|e t]; [done|]. simpl in Ht. rewrite Ht.
        by rewrite andb_false_r.
      * destruct (arrayFrom_head d s) as (e & l & Hd). rewrite Hd at 1.
        cbn [take concat app]. rewrite E.
        rewrite IH by (done || simpl; lia). done.
Qed.

Lemma arrayFrom_take s n t :
  startsLow t = false →
  arrayFrom (join (take n (arrayFrom s)) ++ t) = take n (arrayFrom s) ++ arrayFrom t.
Proof. by apply (arrayFrom_take_aux (length s)). Qed.

Lemma slice_take {A} (l : list A) (n : nat) : slice l 0 (Z.of_nat n) = take n l.
Proof.
  change (Z.of_nat n) with (0 + Z.of_nat n)%Z.
  rewrite slice_take_drop by lia. by rewrite Nat2Z.id.
Qed.

Lemma isTruthyString_decide s : isTruthyString s = negb (bool_decide (s = [])).
Proof. unfold isTruthyString, eqs. f_equal. by apply bool_decide_ext. Qed.

Lemma truncatePreview_shape (p : jsstring) :
  truncatePreview p =
  if bool_decide (200 < codePoints p)%nat
  then join (take 200 (arrayFrom p)) ++ ellipsis
  else if bool_decide (p = []) then js "No content preview available." else p.
Proof.
  unfold truncatePreview, codePoints.
  pose proof (arrayFrom_length p) as Hlen.
  rewrite isTruthyString_decide.
  destruct (Z.ltb_spec 200 (Z.of_nat (length (arrayFrom p)))) as [Hcp|Hcp].
  - rewrite (bool_decide_eq_true_2 (200 < length (arrayFrom p))%nat) by lia.
    destruct (Z.ltb_spec 200 (Z.of_nat (length p))); [|lia].
    by rewrite (slice_take _ 200).
  - rewrite (bool_decide_eq_false_2 (200 < length (arrayFrom p))%nat) by lia.
    destruct (200 <? Z.of_nat (length p)); by destruct (bool_decide (p = [])).
Qed.

Lemma truncatePreview_codePoints (p : jsstring) :
  codePoints (truncatePreview p) =
  if bool_decide (200 < codePoints p)%nat then 203%nat
  else if bool_decide (p = []) then 29%nat else codePoints p.
Proof.
  rewrite truncatePreview_shape.
  destruct (bool_decide (200 < codePoints p)%nat) eqn:E.
  - apply bool_decide_eq_true in E. unfold codePoints in *.
    rewrite arrayFrom_take by done.
    rewrite length_app, length_take.
    change (length (arrayFrom ellipsis)) with 3%nat. lia.
  - by destruct (bool_decide (p = [])).
Qed.

(** C4, as the code has it.  The preview is the first paragraph when that
    has at most 200 code points (the fixed message when it is empty), and
    otherwise its first 200 code points followed by the three-character
    marker: 203 code points, which is the most a preview has. *)
Theorem extractContentPreview_at_most_203 (content : jsstring) :
  let p := firstParagraph content in
  extractContentPreview content =
    (if bool_decide (200 < codePoints p)%nat
     then join (take 200 (arrayFrom p)) ++ js "..."
     else if bool_decide (p = []) then js "No content preview available." else p)
  ∧ codePoints (extractContentPreview content) =
    (if bool_decide (200 < codePoints p)%nat then 203%nat
     else if bool_decide (p = []) then 29%nat else codePoints p)
  ∧ (codePoints (extractContentPreview content) ≤ 203)%nat.
Proof.
  intros p. unfold extractContentPreview. fold p.
  split; [apply truncatePreview_shape|].
  pose proof (truncatePreview_codePoints p) as H.
  split; [exact H|]. rewrite H.
  destruct (bool_decide (200 < codePoints p)%nat) eqn:E; [lia|].
  apply bool_decide_eq_false in E.
  destruct (bool_decide (p = [])); lia.
Qed.

(** C4, as stated, fails: a paragraph of 201 letters gives a preview of
    203 code points. *)
Lemma extractContentPreview_exceeds_200 :
  codePoints (firstParagraph (replicate 201 97%N)) = 201%nat
  ∧ codePoints (extractContentPreview (replicate 201 97%N)) = 203%nat
  ∧ ¬ (codePoints (extractContentPreview (replicate 201 97%N)) ≤ 200)%nat.
Proof.
  assert (H : codePoints (extractContentPreview (replicate 201 97%N)) = 203%nat)
    by (vm_compute; reflexivity).
  split; [vm_compute; reflexivity|]. split; [exact H|]. rewrite H. lia.
Qed.

(** ** Required front-matter fields *)

Section RequiredFields.

Variable matter : jsstring → option (gmap jsstring value * jsstring).
Variable isoNow : jsstring.

(** The warning of the loop over the required fields. *)
Definition missingFieldWarning (field fileName : jsstring) : logLine :=
  Warn (js "Missing required field '" ++ field ++ js "' in " ++ fileName).

Lemma firstMissing_falsy data fields field :
  field ∈ fields → truthy (getField data field) = false →
  ∃ f, firstMissing data fields = Some f.
Proof.
  induction fields as [|g fields IH]; intros Hin Hf; [by apply elem_of_nil in Hin|].
  simpl. destruct (truthy (getField data g)) eqn:Hg; [|by eexists].
  apply elem_of_cons in Hin as [->|Hin]; [congruence|]. by apply IH.
Qed.

Lemma firstMissing_only data fields field :
  field ∈ fields → truthy (getField data field) = false →
  (∀ other, other ∈ fields → other ≠ field → truthy (getField data other) = true) →
  firstMissing data fields = Some field.
Proof.
  induction fields as [|g fields IH]; intros Hin Hf Hothers; [by apply elem_of_nil in Hin|].
  simpl. destruct (decide (g = field)) as [->|Hne].
  - by rewrite Hf.
  - rewrite (Hothers g) by (done || by left).
    apply elem_of_cons in Hin as [->|Hin]; [done|].
    apply IH; [done..|]. intros other Ho. apply Hothers. by right.
Qed.

Lemma parseMDXContent_falsy_field content fileName path data body field :
  matter (decodeHtmlEntities content) = Some (data, body) →
  field ∈ requiredFields →
  truthy (getField data field) = false →
  ∃ f, parseMDXContent matter isoNow content fileName path
       = (None, [missingFieldWarning f fileName]).
Proof.
  intros Hm Hin Hf. unfold parseMDXContent. rewrite Hm.
  destruct (firstMissing_falsy data requiredFields field Hin Hf) as [f ->].
  by exists f.
Qed.

Lemma parseMDXContent_only_falsy_field content fileName path data body field :
  matter (decodeHtmlEntities content) = Some (data, body) →
  field ∈ requiredFields →
  truthy (getField data field) = false →
  (∀ other, other ∈ requiredFields → other ≠ field →
            truthy (getField data other) = true) →
  parseMDXContent matter isoNow content fileName path
  = (None, [missingFieldWarning field fileName]).
Proof.
  intros Hm Hin Hf Hothers. unfold parseMDXContent. rewrite Hm.
  by rewrite (firstMissing_only data requiredFields field Hin Hf Hothers).
Qed.

Lemma firstMissing_ext data data' fields :
  (∀ f, truthy (getField data f) = truthy (getField data' f)) →
  firstMissing data fields = firstMissing data' fields.
Proof.
  intros H. induction fields as [|g fields IH]; [done|].
  simpl. by rewrite H, IH.
Qed.

(** The same document with one key of its front matter taken out. *)
Definition withoutField (field : jsstring) (s : jsstring)
    : option (gmap jsstring value * jsstring) :=
  match matter s with
  | Some (data, body) => Some (delete field data, body)
  | None => None
  end.

(** The falsy values the claim names. *)
Definition falsyValues : list value := [VStr []; VNum 0; VBool false].

Lemma falsyValues_falsy v : v ∈ falsyValues → truthy v = false.
Proof.
  unfold falsyValues. intros H.
  repeat (apply elem_of_cons in H as [->|H]; [done|]).
  by apply elem_of_nil in H.
Qed.

End RequiredFields.

(** C5.  When a required field is absent from the front matter, the
    parser returns [null] (it does not raise) and writes one warning to
    the console, nothing else; when the other required fields are there
    with truthy values, the warning names the absent field.  This holds
    for each of the five fields. *)
Theorem parseMDXContent_missing_field_null
    (matter : jsstring → option (gmap jsstring value * jsstring))
    (isoNow content fileName path : jsstring)
    (data : gmap jsstring value) (body field : jsstring) :
  matter (decodeHtmlEntities content) = Some (data, body) →
  field ∈ requiredFields →
  data !! field = None →
  (∃ f, parseMDXContent matter isoNow content fileName path
        = (None, [missingFieldWarning f fileName]))
  ∧ ((∀ other, other ∈ requiredFields → other ≠ field →
               truthy (getField data other) = true) →
     parseMDXContent matter isoNow content fileName path
     = (None, [missingFieldWarning field fileName])).
Proof.
  intros Hm Hin Hf.
  assert (Hfalsy : truthy (getField data field) = false)
    by (unfold getField; by rewrite Hf).
  split.
  - by apply (parseMDXContent_falsy_field _ _ _ _ _ data body field).
  - by apply (parseMDXContent_only_falsy_field _ _ _ _ _ data body).
Qed.

(** A document with the four other required fields and no date. *)
Definition exampleDataNoDate : gmap jsstring value :=
  list_to_map
    [ (js "title", VStr (js "Welcome")); (js "author", VStr (js "An Author"));
      (js "feedName", VStr (js "A Feed")); (js "postId", VStr (js "1_2")) ].

Lemma parseMDXContent_missing_field_null_witness :
  parseMDXContent (λ _, Some (exampleDataNoDate, js "Hello")) []
    (js "raw text") (js "a.mdx") (js "posts/a.mdx")
  = (None, [missingFieldWarning (js "date") (js "a.mdx")]).
Proof.
  refine (proj2 (parseMDXContent_missing_field_null
                   (λ _, Some (exampleDataNoDate, js "Hello")) []
                   (js "raw text") (js "a.mdx") (js "posts/a.mdx")
                   exampleDataNoDate (js "Hello") (js "date") eq_refl _ eq_refl) _).
  - unfold requiredFields. set_solver.
  - intros other Ho Hne. unfold requiredFields in Ho.
    repeat (apply elem_of_cons in Ho as [->|Ho]; [done|]).
    by apply elem_of_nil in Ho.
Defined.

(** C10.  A required field bound to the empty string, to 0 or to false
    fails the check like an absent one: the parser returns [null], with
    the very result it gives for the document without that key. *)
Theorem parseMDXContent_falsy_field_as_absent
    (matter : jsstring → option (gmap jsstring value * jsstring))
    (isoNow content fileName path : jsstring)
    (data : gmap jsstring value) (body field : jsstring) (v : value) :
  matter (decodeHtmlEntities content) = Some (data, body) →
  field ∈ requiredFields →
  data !! field = Some v →
  v ∈ falsyValues →
  (parseMDXContent matter isoNow content fileName path).1 = None
  ∧ parseMDXContent matter isoNow content fileName path
    = parseMDXContent (withoutField matter field) isoNow content fileName path.
Proof.
  intros Hm Hin Hv Hfalsy. apply falsyValues_falsy in Hfalsy.
  assert (Hf : truthy (getField data field) = false)
    by (unfold getField; by rewrite Hv).
  destruct (parseMDXContent_falsy_field matter isoNow content fileName path
              data body field Hm Hin Hf) as [f Hp].
  split; [by rewrite Hp|].
  unfold parseMDXContent, withoutField. rewrite Hm.
  rewrite (firstMissing_ext (delete field data) data).
  - destruct (firstMissing_falsy data requiredFields field Hin Hf) as [g ->]. done.
  - intros g. unfold getField. destruct (decide (field = g)) as [<-|Hne].
    + rewrite lookup_delete_eq, Hv. simpl. done.
    + by rewrite lookup_delete_ne.
Qed.

Definition exampleDataEmptyTitle : gmap jsstring value :=
  <[js "title" := VStr []]> (<[js "date" := VStr (js "2024-12-15T10:30:00Z")]> exampleDataNoDate).

Lemma parseMDXContent_falsy_field_as_absent_witness :
  (parseMDXContent (λ _, Some (exampleDataEmptyTitle, js "Hello")) []
     (js "raw text") (js "a.mdx") (js "posts/a.mdx")).1 = None.
Proof.
  refine (proj1 (parseMDXContent_falsy_field_as_absent
                   (λ _, Some (exampleDataEmptyTitle, js "Hello")) []
                   (js "raw text") (js "a.mdx") (js "posts/a.mdx")
                   exampleDataEmptyTitle (js "Hello") (js "title") (VStr [])
                   eq_refl _ eq_refl _)).
  - unfold requiredFields. set_solver.
  - unfold falsyValues. set_solver.
Defined.

(** ** The rate-limit gate *)

Section RateLimit.

Import GitHubAPI.

Context {A : Type}.

(** The error of the gate. *)
Definition rateLimitError : GitHubAPIError :=
  {| message := js "Rate limit exceeded. Please try again later."; status := None |}.

Lemma rateLimited_true (this : api A) (now remaining reset : Z) :
  rateLimitRemaining this = Some remaining → remaining <= 1 →
  rateLimitReset this = Some reset → now < reset * 1000 →
  rateLimited this now = true.
Proof.
  intros Hr Hle Hs Hlt. unfold rateLimited. rewrite Hr, Hs. simpl.
  apply andb_true_intro. split; [by apply Z.leb_le|by apply Z.ltb_lt].
Qed.

End RateLimit.

(** C6.  With the tracked remaining budget at most 1 and the tracked reset
    time still ahead, a request that finds no fresh entry in the memory
    cache or in the persistent cache fails at once with the rate-limit
    error: no request goes out, and the result does not depend on what the
    network would have answered. *)
Theorem makeRequest_rate_limit_gate {A : Type}
    (accepts : PersistentCache.storage A → jsstring → PersistentCache.item A → bool)
    (fetch : jsstring → list (jsstring * jsstring) → jsstring + GitHubAPI.response A)
    (this : GitHubAPI.api A) (ls : option (PersistentCache.storage A))
    (now later : Z) (endpoint : jsstring) (cacheDuration : option Z)
    (remaining reset : Z) :
  let url := GitHubAPI.GITHUB_API_BASE ++ endpoint in
  let cacheKey := js "api:" ++ endpoint in
  let duration := GitHubAPI.durationOf cacheDuration in
  (∀ cached, GitHubAPI.cache this !! url = Some cached →
             duration <= now - GitHubAPI.timestamp cached) →
  (∀ entry, (PersistentCache.get ls now cacheKey).1 = Some entry →
            duration <= now - PersistentCache.timestamp entry) →
  GitHubAPI.rateLimitRemaining this = Some remaining → remaining <= 1 →
  GitHubAPI.rateLimitReset this = Some reset → now < reset * 1000 →
  GitHubAPI.makeRequest accepts fetch this ls now later endpoint cacheDuration
  = {| GitHubAPI.outcome := inl rateLimitError;
       GitHubAPI.self := this;
       GitHubAPI.store := (PersistentCache.get ls now cacheKey).2;
       GitHubAPI.requests := [] |}.
Proof.
  intros url cacheKey duration Hmem Hper Hr Hle Hs Hlt.
  unfold GitHubAPI.makeRequest. fold url cacheKey duration.
  assert (Hm : match GitHubAPI.cache this !! url with
               | Some cached =>
                   if now - GitHubAPI.timestamp cached <? duration then Some cached else None
               | None => None
               end = None).
  { destruct (GitHubAPI.cache this !! url) as [cached|] eqn:E; [|done].
    specialize (Hmem cached eq_refl).
    destruct (Z.ltb_spec (now - GitHubAPI.timestamp cached) duration); [lia|done]. }
  rewrite Hm.
  destruct (PersistentCache.get ls now cacheKey) as [pe ls'] eqn:Eg. simpl in *.
  assert (Hp : match pe with
               | Some e =>
                   if now - PersistentCache.timestamp e <? duration then Some e else None
               | None => None
               end = None).
  { destruct pe as [e|]; [|done]. specialize (Hper e eq_refl).
    destruct (Z.ltb_spec (now - PersistentCache.timestamp e) duration); [lia|done]. }
  rewrite Hp. by rewrite (rateLimited_true this now remaining reset).
Qed.

Lemma makeRequest_rate_limit_gate_witness :
  GitHubAPI.makeRequest (A := nat) (λ _ _ _, true) (λ _ _, inl [])
    {| GitHubAPI.config := Config.defaultConfig; GitHubAPI.cache := ∅;
       GitHubAPI.rateLimitRemaining := Some 1; GitHubAPI.rateLimitReset := Some 2000 |}
    (Some []) 1000000 1000500 (js "/repos/o/r/contents/posts") None
  = {| GitHubAPI.outcome := inl rateLimitError;
       GitHubAPI.self :=
         {| GitHubAPI.config := Config.defaultConfig; GitHubAPI.cache := ∅;
            GitHubAPI.rateLimitRemaining := Some 1;
            GitHubAPI.rateLimitReset := Some 2000 |};
       GitHubAPI.store := Some [];
       GitHubAPI.requests := [] |}.
Proof.
  apply (makeRequest_rate_limit_gate (A := nat) (λ _ _ _, true) (λ _ _, inl [])
           {| GitHubAPI.config := Config.defaultConfig; GitHubAPI.cache := ∅;
              GitHubAPI.rateLimitRemaining := Some 1;
              GitHubAPI.rateLimitReset := Some 2000 |}
           (Some []) 1000000 1000500 (js "/repos/o/r/contents/posts") None 1 2000).
  - intros cached H. simpl in H. by rewrite lookup_empty in H.
  - intros entry H. simpl in H. discriminate.
  - reflexivity.
  - lia.
  - reflexivity.
  - lia.
Defined.

(** ** Saving the configuration *)

Section SaveConfig.

Import Config.

Lemma getConfig_toPartial (c : FeedConfig) :
  getConfig (Some (Some (Json (toPartial c)))) = c.
Proof. by destruct c. Qed.

Lemma parseRepositoryUrl_empty : parseRepositoryUrl [] = None.
Proof. reflexivity. Qed.

End SaveConfig.

(** C9, as the code has it.  [saveConfig] rejects nothing: whatever the
    repository URL, the merged configuration is written, with that URL in
    it.  When the URL matches the pattern, the owner and the repository
    are derived from it on that save; when it does not, they stay what
    they were (or what the caller passed). *)
Theorem saveConfig_persists_any_url
    (accepts : Config.FeedConfig → bool) (current : option Config.stored)
    (config : Config.PartialConfig) (url : jsstring) :
  Config.repositoryUrl' config = Some url →
  (∀ c, accepts c = true) →
  let before := Config.getConfig (Some current) in
  let after := Config.getConfig (Config.saveConfig accepts (Some current) config) in
  Config.saveConfig accepts (Some current) config
    = Some (Some (Config.Json (Config.toPartial after)))
  ∧ Config.repositoryUrl after = url
  ∧ Config.postsPath after
    = default (Config.postsPath before) (Config.postsPath' config)
  ∧ match Config.parseRepositoryUrl url with
    | Some (o, r) => Config.owner after = o ∧ Config.repo after = r
    | None =>
        Config.owner after = default (Config.owner before) (Config.owner' config)
        ∧ Config.repo after = default (Config.repo before) (Config.repo' config)
    end.
Proof.
  intros Hurl Hacc before after. subst after.
  unfold Config.saveConfig. rewrite Hurl. fold before.
  destruct (isTruthyString url) eqn:Ht.
  - destruct (Config.parseRepositoryUrl url) as [[o r]|] eqn:Ep;
      rewrite Hacc, getConfig_toPartial; simpl; by rewrite Hurl.
  - assert (url = []) as ->.
    { unfold isTruthyString, eqs in Ht. apply negb_false_iff in Ht.
      by apply bool_decide_eq_true in Ht. }
    rewrite parseRepositoryUrl_empty, Hacc, getConfig_toPartial. simpl.
    by rewrite Hurl.
Qed.

(** A URL that does not match the pattern. *)
Definition gitlabUrl : jsstring := js "https://gitlab.com/someone/some-repo".

Lemma saveConfig_persists_any_url_witness :
  Config.repositoryUrl
    (Config.getConfig
       (Config.saveConfig (λ _, true) (Some None)
          {| Config.repositoryUrl' := Some (js "https://github.com/octocat/hello.git");
             Config.owner' := None; Config.repo' := None;
             Config.postsPath' := Some (js "posts") |}))
  = js "https://github.com/octocat/hello.git".
Proof.
  refine (proj1 (proj2 (saveConfig_persists_any_url (λ _, true) None
            {| Config.repositoryUrl' := Some (js "https://github.com/octocat/hello.git");
               Config.owner' := None; Config.repo' := None;
               Config.postsPath' := Some (js "posts") |}
            (js "https://github.com/octocat/hello.git") eq_refl _))).
  intros c. reflexivity.
Defined.

(** C9, as stated, fails: a URL that the validation refuses is written
    to the store, next to the owner and repository of the default. *)
Lemma saveConfig_writes_invalid_url :
  Config.validateRepositoryUrl gitlabUrl = false
  ∧ Config.saveConfig (λ _, true) (Some None)
      {| Config.repositoryUrl' := Some gitlabUrl; Config.owner' := None;
         Config.repo' := None; Config.postsPath' := None |}
    = Some (Some (Config.Json
        {| Config.repositoryUrl' := Some gitlabUrl;
           Config.owner' := Some (js "monokaijs");
           Config.repo' := Some (js "j2team-backup");
           Config.postsPath' := Some (js "posts/j2team-community-backup") |})).
Proof. split; reflexivity. Qed.

(** ** The comparator of the listing *)

Section Comparator.

Import Listing.

Variable localeCompare : jsstring → jsstring → Z.

Lemma compareNames_dated (a b : jsstring) (ta tb : Z) :
  extractDateFromFileName a = Some {| getTime := Some ta |} →
  extractDateFromFileName b = Some {| getTime := Some tb |} →
  compareNames localeCompare a b = Some (tb - ta).
Proof. intros Ha Hb. unfold compareNames. by rewrite Ha, Hb. Qed.

Lemma compareNames_fallback (a b : jsstring) :
  extractDateFromFileName a = None ∨ extractDateFromFileName b = None →
  compareNames localeCompare a b = Some (localeCompare b a).
Proof.
  intros [H|H]; unfold compareNames; rewrite H; [done|].
  by destruct (extractDateFromFileName a).
Qed.

Lemma compareNames_invalid_date (a b : jsstring) (d : Date) :
  extractDateFromFileName a = Some {| getTime := None |} →
  extractDateFromFileName b = Some d →
  compareNames localeCompare a b = None ∧ compareNames localeCompare b a = None.
Proof.
  intros Ha Hb. unfold compareNames. rewrite Ha, Hb. simpl.
  by destruct (getTime d).
Qed.

End Comparator.

(** Two names whose prefix has the shape of a timestamp but month 13, and
    two names with the timestamps of the example of the spec. *)
Definition month13A : jsstring := js "2024-13-01_00-00-00_a.mdx".
Definition month13B : jsstring := js "2024-13-01_00-00-00_b.mdx".
Definition newerName : jsstring := js "2024-12-15_10-30-00_welcome-post.mdx".
Definition olderName : jsstring := js "2024-12-14_09-00-00_first.mdx".

(** C2, on the names it fails for.  A name whose prefix matches the
    pattern but is no date gives an Invalid Date, which is truthy: the
    comparator then subtracts [NaN] instead of falling back to the names,
    whatever [localeCompare] is.  Such a name compares as equal to every
    dated name, so two of them keep their listing order, and the order is
    no longer total: here the older post stays ahead of the newer one. *)
Theorem compareNames_invalid_date_no_fallback (localeCompare : jsstring → jsstring → Z) :
  extractDateFromFileName month13A = Some {| getTime := None |}
  ∧ extractDateFromFileName month13B = Some {| getTime := None |}
  ∧ Listing.compareNames localeCompare month13A month13B = None
  ∧ sortCompare (Listing.compareNames localeCompare) month13A newerName = 0
  ∧ sortCompare (Listing.compareNames localeCompare) month13A olderName = 0
  ∧ sortCompare (Listing.compareNames localeCompare) olderName newerName = 91800000
  ∧ sort (Listing.compareNames localeCompare) [olderName; month13A; newerName]
    = [olderName; month13A; newerName]
  ∧ sort (Listing.compareNames localeCompare) [olderName; newerName]
    = [newerName; olderName].
Proof. repeat split; vm_compute; reflexivity. Qed.

(** The reverse comparison of the two names would have put the second
    first. *)
Lemma lexCompare_names : Listing.lexCompare month13B month13A = 1.
Proof. reflexivity. Qed.

(** The example of the spec: of the posts of 12-14 and 12-15, the one of
    12-15 comes first. *)
Example mdxFiles_example :
  GitHubAPI.name <$> GitHubAPI.mdxFiles Listing.lexCompare exampleListing
  = [js "notes.mdx"; newerName; olderName].
Proof. vm_compute. reflexivity. Qed.

(** ** The persistent cache *)

Lemma filter_all {B} (P : B → Prop) `{!∀ x, Decision (P x)} (l : list B) :
  (∀ x, x ∈ l → P x) → filter P l = l.
Proof.
  induction l as [|x l IH]; intros Hall; [done|].
  rewrite filter_cons_True by (apply Hall; by left).
  f_equal. apply IH. intros y Hy. apply Hall. by right.
Qed.

Section SortFacts.

Context {B : Type}.

Lemma sortInsert_Permutation (cmp : B → B → option Z) x l :
  sortInsert cmp x l ≡ₚ x :: l.
Proof.
  induction l as [|y l IH]; [done|].
  simpl. destruct (0 <? sortCompare cmp x y); [|done].
  rewrite IH. apply Permutation_swap.
Qed.

Lemma sort_Permutation (cmp : B → B → option Z) l : sort cmp l ≡ₚ l.
Proof.
  induction l as [|x l IH]; [done|].
  unfold sort in *. simpl. by rewrite sortInsert_Permutation, IH.
Qed.

(** Sorting by a numeric key, as [(a, b) => key(a) - key(b)] does. *)
Variable key : B → Z.

Definition byKey (a b : B) : option Z := Some (key a - key b).
Definition keyLe (a b : B) : Prop := key a <= key b.

Lemma sortInsert_sorted x l :
  StronglySorted keyLe l → StronglySorted keyLe (sortInsert byKey x l).
Proof.
  induction l as [|y l IH]; intros Hs.
  - repeat constructor.
  - apply StronglySorted_cons in Hs as [Hy Hs]. simpl.
    unfold sortCompare, byKey at 1. simpl.
    destruct (Z.ltb_spec 0 (key x - key y)) as [Hlt|Hle].
    + apply StronglySorted_cons. split; [|by apply IH].
      rewrite sortInsert_Permutation. constructor; [unfold keyLe; lia|done].
    + apply StronglySorted_cons. split.
      * constructor; [unfold keyLe; lia|].
        eapply Forall_impl; [exact Hy|]. unfold keyLe. intros z Hz. lia.
      * by apply StronglySorted_cons.
Qed.

Lemma sort_sorted l : StronglySorted keyLe (sort byKey l).
Proof.
  induction l as [|x l IH]; [constructor|].
  unfold sort in *. simpl. by apply sortInsert_sorted.
Qed.

End SortFacts.

Lemma filter_none {B} (P : B → Prop) `{!∀ x, Decision (P x)} (l : list B) :
  (∀ x, x ∈ l → ¬ P x) → filter P l = [].
Proof.
  induction l as [|x l IH]; intros Hall; [done|].
  rewrite filter_cons_False by (apply Hall; by left).
  apply IH. intros y Hy. apply Hall. by right.
Qed.

Lemma filter_not_in_take {B K} `{EqDecision K} (f : B → K) (l : list B) (n : nat) :
  NoDup (f <$> l) →
  filter (λ x, f x ∉ f <$> take n l) l = drop n l.
Proof.
  intros Hnd. rewrite <- (take_drop n l) in Hnd.
  rewrite fmap_app in Hnd. apply NoDup_app in Hnd as (_ & Hdisj & _).
  transitivity (filter (λ x, f x ∉ f <$> take n l) (take n l ++ drop n l));
    [by rewrite take_drop|].
  rewrite filter_app.
  rewrite filter_none, filter_all; [done| |].
  - intros x Hx Hin. apply (Hdisj (f x)); [done|]. by apply list_elem_of_fmap_2.
  - intros x Hx Hnot. apply Hnot. by apply list_elem_of_fmap_2.
Qed.

Section StoreFacts.

Import PersistentCache.

Context {A : Type}.
Implicit Types (st : storage A) (k key : jsstring) (ks : list jsstring)
  (v : item A) (e : PersistentCacheEntry A).

Lemma eqs_decide (a b : jsstring) : eqs a b = bool_decide (a = b).
Proof. reflexivity. Qed.

Lemma eqs_true (a b : jsstring) : eqs a b = true ↔ a = b.
Proof. unfold eqs. apply bool_decide_eq_true. Qed.

Lemma eqs_false (a b : jsstring) : eqs a b = false ↔ a ≠ b.
Proof. unfold eqs. apply bool_decide_eq_false. Qed.

Lemma eqs_refl (a : jsstring) : eqs a a = true.
Proof. by apply eqs_true. Qed.

Lemma keysOf_cons st k v : keysOf ((k, v) :: st) = k :: keysOf st.
Proof. reflexivity. Qed.

Lemma getItem_None st k : getItem st k = None ↔ k ∉ keysOf st.
Proof.
  induction st as [|[k' v] st IH]; simpl.
  - split; [intros _; apply not_elem_of_nil|done].
  - destruct (eqs k' k) eqn:E.
    + apply eqs_true in E as ->. split; [done|]. intros H. exfalso. apply H. by left.
    + apply eqs_false in E. rewrite IH, not_elem_of_cons.
      split; [intros ?; split; [congruence|done]|by intros [_ ?]].
Qed.

Lemma getItem_Some_elem st k v : getItem st k = Some v → (k, v) ∈ st.
Proof.
  induction st as [|[k' w] st IH]; simpl; [done|].
  destruct (eqs k' k) eqn:E.
  - apply eqs_true in E as ->. intros [= ->]. by left.
  - intros H. right. by apply IH.
Qed.

Lemma removeItem_cons st k' v k :
  removeItem ((k', v) :: st) k =
  if decide (k' = k) then removeItem st k else (k', v) :: removeItem st k.
Proof.
  unfold removeItem. cbn [filter list_filter fst].
  destruct (decide (k' = k)) as [->|Hne].
  - rewrite eqs_refl. by rewrite decide_False by done.
  - rewrite (proj2 (eqs_false k' k) Hne). by rewrite decide_True by done.
Qed.

Lemma getItem_removeItem st k k' :
  getItem (removeItem st k) k' = if decide (k' = k) then None else getItem st k'.
Proof.
  induction st as [|[j v] st IH]; [by destruct (decide _)|].
  rewrite removeItem_cons. destruct (decide (j = k)) as [->|Hj]; simpl.
  - rewrite IH. destruct (decide (k' = k)) as [->|Hk]; [done|].
    by rewrite (proj2 (eqs_false k k')).
  - rewrite IH. destruct (eqs j k') eqn:E; [|done].
    apply eqs_true in E as <-. by rewrite decide_False.
Qed.

Lemma keysOf_removeItem st k :
  keysOf (removeItem st k) = filter (λ k', k' ≠ k) (keysOf st).
Proof.
  induction st as [|[j v] st IH]; [done|].
  rewrite removeItem_cons, keysOf_cons, filter_cons.
  destruct (decide (j = k)) as [->|Hj].
  - by rewrite decide_False by naive_solver.
  - rewrite decide_True by done. by rewrite keysOf_cons, IH.
Qed.

Lemma getItem_removeKeys st ks k :
  getItem (removeKeys st ks) k = if decide (k ∈ ks) then None else getItem st k.
Proof.
  revert st. induction ks as [|j ks IH]; intros st.
  - by rewrite decide_False by apply not_elem_of_nil.
  - change (removeKeys st (j :: ks)) with (removeKeys (removeItem st j) ks).
    rewrite IH, getItem_removeItem.
    destruct (decide (k ∈ ks)), (decide (k = j)), (decide (k ∈ j :: ks));
      subst; try done; exfalso; rewrite elem_of_cons in *; tauto.
Qed.

Lemma keysOf_removeKeys st ks :
  keysOf (removeKeys st ks) = filter (λ k, k ∉ ks) (keysOf st).
Proof.
  revert st. induction ks as [|j ks IH]; intros st.
  - symmetry. apply filter_all. intros k _. apply not_elem_of_nil.
  - change (removeKeys st (j :: ks)) with (removeKeys (removeItem st j) ks).
    rewrite IH, keysOf_removeItem, list_filter_filter.
    apply list_filter_iff. intros k. rewrite not_elem_of_cons. tauto.
Qed.

Lemma removeKeys_app st ks ks' :
  removeKeys st (ks ++ ks') = removeKeys (removeKeys st ks) ks'.
Proof. unfold removeKeys. apply foldl_app. Qed.

Lemma getItem_putItem st k v k' :
  getItem (putItem st k v) k' = if decide (k' = k) then Some v else getItem st k'.
Proof.
  induction st as [|[j w] st IH]; simpl.
  - destruct (decide (k' = k)) as [->|Hne]; [by rewrite eqs_refl|].
    rewrite (proj2 (eqs_false k k')); [done|congruence].
  - destruct (eqs j k) eqn:E; simpl.
    + apply eqs_true in E as ->. destruct (decide (k' = k)) as [->|Hne].
      * by rewrite eqs_refl.
      * rewrite (proj2 (eqs_false k k')); [done|congruence].
    + rewrite IH. destruct (eqs j k') eqn:E'; [|done].
      apply eqs_true in E' as <-. apply eqs_false in E.
      by rewrite decide_False.
Qed.

Lemma keysOf_putItem st k v :
  keysOf (putItem st k v) =
  if decide (k ∈ keysOf st) then keysOf st else keysOf st ++ [k].
Proof.
  induction st as [|[j w] st IH].
  - done.
  - simpl putItem. rewrite keysOf_cons. destruct (eqs j k) eqn:E.
    + apply eqs_true in E as ->. rewrite keysOf_cons.
      by rewrite decide_True by (by left).
    + apply eqs_false in E. rewrite keysOf_cons, IH.
      destruct (decide (k ∈ keysOf st)), (decide (k ∈ j :: keysOf st));
        try done; exfalso; rewrite elem_of_cons in *; intuition congruence.
Qed.

Lemma NoDup_putItem st k v : NoDup (keysOf st) → NoDup (keysOf (putItem st k v)).
Proof.
  intros H. rewrite keysOf_putItem. destruct (decide _) as [Hin|Hin]; [done|].
  apply NoDup_app. split_and!; [done| |apply NoDup_singleton].
  intros x Hx Hx'. apply list_elem_of_singleton in Hx' as ->. done.
Qed.

Lemma NoDup_removeKeys st ks : NoDup (keysOf st) → NoDup (keysOf (removeKeys st ks)).
Proof. intros H. rewrite keysOf_removeKeys. by apply NoDup_filter. Qed.


(** The entry stored under a key, and the entries of the cache in a store:
    what the first loop of [cleanup] collects. *)
Definition entryAt st k : option (jsstring * PersistentCacheEntry A) :=
  match getItem st k with
  | Some (Json e) => Some (k, e)
  | _ => None
  end.

Definition cacheKeys st : list jsstring :=
  filter (λ key, startsWith key prefix = true) (keysOf st).

Definition entriesOf st : list (jsstring * PersistentCacheEntry A) :=
  omap (entryAt st) (cacheKeys st).

(** The entries still valid at a time. *)
Definition validEntries st (now : Z) : list (jsstring * PersistentCacheEntry A) :=
  filter (λ ke, (now <=? expiresAt ke.2) = true) (entriesOf st).

(** A non-empty item that does not parse. *)
Definition garbageAt st k : bool :=
  match getItem st k with
  | Some (Garbage text) => isTruthyString text
  | _ => false
  end.

Lemma omap_ext_in {B C} (f g : B → option C) (l : list B) :
  (∀ x, x ∈ l → f x = g x) → omap f l = omap g l.
Proof.
  intros Hfg. apply list_omap_ext, Forall_Forall2_diag, Forall_forall, Hfg.
Qed.

Lemma filter_ext_in {B} (P Q : B → Prop) `{!∀ x, Decision (P x), !∀ x, Decision (Q x)}
    (l : list B) :
  (∀ x, x ∈ l → P x ↔ Q x) → filter P l = filter Q l.
Proof.
  induction l as [|x l IH]; intros HPQ; [done|].
  rewrite !filter_cons. rewrite IH by (intros y Hy; apply HPQ; by right).
  apply decide_ext, HPQ. by left.
Qed.

Lemma entryAt_removeItem st k k' :
  k' ≠ k → entryAt (removeItem st k) k' = entryAt st k'.
Proof. intros Hne. unfold entryAt. by rewrite getItem_removeItem, decide_False. Qed.

Lemma garbageAt_removeItem st k k' :
  k' ≠ k → garbageAt (removeItem st k) k' = garbageAt st k'.
Proof. intros Hne. unfold garbageAt. by rewrite getItem_removeItem, decide_False. Qed.

Lemma collect_spec ks st :
  NoDup ks →
  collect ks st =
  (omap (entryAt st) ks, removeKeys st (filter (λ k, garbageAt st k = true) ks)).
Proof.
  revert st. induction ks as [|k ks IH]; intros st Hnd; [done|].
  apply NoDup_cons in Hnd as [Hk Hnd].
  cbn [collect].
  destruct (getItem st k) as [[e|text]|] eqn:E.
  - assert (He : entryAt st k = Some (k, e)) by (unfold entryAt; by rewrite E).
    assert (Hg : garbageAt st k ≠ true) by (unfold garbageAt; by rewrite E).
    rewrite filter_cons_False by done. rewrite IH by done.
    cbn [omap list_omap]. by rewrite He.
  - assert (He : entryAt st k = None) by (unfold entryAt; by rewrite E).
    assert (Hg : garbageAt st k = isTruthyString text)
      by (unfold garbageAt; by rewrite E).
    cbn [omap list_omap]. rewrite He.
    destruct (isTruthyString text) eqn:Ht.
    + rewrite filter_cons_True by done. rewrite IH by done.
      change (removeKeys st (k :: ?l)) with (removeKeys (removeItem st k) l).
      f_equal.
      * apply omap_ext_in. intros k' Hk'. apply entryAt_removeItem. congruence.
      * f_equal. apply filter_ext_in. intros k' Hk'.
        rewrite garbageAt_removeItem; [done|congruence].
    + rewrite filter_cons_False by (rewrite Hg; done). by rewrite IH.
  - assert (He : entryAt st k = None) by (unfold entryAt; by rewrite E).
    assert (Hg : garbageAt st k ≠ true) by (unfold garbageAt; by rewrite E).
    rewrite filter_cons_False by done. rewrite IH by done.
    cbn [omap list_omap]. by rewrite He.
Qed.


(** The oldest valid entries that [cleanup] evicts. *)
Definition evictedKeys st (now : Z) (aggressive : bool) : list jsstring :=
  let valid := validEntries st now in
  if aggressive || (maxSize <? Z.of_nat (length valid)) then
    fst <$> take (Z.to_nat (if aggressive then Z.of_nat (length valid) / 2
                            else Z.of_nat (length valid) - maxSize))
                 (sort byTimestamp valid)
  else [].

Definition expiredKeys st (now : Z) : list jsstring :=
  fst <$> filter (λ ke, (expiresAt ke.2 <? now) = true) (entriesOf st).

Definition garbageKeys st : list jsstring :=
  filter (λ k, garbageAt st k = true) (cacheKeys st).

Lemma NoDup_cacheKeys st : NoDup (keysOf st) → NoDup (cacheKeys st).
Proof. intros H. by apply NoDup_filter. Qed.

Lemma cleanup_spec st now aggressive :
  NoDup (keysOf st) →
  cleanup st now aggressive =
  removeKeys st (garbageKeys st ++ expiredKeys st now ++ evictedKeys st now aggressive).
Proof.
  intros Hnd. unfold cleanup.
  fold (cacheKeys st). rewrite (collect_spec _ _ (NoDup_cacheKeys _ Hnd)).
  fold (entriesOf st) (garbageKeys st) (expiredKeys st now) (validEntries st now).
  rewrite !removeKeys_app. unfold evictedKeys.
  by destruct (aggressive || (maxSize <? Z.of_nat (length (validEntries st now)))).
Qed.

Lemma entryAt_key st k ke : entryAt st k = Some ke → ke.1 = k.
Proof. unfold entryAt. by destruct (getItem st k) as [[e|?]|]; intros [= <-]. Qed.

Lemma entryAt_removeKeys st ks k :
  entryAt (removeKeys st ks) k = if decide (k ∈ ks) then None else entryAt st k.
Proof. unfold entryAt. rewrite getItem_removeKeys. by destruct (decide (k ∈ ks)). Qed.

Lemma entriesOf_removeKeys st ks :
  entriesOf (removeKeys st ks) = filter (λ ke, ke.1 ∉ ks) (entriesOf st).
Proof.
  unfold entriesOf, cacheKeys. rewrite keysOf_removeKeys.
  induction (keysOf st) as [|k l IH]; [done|].
  rewrite (filter_cons (λ k, k ∉ ks)).
  rewrite (filter_cons (λ k, startsWith k prefix = true) k l).
  destruct (decide (k ∉ ks)) as [Hk|Hk].
  - rewrite (filter_cons (λ k, startsWith k prefix = true)).
    destruct (decide (startsWith k prefix = true)); [|done].
    cbn [omap list_omap]. rewrite entryAt_removeKeys, decide_False by done.
    destruct (entryAt st k) as [ke|] eqn:E; [|done].
    rewrite filter_cons_True by (by rewrite (entryAt_key _ _ _ E)).
    by rewrite IH.
  - apply dec_stable in Hk.
    destruct (decide (startsWith k prefix = true)); [|done].
    cbn [omap list_omap].
    destruct (entryAt st k) as [ke|] eqn:E; [|done].
    rewrite filter_cons_False by (rewrite (entryAt_key _ _ _ E); by intros ?).
    done.
Qed.


Lemma elem_entriesOf st ke :
  ke ∈ entriesOf st ↔ ke.1 ∈ cacheKeys st ∧ entryAt st ke.1 = Some ke.
Proof.
  unfold entriesOf. rewrite list_elem_of_omap. split.
  - intros (k & Hk & He). by rewrite (entryAt_key _ _ _ He).
  - intros [Hk He]. by exists ke.1.
Qed.

Lemma entries_functional st ke ke' :
  ke ∈ entriesOf st → ke' ∈ entriesOf st → ke.1 = ke'.1 → ke = ke'.
Proof.
  rewrite !elem_entriesOf. intros [_ H] [_ H'] Heq. rewrite Heq in H. congruence.
Qed.

Lemma fst_omap_entryAt st ks :
  fst <$> omap (entryAt st) ks = filter (λ k, is_Some (entryAt st k)) ks.
Proof.
  induction ks as [|k ks IH]; [done|].
  cbn [omap list_omap]. rewrite filter_cons.
  destruct (entryAt st k) as [ke|] eqn:E.
  - rewrite decide_True by done. rewrite fmap_cons, IH.
    by rewrite (entryAt_key _ _ _ E).
  - rewrite decide_False by (by intros [? ?]). done.
Qed.

Lemma NoDup_entries_keys st : NoDup (keysOf st) → NoDup (fst <$> entriesOf st).
Proof.
  intros Hnd. unfold entriesOf. rewrite fst_omap_entryAt.
  by apply NoDup_filter, NoDup_cacheKeys.
Qed.

Lemma elem_validEntries st now ke :
  ke ∈ validEntries st now ↔ ke ∈ entriesOf st ∧ now <= expiresAt ke.2.
Proof.
  unfold validEntries. rewrite list_elem_of_filter, Z.leb_le. tauto.
Qed.

Lemma NoDup_valid_keys st now :
  NoDup (keysOf st) → NoDup (fst <$> validEntries st now).
Proof.
  intros Hnd. apply NoDup_entries_keys in Hnd.
  apply NoDup_fmap_2_strong.
  - intros x y [Hx _]%elem_validEntries [Hy _]%elem_validEntries.
    by apply (entries_functional st).
  - apply NoDup_filter. by apply NoDup_fmap_1 in Hnd.
Qed.

Lemma entry_not_garbage st ke : ke ∈ entriesOf st → ke.1 ∉ garbageKeys st.
Proof.
  intros [_ He]%elem_entriesOf. unfold garbageKeys.
  rewrite list_elem_of_filter. intros [Hg _].
  unfold entryAt in He. unfold garbageAt in Hg.
  by destruct (getItem st ke.1) as [[?|?]|].
Qed.

Lemma entry_expired_key st now ke :
  ke ∈ entriesOf st → ke.1 ∈ expiredKeys st now ↔ expiresAt ke.2 < now.
Proof.
  intros Hke. unfold expiredKeys. rewrite list_elem_of_fmap. split.
  - intros (ke' & Heq & [Hexp Hke']%list_elem_of_filter).
    rewrite (entries_functional _ _ _ Hke Hke' Heq). by apply Z.ltb_lt.
  - intros Hlt. exists ke. split; [done|].
    apply list_elem_of_filter. split; [by apply Z.ltb_lt|done].
Qed.

(** What [cleanup] leaves of the cache: the valid entries but the evicted
    ones. *)
Lemma entriesOf_cleanup st now aggressive :
  NoDup (keysOf st) →
  entriesOf (cleanup st now aggressive) =
  filter (λ ke, ke.1 ∉ evictedKeys st now aggressive) (validEntries st now).
Proof.
  intros Hnd. rewrite cleanup_spec, entriesOf_removeKeys by done.
  unfold validEntries. rewrite list_filter_filter.
  apply filter_ext_in. intros ke Hke.
  rewrite !not_elem_of_app, (entry_expired_key _ now _ Hke), Z.leb_le.
  pose proof (entry_not_garbage _ _ Hke). split; [intros (_ & ? & ?)|intros [? ?]].
  - split; [done|lia].
  - split_and!; [done|lia|done].
Qed.


(** How many of the oldest valid entries [cleanup] evicts. *)
Definition evictCount (valid : nat) (aggressive : bool) : nat :=
  if aggressive || (maxSize <? Z.of_nat valid) then
    Z.to_nat (if aggressive then Z.of_nat valid / 2 else Z.of_nat valid - maxSize)
  else 0%nat.

Lemma evictedKeys_take st now aggressive :
  evictedKeys st now aggressive =
  fst <$> take (evictCount (length (validEntries st now)) aggressive)
               (sort byTimestamp (validEntries st now)).
Proof.
  unfold evictedKeys, evictCount.
  by destruct (aggressive || (maxSize <? Z.of_nat (length (validEntries st now)))).
Qed.

Lemma entriesOf_cleanup_sorted st now aggressive :
  NoDup (keysOf st) →
  entriesOf (cleanup st now aggressive) ≡ₚ
  drop (evictCount (length (validEntries st now)) aggressive)
       (sort byTimestamp (validEntries st now)).
Proof.
  intros Hnd. rewrite entriesOf_cleanup, evictedKeys_take by done.
  set (n := evictCount (length (validEntries st now)) aggressive).
  set (sorted := sort byTimestamp (validEntries st now)).
  transitivity (filter (λ ke, ke.1 ∉ fst <$> take n sorted) sorted).
  - apply filter_Permutation. symmetry. apply sort_Permutation.
  - rewrite (filter_not_in_take fst sorted n); [done|].
    unfold sorted. rewrite sort_Permutation. by apply NoDup_valid_keys.
Qed.

Lemma evictCount_le n : (evictCount n false = n - 50)%nat.
Proof.
  unfold evictCount, maxSize. simpl.
  destruct (Z.ltb_spec 50 (Z.of_nat n)); lia.
Qed.

Lemma evictCount_aggressive n : (evictCount n true = n / 2)%nat.
Proof.
  unfold evictCount. cbn [orb].
  apply Nat2Z.inj. rewrite Nat2Z.inj_div, Z2Nat.id; [done|].
  apply Z.div_pos; lia.
Qed.

Lemma length_entriesOf_cleanup st now aggressive :
  NoDup (keysOf st) →
  length (entriesOf (cleanup st now aggressive)) =
  (length (validEntries st now)
   - evictCount (length (validEntries st now)) aggressive)%nat.
Proof.
  intros Hnd. rewrite (entriesOf_cleanup_sorted _ _ _ Hnd), length_drop.
  by rewrite sort_Permutation.
Qed.

Lemma validEntries_cleanup st now aggressive :
  NoDup (keysOf st) →
  validEntries (cleanup st now aggressive) now = entriesOf (cleanup st now aggressive).
Proof.
  intros Hnd. unfold validEntries at 1. apply filter_all.
  intros ke Hke. rewrite entriesOf_cleanup in Hke by done.
  apply list_elem_of_filter in Hke as [_ Hke].
  apply elem_validEntries in Hke as [_ Hke]. by apply Z.leb_le.
Qed.

Lemma NoDup_cleanup st now aggressive :
  NoDup (keysOf st) → NoDup (keysOf (cleanup st now aggressive)).
Proof. intros Hnd. rewrite cleanup_spec by done. by apply NoDup_removeKeys. Qed.

(** The evicted entries are the oldest: none is newer than an entry that
    stays. *)
Lemma cleanup_evicts_oldest st now aggressive kept evicted :
  NoDup (keysOf st) →
  kept ∈ entriesOf (cleanup st now aggressive) →
  evicted ∈ validEntries st now →
  evicted ∉ entriesOf (cleanup st now aggressive) →
  timestamp evicted.2 <= timestamp kept.2.
Proof.
  intros Hnd Hkept Hev Hnot.
  rewrite (entriesOf_cleanup_sorted _ _ _ Hnd) in Hkept, Hnot.
  rewrite <- (sort_Permutation byTimestamp) in Hev.
  pose proof (sort_sorted (λ ke : jsstring * PersistentCacheEntry A, timestamp ke.2)
                (validEntries st now)) as Hsorted.
  change (byKey _) with (@byTimestamp A) in Hsorted.
  set (n := evictCount (length (validEntries st now)) aggressive) in *.
  set (sorted := sort byTimestamp (validEntries st now)) in *.
  rewrite <- (take_drop n sorted) in Hev, Hsorted.
  apply elem_of_app in Hev as [Hev|Hev]; [|done].
  apply (StronglySorted_app_1_elem_of _ _ _ _ _ Hsorted Hev Hkept).
Qed.


(** *** The operations of the cache, and what every history preserves *)

Variable accepts : storage A → jsstring → item A → bool.

Inductive operation :=
| OpSet (now : Z) (key : jsstring) (d : A) (ttl : option Z) (tag : option jsstring)
| OpGet (now : Z) (key : jsstring)
| OpDelete (key : jsstring)
| OpClear.

Definition perform (ls : option (storage A)) (o : operation) : option (storage A) :=
  match o with
  | OpSet now key d ttl tag => set accepts ls now key d ttl tag
  | OpGet now key => (get ls now key).2
  | OpDelete key => delete ls key
  | OpClear => clear ls
  end.

(** A store with each key once and at most [maxSize] entries of the
    cache; a store the cache has not written to yet is one. *)
Definition bounded (ls : option (storage A)) : Prop :=
  match ls with
  | Some st => NoDup (keysOf st) ∧ (length (entriesOf st) ≤ 50)%nat
  | None => True
  end.

Lemma removeItem_removeKeys st k : removeItem st k = removeKeys st [k].
Proof. reflexivity. Qed.

Lemma bounded_removeKeys st ks :
  bounded (Some st) → bounded (Some (removeKeys st ks)).
Proof.
  intros [Hnd Hlen]. split; [by apply NoDup_removeKeys|].
  rewrite entriesOf_removeKeys.
  pose proof (length_filter (λ ke : jsstring * PersistentCacheEntry A, ke.1 ∉ ks)
                (entriesOf st)). lia.
Qed.

Lemma length_validEntries st now :
  (length (validEntries st now) ≤ length (entriesOf st))%nat.
Proof. apply length_filter. Qed.

Lemma bounded_cleanup st now aggressive :
  NoDup (keysOf st) →
  aggressive = false ∨ (length (entriesOf st) ≤ 50)%nat →
  bounded (Some (cleanup st now aggressive)).
Proof.
  intros Hnd Hcase. split; [by apply NoDup_cleanup|].
  rewrite length_entriesOf_cleanup by done.
  destruct Hcase as [->|Hlen].
  - rewrite evictCount_le. lia.
  - pose proof (length_validEntries st now). lia.
Qed.

Lemma bounded_set ls now key d ttl tag :
  bounded ls → bounded (set accepts ls now key d ttl tag).
Proof.
  destruct ls as [st|]; [|done]. intros [Hnd Hlen]. unfold set, setItem.
  destruct (accepts st _ _).
  - apply bounded_cleanup; [by apply NoDup_putItem|by left].
  - apply bounded_cleanup; [done|by right].
Qed.

Lemma bounded_delete ls key : bounded ls → bounded (delete ls key).
Proof.
  destruct ls as [st|]; [|done]. intros Hb. unfold delete.
  rewrite removeItem_removeKeys. by apply bounded_removeKeys.
Qed.

Lemma bounded_get ls now key : bounded ls → bounded (get ls now key).2.
Proof.
  destruct ls as [st|]; [|done]. intros Hb. unfold get.
  destruct (getItem st (getKey key)) as [v|]; [|done].
  destruct (itemTruthy v); [|done].
  destruct v as [e|text]; [|by apply bounded_delete].
  destruct (expiresAt e <? now); [by apply bounded_delete|done].
Qed.

Lemma bounded_clear ls : bounded ls → bounded (clear ls).
Proof.
  destruct ls as [st|]; [|done]. intros Hb. by apply bounded_removeKeys.
Qed.

Lemma bounded_perform ls o : bounded ls → bounded (perform ls o).
Proof.
  destruct o; simpl; auto using bounded_set, bounded_get, bounded_delete, bounded_clear.
Qed.

Lemma bounded_history ls ops : bounded ls → bounded (foldl perform ls ops).
Proof.
  revert ls. induction ops as [|o ops IH]; intros ls Hb; [done|].
  simpl. by apply IH, bounded_perform.
Qed.

End StoreFacts.

Section CacheClaims.

Import PersistentCache.

Context {A : Type}.
Variable accepts : storage A → jsstring → item A → bool.

Lemma get_hit_keeps_store (ls : option (storage A)) now key entry :
  (get ls now key).1 = Some entry → (get ls now key).2 = ls.
Proof.
  destruct ls as [st|]; [|done]. unfold get.
  destruct (getItem st (getKey key)) as [v|]; [|done].
  destruct (itemTruthy v); [|done].
  destruct v as [e|text]; [|done].
  by destruct (expiresAt e <? now).
Qed.

Lemma set_accepted (st : storage A) now key d ttl tag :
  accepts st (getKey key)
    (Json {| data := d; timestamp := now; etag := tag;
             expiresAt := now + default defaultTTL ttl |}) = true →
  set accepts (Some st) now key d ttl tag =
  Some (cleanup (putItem st (getKey key)
                   (Json {| data := d; timestamp := now; etag := tag;
                            expiresAt := now + default defaultTTL ttl |}))
          now false).
Proof. intros Hacc. unfold set, setItem. by rewrite Hacc. Qed.

End CacheClaims.

(** C8.  A [set] whose write the store takes leaves no expired entry and
    at most 50 valid ones: when more than 50 are valid after the write,
    exactly 50 stay, and no entry that goes is newer, by its write time,
    than one that stays.  After any history of the cache's operations on a
    store that began within the bound, every [set], taken or refused by the
    store, leaves at most 50 valid entries.  A [get] that finds an entry
    leaves the store as it is, so reading an entry does not renew it. *)
Theorem set_keeps_at_most_50 {A : Type}
    (accepts : PersistentCache.storage A → jsstring → PersistentCache.item A → bool) :
  (∀ (st : PersistentCache.storage A) now key d ttl tag,
     let entry :=
       {| PersistentCache.data := d; PersistentCache.timestamp := now;
          PersistentCache.etag := tag;
          PersistentCache.expiresAt := now + default PersistentCache.defaultTTL ttl |} in
     let written :=
       PersistentCache.putItem st (PersistentCache.getKey key) (PersistentCache.Json entry) in
     NoDup (PersistentCache.keysOf st) →
     accepts st (PersistentCache.getKey key) (PersistentCache.Json entry) = true →
     ∃ st', PersistentCache.set accepts (Some st) now key d ttl tag = Some st'
       ∧ validEntries st' now = entriesOf st'
       ∧ Z.of_nat (length (validEntries st' now))
         = Z.min (Z.of_nat (length (validEntries written now))) PersistentCache.maxSize
       ∧ ∀ kept evicted,
           kept ∈ validEntries st' now →
           evicted ∈ validEntries written now →
           evicted ∉ validEntries st' now →
           PersistentCache.timestamp evicted.2 <= PersistentCache.timestamp kept.2)
  ∧ (∀ ls0 ops now key d ttl tag st',
       bounded ls0 →
       PersistentCache.set accepts (foldl (perform accepts) ls0 ops) now key d ttl tag
         = Some st' →
       Z.of_nat (length (validEntries st' now)) <= PersistentCache.maxSize)
  ∧ (∀ (ls : option (PersistentCache.storage A)) now key entry,
       (PersistentCache.get ls now key).1 = Some entry →
       (PersistentCache.get ls now key).2 = ls).
Proof.
  split; [|split].
  - intros st now key d ttl tag entry written Hnd Hacc.
    assert (Hw : NoDup (PersistentCache.keysOf written)) by (by apply NoDup_putItem).
    eexists. split; [by apply set_accepted|].
    rewrite (validEntries_cleanup _ _ _ Hw). split; [done|]. split.
    + rewrite (length_entriesOf_cleanup _ _ _ Hw), evictCount_le.
      unfold PersistentCache.maxSize. lia.
    + intros kept evicted. by apply cleanup_evicts_oldest.
  - intros ls0 ops now key d ttl tag st' Hb Hset.
    pose proof (bounded_set accepts _ now key d ttl tag (bounded_history accepts _ ops Hb))
      as Hb'.
    rewrite Hset in Hb'. destruct Hb' as [_ Hlen].
    pose proof (length_validEntries st' now). unfold PersistentCache.maxSize. lia.
  - intros ls now key entry. apply get_hit_keeps_store.
Qed.

Section Survival.

Import PersistentCache.

Context {A : Type}.
Implicit Types (st : storage A) (e : PersistentCacheEntry A).

Lemma getKey_cacheKey st key v :
  getKey key ∈ cacheKeys (putItem st (getKey key) v).
Proof.
  unfold cacheKeys. apply list_elem_of_filter. split.
  - apply startsWith_app.
  - rewrite keysOf_putItem. case_decide; [done|].
    apply elem_of_app. right. by left.
Qed.

Lemma written_entry st key e :
  (getKey key, e) ∈ entriesOf (putItem st (getKey key) (Json e)).
Proof.
  apply elem_entriesOf. split; [apply getKey_cacheKey|].
  unfold entryAt. simpl. by rewrite getItem_putItem, decide_True.
Qed.

Lemma other_entry st k v ke :
  ke ∈ entriesOf (putItem st k v) → ke.1 ≠ k → ke ∈ entriesOf st.
Proof.
  rewrite !elem_entriesOf. intros [Hk He] Hne. split.
  - unfold cacheKeys in *. apply list_elem_of_filter in Hk as [Hp Hk].
    apply list_elem_of_filter. split; [done|].
    rewrite keysOf_putItem in Hk. case_decide; [done|].
    apply elem_of_app in Hk as [Hk|Hk]; [done|].
    by apply list_elem_of_singleton in Hk.
  - unfold entryAt in *. by rewrite getItem_putItem, decide_False in He.
Qed.

(** The entry just written stays through the cleanup of its [set] when it
    has not expired at once and every other valid entry was written
    before it. *)
Lemma written_entry_survives st now key e :
  NoDup (keysOf st) →
  timestamp e = now → now <= expiresAt e →
  (∀ ke, ke ∈ validEntries st now → ke.1 ≠ getKey key → timestamp ke.2 < now) →
  getItem (cleanup (putItem st (getKey key) (Json e)) now false) (getKey key)
  = Some (Json e).
Proof.
  intros Hnd Hts Hexp Holder.
  set (written := putItem st (getKey key) (Json e)).
  assert (Hw : NoDup (keysOf written)) by (by apply NoDup_putItem).
  assert (Hnew : (getKey key, e) ∈ entriesOf written) by apply written_entry.
  assert (Hvalid : (getKey key, e) ∈ validEntries written now)
    by (by apply elem_validEntries).
  rewrite cleanup_spec, getItem_removeKeys by done.
  rewrite decide_False.
  { unfold written. by rewrite getItem_putItem, decide_True. }
  rewrite !elem_of_app. intros [Hg|[Hx|Hev]].
  - by apply (entry_not_garbage _ _ Hnew).
  - apply (entry_expired_key _ now _ Hnew) in Hx. simpl in Hx. lia.
  - rewrite evictedKeys_take, evictCount_le in Hev.
    set (sorted := sort byTimestamp (validEntries written now)) in *.
    set (n := (length (validEntries written now) - 50)%nat) in *.
    assert (Hperm : sorted ≡ₚ validEntries written now) by apply sort_Permutation.
    apply list_elem_of_fmap in Hev as (x & Hx1 & Hx).
    assert (x = (getKey key, e)) as ->.
    { apply (entries_functional written); [|done|done].
      apply elem_of_take in Hx as (i & Hi & _). apply list_elem_of_lookup_2 in Hi.
      rewrite Hperm in Hi. by apply elem_validEntries in Hi as [? _]. }
    assert (Hlen : (n < length sorted)%nat).
    { rewrite Hperm. apply list_elem_of_lookup in Hvalid as [i Hi].
      apply lookup_lt_Some in Hi. unfold n. lia. }
    destruct (lookup_lt_is_Some_2 sorted n Hlen) as [y Hy].
    assert (Hy' : y ∈ drop n sorted).
    { apply list_elem_of_lookup. exists 0%nat. by rewrite lookup_drop, Nat.add_0_r. }
    pose proof (sort_sorted (λ ke : jsstring * PersistentCacheEntry A, timestamp ke.2)
                  (validEntries written now)) as Hsorted.
    change (byKey _) with (@byTimestamp A) in Hsorted. fold sorted in Hsorted.
    assert (Hnd' : NoDup (fst <$> sorted))
      by (rewrite Hperm; by apply NoDup_valid_keys).
    rewrite <- (take_drop n sorted) in Hsorted, Hnd'.
    pose proof (StronglySorted_app_1_elem_of _ _ _ _ _ Hsorted Hx Hy') as Hle.
    unfold keyLe in Hle. simpl in Hle.
    rewrite fmap_app in Hnd'. apply NoDup_app in Hnd' as (_ & Hdisj & _).
    assert (Hyk : y.1 ≠ getKey key).
    { intros Heq. apply (Hdisj (getKey key)).
      - by apply (list_elem_of_fmap_2 fst) in Hx.
      - rewrite <- Heq. by apply list_elem_of_fmap_2. }
    assert (Hyv : y ∈ validEntries written now).
    { rewrite <- Hperm. apply list_elem_of_lookup_2 in Hy. done. }
    apply elem_validEntries in Hyv as [Hye Hyexp].
    apply other_entry in Hye; [|done].
    specialize (Holder y (proj2 (elem_validEntries _ _ _) (conj Hye Hyexp)) Hyk).
    lia.
Qed.

End Survival.

(** C7, as the code has it.  An entry written by [set] with a TTL [T >= 0]
    at the time [w], into a store whose other valid entries were written
    before [w], is returned by [get] at every time up to and including
    [w + T], the store staying as it is; at every later time [get] returns
    [null] and deletes the entry, which is then gone. *)
Theorem persistent_get_after_set {A : Type}
    (accepts : PersistentCache.storage A → jsstring → PersistentCache.item A → bool)
    (st : PersistentCache.storage A) (w T t : Z) (key : jsstring) (d : A)
    (tag : option jsstring) :
  let entry :=
    {| PersistentCache.data := d; PersistentCache.timestamp := w;
       PersistentCache.etag := tag; PersistentCache.expiresAt := w + T |} in
  let ls := PersistentCache.set accepts (Some st) w key d (Some T) tag in
  NoDup (PersistentCache.keysOf st) →
  accepts st (PersistentCache.getKey key) (PersistentCache.Json entry) = true →
  0 <= T →
  (∀ ke, ke ∈ validEntries st w → ke.1 ≠ PersistentCache.getKey key →
         PersistentCache.timestamp ke.2 < w) →
  PersistentCache.get ls t key
    = (if bool_decide (t <= w + T) then (Some entry, ls)
       else (None, PersistentCache.delete ls key))
  ∧ ∀ t', PersistentCache.get (PersistentCache.delete ls key) t' key
          = (None, PersistentCache.delete ls key).
Proof.
  intros entry ls Hnd Hacc HT Holder.
  assert (Hls : ls = Some (PersistentCache.cleanup
                             (PersistentCache.putItem st (PersistentCache.getKey key)
                                (PersistentCache.Json entry)) w false))
    by (by apply set_accepted).
  assert (Hget : PersistentCache.getItem
                   (PersistentCache.cleanup
                      (PersistentCache.putItem st (PersistentCache.getKey key)
                         (PersistentCache.Json entry)) w false)
                   (PersistentCache.getKey key)
                 = Some (PersistentCache.Json entry)).
  { apply written_entry_survives; try done. simpl. lia. }
  rewrite Hls. split.
  - unfold PersistentCache.get. rewrite Hget. simpl.
    destruct (Z.ltb_spec (w + T) t).
    + by rewrite bool_decide_eq_false_2 by lia.
    + by rewrite bool_decide_eq_true_2 by lia.
  - intros t'. unfold PersistentCache.get, PersistentCache.delete.
    by rewrite getItem_removeItem, decide_True.
Qed.

Lemma persistent_get_after_set_witness :
  PersistentCache.get
    (PersistentCache.set (λ _ _ _, true) (Some []) 1000 (js "api:/posts") 7%nat
       (Some 500) None)
    1200 (js "api:/posts")
  = (Some {| PersistentCache.data := 7%nat; PersistentCache.timestamp := 1000;
             PersistentCache.etag := None; PersistentCache.expiresAt := 1500 |},
     PersistentCache.set (λ _ _ _, true) (Some []) 1000 (js "api:/posts") 7%nat
       (Some 500) None).
Proof.
  refine (proj1 (persistent_get_after_set (λ _ _ _, true) [] 1000 500 1200
                   (js "api:/posts") 7%nat None _ eq_refl _ _)).
  - constructor.
  - lia.
  - intros ke Hke. by apply elem_of_nil in Hke.
Defined.

(** C7, as stated, fails at the boundary: at the time [expiresAt] itself,
    which is not before it, [get] still returns the entry. *)
Lemma persistent_get_at_expiry :
  (PersistentCache.get
     (PersistentCache.set (λ _ _ _, true) (Some []) 1000 (js "api:/posts") 7%nat
        (Some 500) None)
     1500 (js "api:/posts")).1
  = Some {| PersistentCache.data := 7%nat; PersistentCache.timestamp := 1000;
            PersistentCache.etag := None; PersistentCache.expiresAt := 1500 |}
  ∧ ¬ (1500 < 1000 + 500).
Proof. split; [reflexivity|lia]. Qed.

(** A store of 51 entries, written at the times 0 to 50 and valid until
    the time 1000. *)
Definition exampleStore : PersistentCache.storage nat :=
  (λ i : nat,
     (PersistentCache.getKey (replicate i 97%N),
      PersistentCache.Json
        {| PersistentCache.data := i; PersistentCache.timestamp := Z.of_nat i;
           PersistentCache.etag := None; PersistentCache.expiresAt := 1000 |}))
    <$> seq 0 51.

Lemma set_keeps_at_most_50_witness :
  ∃ st', PersistentCache.set (λ _ _ _, true) (Some exampleStore) 100 (js "new") 0%nat
           None None = Some st'
    ∧ Z.of_nat (length (validEntries st' 100)) = 50.
Proof.
  destruct (proj1 (set_keeps_at_most_50 (λ _ _ _, true))
              exampleStore 100 (js "new") 0%nat None None)
    as (st' & Hset & _ & Hlen & _).
  - by compute_done.
  - reflexivity.
  - exists st'. split; [exact Hset|]. rewrite Hlen. reflexivity.
Defined.

Example exampleStore_evicts_oldest :
  match PersistentCache.set (λ _ _ _, true) (Some exampleStore) 100 (js "new") 0%nat
          None None with
  | Some st' =>
      (PersistentCache.timestamp ∘ snd) <$> entriesOf st' = Z.of_nat <$> seq 2 49 ++ [100%nat]
  | None => False
  end.
Proof. vm_compute. reflexivity. Qed.

(** Why C7 asks that the other entries be older: when the store already
    holds its fill of entries written at or after the time of the write
    (the clock was set back), the cleanup of the [set] evicts the entry it
    has just written. *)
Example written_entry_evicted_at_once :
  (PersistentCache.get
     (PersistentCache.set (λ _ _ _, true) (Some exampleStore) 0 (js "new") 0%nat
        (Some 500) None)
     0 (js "new")).1 = None.
Proof. vm_compute. reflexivity. Qed.

(** ** Sorting a listing of well-formed names *)

Section SortedListing.

Context {B : Type}.

Lemma sortInsert_ext_in (cmp cmp' : B → B → option Z) x l :
  (∀ y, y ∈ l → cmp x y = cmp' x y) → sortInsert cmp x l = sortInsert cmp' x l.
Proof.
  induction l as [|y l IH]; intros Hext; [done|].
  simpl. unfold sortCompare. rewrite (Hext y) by (by left).
  rewrite IH; [done|]. intros z Hz. apply Hext. by right.
Qed.

Lemma sort_ext_in (cmp cmp' : B → B → option Z) l :
  (∀ a b, a ∈ l → b ∈ l → cmp a b = cmp' a b) → sort cmp l = sort cmp' l.
Proof.
  induction l as [|x l IH]; intros Hext; [done|].
  change (sort ?c (x :: l)) with (sortInsert c x (sort c l)).
  rewrite IH by (intros a b Ha Hb; apply Hext; by right).
  apply sortInsert_ext_in. intros y Hy. rewrite sort_Permutation in Hy.
  apply Hext; [by left|by right].
Qed.

Variable key : B → Z.

(** Stability: among the elements of one key, the order of the input. *)
Lemma sortInsert_stable k x l :
  filter (λ y, key y = k) (sortInsert (byKey key) x l)
  = filter (λ y, key y = k) (x :: l).
Proof.
  induction l as [|y l IH]; [done|].
  simpl. unfold sortCompare, byKey at 1. simpl.
  destruct (Z.ltb_spec 0 (key x - key y)) as [Hlt|Hle]; [|done].
  rewrite filter_cons, IH, !filter_cons.
  destruct (decide (key y = k)), (decide (key x = k)); try done. lia.
Qed.

Lemma sort_stable k l :
  filter (λ y, key y = k) (sort (byKey key) l) = filter (λ y, key y = k) l.
Proof.
  induction l as [|x l IH]; [done|].
  change (sort ?c (x :: l)) with (sortInsert c x (sort c l)).
  by rewrite sortInsert_stable, !filter_cons, IH.
Qed.

End SortedListing.

Lemma StronglySorted_mono {B} (R R' : B → B → Prop) (l : list B) :
  (∀ a b, R a b → R' a b) → StronglySorted R l → StronglySorted R' l.
Proof.
  intros HR H. induction H as [|a l _ IH Hall]; constructor; [done|].
  eapply Forall_impl; [exact Hall|]. apply HR.
Qed.

(** On names that all carry a valid timestamp the sort of the listing is
    what C2 says: a rearrangement of the names, newest first, names of one
    timestamp in their listing order. *)
Lemma sort_dated_names (localeCompare : jsstring → jsstring → Z)
    (time : jsstring → Z) (names : list jsstring) :
  (∀ a, a ∈ names →
        extractDateFromFileName a = Some {| getTime := Some (time a) |}) →
  let sorted := sort (Listing.compareNames localeCompare) names in
  sorted ≡ₚ names
  ∧ StronglySorted (λ a b, time b <= time a) sorted
  ∧ ∀ t, filter (λ a, time a = t) sorted = filter (λ a, time a = t) names.
Proof.
  intros Hdated sorted.
  assert (Hs : sorted = sort (byKey (λ a, - time a)) names).
  { apply sort_ext_in. intros a b Ha Hb.
    rewrite (compareNames_dated _ a b (time a) (time b)) by auto.
    unfold byKey. f_equal. lia. }
  split; [apply sort_Permutation|]. rewrite Hs. split.
  - eapply StronglySorted_mono; [|apply (sort_sorted (λ a, - time a))].
    unfold keyLe. intros a b Hab. simpl in Hab. lia.
  - intros t.
    rewrite (list_filter_iff (λ a, time a = t) (λ a, - time a = - t))
      by (intros a; lia).
    rewrite (list_filter_iff (λ a, time a = t) (λ a, - time a = - t) names)
      by (intros a; lia).
    apply (sort_stable (λ a, - time a)).
Qed.

(** On names of which none has the prefix, the sort is the one by the
    reverse comparison of the names. *)
Lemma sort_undated_names (localeCompare : jsstring → jsstring → Z)
    (names : list jsstring) :
  (∀ a, a ∈ names → extractDateFromFileName a = None) →
  sort (Listing.compareNames localeCompare) names
  = sort (λ a b, Some (localeCompare b a)) names.
Proof.
  intros Hnone. apply sort_ext_in. intros a b Ha Hb.
  apply compareNames_fallback. left. by apply Hnone.
Qed.

(** * Further properties of the code *)

(** ** The parser: decoding, preview, attachments, file-name dates *)

Section MoreDecoding.

Lemma matchAt_entityRe_not_amp c s :
  c ≠ 38%N → matchAt entityRe (c :: s) = None.
Proof.
  intros Hc. rewrite matchAt_entityRe. unfold isChar.
  by rewrite (proj2 (N.eqb_neq 38 c)) by congruence.
Qed.

Lemma decodeText_length d b :
  (length (decodeText (38%N :: d :: b ++ [59%N])) ≤ length (38%N :: d :: b ++ [59%N]))%nat.
Proof.
  destruct (decodeText_cases (38%N :: d :: b ++ [59%N])) as [->|(ch & -> & _)]; [done|].
  simpl. lia.
Qed.

Lemma decode_length_aux n : ∀ text,
  (length text ≤ n)%nat →
  (length (decodeHtmlEntities text) ≤ length text)%nat.
Proof.
  induction n as [|n IH]; intros text Hn.
  { destruct text; [done|simpl in Hn; lia]. }
  destruct text as [|c s]; [done|].
  destruct (matchAt entityRe (c :: s)) as [m|] eqn:E.
  - destruct (matchAt_entity_inv _ _ E) as (d & b & Hb & Hs & Hm).
    rewrite Hs, (decode_match _ _ _ Hb), length_app.
    pose proof (decodeText_length d b) as Hd.
    assert (Hr : (length (rest m) ≤ n)%nat).
    { apply (f_equal length) in Hs. simpl in Hs, Hn.
      rewrite length_app in Hs. simpl in Hs. lia. }
    specialize (IH _ Hr). simpl in *. rewrite !length_app in *. simpl in *. lia.
  - rewrite (decode_nomatch _ _ E). simpl in *. specialize (IH s ltac:(lia)). lia.
Qed.

End MoreDecoding.

(** X1 ([decodeHtmlEntities]). A text that holds no ampersand (code unit
    38) is returned unchanged: the pattern [/&[a-zA-Z0-9#]+;/] can only
    match at an ampersand. *)
Theorem decodeHtmlEntities_without_ampersand (text : jsstring) :
  38%N ∉ text → decodeHtmlEntities text = text.
Proof.
  induction text as [|c s IH]; intros Hno; [done|].
  apply not_elem_of_cons in Hno as [Hc Hs].
  rewrite decode_nomatch by (apply matchAt_entityRe_not_amp; congruence).
  by rewrite IH.
Qed.

Lemma decodeHtmlEntities_without_ampersand_witness :
  decodeHtmlEntities (js "caf; #39 lt; no entity here") = js "caf; #39 lt; no entity here".
Proof.
  apply (decodeHtmlEntities_without_ampersand (js "caf; #39 lt; no entity here")).
  vm_compute. by apply (bool_decide_unpack (38%N ∉ _)).
Defined.

(** X2 ([decodeHtmlEntities]). Decoding never makes a text longer, counted
    in UTF-16 code units: every entity of the table is replaced by one code
    unit, and everything else is copied. *)
Theorem decodeHtmlEntities_never_longer (text : jsstring) :
  (length (decodeHtmlEntities text) ≤ length text)%nat.
Proof. by apply (decode_length_aux (length text)). Qed.

(** X3 ([extractContentPreview]). The preview is never the empty string:
    when nothing is left of the body the fixed message takes its place. *)
Theorem extractContentPreview_never_empty (content : jsstring) :
  extractContentPreview content ≠ [].
Proof.
  unfold extractContentPreview. rewrite truncatePreview_shape.
  destruct (bool_decide _).
  - intros H. apply (f_equal length) in H. rewrite length_app in H.
    change (length ellipsis) with 3%nat in H. change (length []) with 0%nat in H.
    lia.
  - case_bool_decide; [done|done].
Qed.

Section ParseOutcome.

Lemma firstMissing_None data fields :
  firstMissing data fields = None ↔
  ∀ f, f ∈ fields → truthy (getField data f) = true.
Proof.
  induction fields as [|g fields IH]; simpl.
  - split; [|done]. intros _ f Hf. by apply elem_of_nil in Hf.
  - destruct (truthy (getField data g)) eqn:Hg.
    + rewrite IH. split.
      * intros H f Hf. apply elem_of_cons in Hf as [->|Hf]; [done|by apply H].
      * intros H f Hf. apply H. by right.
    + split; [done|]. intros H. rewrite (H g) in Hg; [done|by left].
Qed.

(** The three fields that are decoded have to be strings: on any other
    value the call of [replace] throws. *)
Definition isString (v : value) : Prop := ∃ s, v = VStr s.

Lemma decodeValue_Some v : is_Some (decodeValue v) ↔ isString v.
Proof.
  unfold isString. destruct v; simpl; split; intros [x Hx]; try done; by eexists.
Qed.

Lemma orElse_truthy a b : truthy a = true → orElse a b = a.
Proof. intros H. unfold orElse. by rewrite H. Qed.

(** The fields that go through [decodeHtmlEntities]. *)
Definition decodedFields : list jsstring := [js "title"; js "author"; js "feedName"].

End ParseOutcome.

(** X4 ([parseMDXContent]). The parser gives a post exactly when gray-matter
    returns, the five required fields are truthy and the three decoded
    fields (title, author, feedName) are strings.  A post comes with no
    console output, [null] with exactly one line; the post carries the
    file name and path it was given and the reactions of its metadata as
    [engagement.totalReactions]. *)
Theorem parseMDXContent_outcome
    (matter : jsstring → option (gmap jsstring value * jsstring))
    (isoNow content fileName path : jsstring) :
  let result := parseMDXContent matter isoNow content fileName path in
  (is_Some result.1 ↔
     ∃ data body,
       matter (decodeHtmlEntities content) = Some (data, body)
       ∧ (∀ f, f ∈ requiredFields → truthy (getField data f) = true)
       ∧ (∀ f, f ∈ decodedFields → isString (getField data f)))
  ∧ (is_Some result.1 → result.2 = [])
  ∧ (result.1 = None → ∃ line, result.2 = [line])
  ∧ (∀ post, result.1 = Some post →
       Parser.fileName post = fileName ∧ Parser.path post = path
       ∧ totalReactions post = reactions (metadata post)).
Proof.
  intros result. subst result. unfold parseMDXContent.
  destruct (matter (decodeHtmlEntities content)) as [[data body]|] eqn:Hm.
  2:{ simpl. split_and!.
      - split; [by intros [? ?]|]. by intros (? & ? & ? & _).
      - by intros [? ?].
      - intros _. by eexists.
      - done. }
  destruct (firstMissing data requiredFields) as [f|] eqn:Hf.
  { simpl. split_and!.
    - split; [by intros [? ?]|]. intros (d & b & [= <- <-] & Hreq & _).
      apply firstMissing_None in Hreq. congruence.
    - by intros [? ?].
    - intros _. by eexists.
    - done. }
  pose proof (proj1 (firstMissing_None _ _) Hf) as Hreq.
  assert (Ht : truthy (getField data (js "title")) = true)
    by (apply Hreq; compute_done).
  assert (Ha : truthy (getField data (js "author")) = true)
    by (apply Hreq; compute_done).
  assert (Hn : truthy (getField data (js "feedName")) = true)
    by (apply Hreq; compute_done).
  rewrite !orElse_truthy by done.
  destruct (decodeValue (getField data (js "title"))) as [t|] eqn:Et;
    [destruct (decodeValue (getField data (js "author"))) as [a|] eqn:Ea;
       [destruct (decodeValue (getField data (js "feedName"))) as [n|] eqn:En|]|].
  - simpl. split_and!; try done.
    + split; [|by eexists]. intros _. exists data, body. split_and!; [done..|].
      intros f Hfd. unfold decodedFields in Hfd.
      repeat (apply elem_of_cons in Hfd as [->|Hfd];
              [apply decodeValue_Some; by eexists|]).
      by apply elem_of_nil in Hfd.
    + by intros post [= <-].
  - simpl.
    split_and!; [split; [by intros [? ?]|] |by intros [? ?] |intros _; by eexists |done].
    intros (d & b & [= <- <-] & _ & Hstr).
    assert (Hs : is_Some (decodeValue (getField data (js "feedName"))))
      by (apply decodeValue_Some, Hstr; compute_done).
    destruct Hs as [? Hs]. congruence.
  - simpl.
    split_and!; [split; [by intros [? ?]|] |by intros [? ?] |intros _; by eexists |done].
    intros (d & b & [= <- <-] & _ & Hstr).
    assert (Hs : is_Some (decodeValue (getField data (js "author"))))
      by (apply decodeValue_Some, Hstr; compute_done).
    destruct Hs as [? Hs]. congruence.
  - simpl.
    split_and!; [split; [by intros [? ?]|] |by intros [? ?] |intros _; by eexists |done].
    intros (d & b & [= <- <-] & _ & Hstr).
    assert (Hs : is_Some (decodeValue (getField data (js "title"))))
      by (apply decodeValue_Some, Hstr; compute_done).
    destruct Hs as [? Hs]. congruence.
Qed.

(** X5 ([parseMDXContent]). The result does not depend on the clock: the
    default [new Date().toISOString()] of the date stands behind the check
    of the required fields, which has already returned when the date is
    falsy. *)
Theorem parseMDXContent_ignores_clock
    (matter : jsstring → option (gmap jsstring value * jsstring))
    (isoNow isoLater content fileName path : jsstring) :
  parseMDXContent matter isoNow content fileName path
  = parseMDXContent matter isoLater content fileName path.
Proof.
  unfold parseMDXContent.
  destruct (matter (decodeHtmlEntities content)) as [[data body]|]; [|done].
  destruct (firstMissing data requiredFields) eqn:Hf; [done|].
  assert (Hd : truthy (getField data (js "date")) = true).
  { apply (proj1 (firstMissing_None _ _) Hf). compute_done. }
  by rewrite !(orElse_truthy (getField data (js "date"))) by done.
Qed.

Section Literals.

Implicit Types (caps : list jsstring) (s p : jsstring)
  (k : list jsstring → jsstring → option mresult).

Lemma rmatch_Lit p caps s k :
  rmatch (Lit p) caps s k =
  if startsWith s p then k caps (drop (length p) s) else None.
Proof.
  revert s. induction p as [|a p IH]; intros s.
  - by destruct s.
  - change (Lit (a :: p)) with (Seq (Chr (isChar a)) (Lit p)).
    rewrite rmatch_Seq, rmatch_Chr. destruct s as [|b s]; [done|].
    simpl. unfold isChar. destruct (a =? b)%N; [|done]. apply IH.
Qed.

Lemma matchAt_Lit_None p r s :
  startsWith s p = false → matchAt (Seq (Lit p) r) s = None.
Proof.
  intros H. unfold matchAt. by rewrite rmatch_Seq, rmatch_Lit, H.
Qed.

Lemma includes_cons_false c s p :
  includes (c :: s) p = false → startsWith (c :: s) p = false ∧ includes s p = false.
Proof. cbn [includes]. apply orb_false_elim. Qed.

Lemma includes_nil_false p : includes [] p = false → startsWith [] p = false.
Proof. cbn [includes]. intros H. by apply orb_false_elim in H as [? _]. Qed.

Lemma matchAllFrom_none p r s n :
  includes s p = false → matchAllFrom (Seq (Lit p) r) n s = [].
Proof.
  revert n. induction s as [|c s IH]; intros n H.
  - cbn [matchAllFrom]. destruct n; [|done].
    by rewrite matchAt_Lit_None by (by apply includes_nil_false).
  - apply includes_cons_false in H as [Hs Hi]. cbn [matchAllFrom].
    destruct n; [|by apply IH].
    rewrite matchAt_Lit_None by done. by apply IH.
Qed.

End Literals.

(** X6 ([parseAttachments]). A body in which the text [### Attachment ]
    does not occur has no attachments. *)
Theorem parseAttachments_without_heading (content : jsstring) :
  includes content (js "### Attachment ") = false →
  parseAttachments content = [].
Proof.
  intros H. unfold parseAttachments, matchAll, attachmentSectionRegex.
  by rewrite (matchAllFrom_none _ _ _ _ H).
Qed.

Lemma parseAttachments_without_heading_witness :
  parseAttachments (js "Just some text, with ### and Attachment apart.") = [].
Proof.
  apply (parseAttachments_without_heading
           (js "Just some text, with ### and Attachment apart.")).
  reflexivity.
Defined.

Section Sections.

Definition typePrefix : jsstring := js "- **Type:**".

(** What a line says about the type, if it is a type line with one of the
    three known types. *)
Definition lineType (line : jsstring) : option attachmentType :=
  if startsWith (trim line) typePrefix
  then attachmentTypeOf (trim (removeFirst (trim line) typePrefix))
  else None.

Lemma parseAttachmentLine_ptype a line :
  ptype (parseAttachmentLine a line) =
  match lineType line with
  | Some t => Some t
  | None => ptype a
  end.
Proof.
  unfold parseAttachmentLine, lineType. fold typePrefix.
  destruct (startsWith (trim line) typePrefix).
  - by destruct (attachmentTypeOf _).
  - repeat (destruct (startsWith (trim line) _); [done|]). done.
Qed.

Lemma foldl_ptype lines a t :
  ptype (foldl parseAttachmentLine a lines) = Some t →
  ptype a = Some t ∨ ∃ line, line ∈ lines ∧ lineType line = Some t.
Proof.
  revert a. induction lines as [|line lines IH]; intros a H; [by left|].
  simpl in H. apply IH in H as [H|(l & Hl & Ht)].
  - rewrite parseAttachmentLine_ptype in H.
    destruct (lineType line) as [t'|] eqn:E; [|by left].
    right. exists line. split; [by left|congruence].
  - right. exists l. split; [by right|done].
Qed.

End Sections.

(** X7 ([parseAttachmentSection]). A section gives an attachment only when
    one of its lines, trimmed, starts with [- **Type:**] and names one of
    photo, video and link; the attachment has the type of such a line. *)
Theorem parseAttachmentSection_needs_type (content : jsstring) (a : PostAttachment) :
  parseAttachmentSection content = Some a →
  ∃ line, line ∈ split content [nl] ∧ lineType line = Some (type a).
Proof.
  unfold parseAttachmentSection.
  destruct (ptype _) as [t|] eqn:E; [|done]. intros [= <-]. simpl.
  apply foldl_ptype in E as [E|(line & Hl & Ht)]; [done|].
  exists line. split; [|done]. by apply list_elem_of_filter in Hl as [_ Hl].
Qed.

Lemma parseAttachmentSection_needs_type_witness :
  ∃ line,
    line ∈ split (js "- **Type:** video" ++ [nl] ++ js "- **URL:** https://e.org/v") [nl]
    ∧ lineType line = Some video.
Proof.
  apply (parseAttachmentSection_needs_type
           (js "- **Type:** video" ++ [nl] ++ js "- **URL:** https://e.org/v")
           {| type := video; description := None;
              url := Some (js "https://e.org/v"); image := None |}).
  reflexivity.
Defined.

Section FixedWidth.

Implicit Types (caps : list jsstring) (s : jsstring)
  (k : list jsstring → jsstring → option mresult).

Lemma rmatch_Rep n p caps s k :
  rmatch (Rep n p) caps s k =
  if (n <=? length s)%nat && forallb p (take n s) then k caps (drop n s) else None.
Proof.
  revert s. induction n as [|n IH]; intros s; [by destruct s; unfold Rep; simpl|].
  change (Rep (S n) p) with (Seq (Chr p) (Rep n p)).
  rewrite rmatch_Seq, rmatch_Chr. destruct s as [|c s]; [done|].
  simpl. destruct (p c); simpl; [apply IH|by rewrite andb_false_r].
Qed.

Lemma rmatch_Group r caps s k :
  rmatch (Group r) caps s k =
  rmatch r caps s (λ caps' s', k (caps' ++ [take (length s - length s') s]) s').
Proof. reflexivity. Qed.

Lemma rmatch_Group_Rep n p caps s k :
  rmatch (Group (Rep n p)) caps s k =
  if (n <=? length s)%nat && forallb p (take n s)
  then k (caps ++ [take n s]) (drop n s) else None.
Proof.
  rewrite rmatch_Group, rmatch_Rep.
  destruct (Nat.leb_spec n (length s)); [|done]. simpl.
  destruct (forallb p (take n s)); [|done].
  replace (length s - length (drop n s))%nat with n by (rewrite length_drop; lia).
  done.
Qed.

End FixedWidth.

Section FileNameDate.

(** The shape of the prefix: four digits, a hyphen, two digits, and so on. *)
Definition datePrefixClasses : list (N → bool) :=
  [isDigit; isDigit; isDigit; isDigit; isChar 45; isDigit; isDigit; isChar 45;
   isDigit; isDigit; isChar 95; isDigit; isDigit; isChar 45; isDigit; isDigit;
   isChar 45; isDigit; isDigit].

Fixpoint matchesClasses (classes : list (N → bool)) (s : jsstring) : bool :=
  match classes, s with
  | [], _ => true
  | _ :: _, [] => false
  | p :: classes', c :: s' => p c && matchesClasses classes' s'
  end.

Definition hasDatePrefix (name : jsstring) : bool :=
  matchesClasses datePrefixClasses name.

(** The number written in [len] code units from the offset [off]. *)
Definition numberAt (off len : nat) (name : jsstring) : Z :=
  parseDigits (take len (drop off name)).

#[local] Arguments isDigit : simpl never.
#[local] Arguments isChar : simpl never.

Lemma matchAt_fileNameDateRe name :
  matchAt fileNameDateRe name =
  if hasDatePrefix name then
    Some {| matched := take 19 name;
            groups := [take 4 name; take 2 (drop 5 name); take 2 (drop 8 name);
                       take 2 (drop 11 name); take 2 (drop 14 name);
                       take 2 (drop 17 name)];
            rest := drop 19 name |}
  else None.
Proof.
  unfold matchAt, fileNameDateRe.
  repeat first [rewrite rmatch_Seq | rewrite rmatch_Group_Rep | rewrite rmatch_Chr].
  unfold hasDatePrefix, datePrefixClasses.
  destruct name as [|c1 [|c2 [|c3 [|c4 [|c5 [|c6 [|c7 [|c8 [|c9 [|c10 [|c11 [|c12 [|c13 [|c14 [|c15 [|c16 [|c17 [|c18 [|c19 tl]]]]]]]]]]]]]]]]]]]; simpl;
    repeat (first [reflexivity
                  | match goal with
                    | |- context [isDigit ?c] => destruct (isDigit c); simpl
                    | |- context [isChar ?a ?c] => destruct (isChar a c); simpl
                    end]).
  replace (S (S (length tl)) - length tl)%nat with 2%nat by lia.
  match goal with
  | |- context [take (?n - length tl)%nat _] =>
      replace (n - length tl)%nat with 19%nat by lia
  end.
  reflexivity.
Qed.


Lemma newDate_iso (y1 y2 y3 y4 m1 m2 d1 d2 h1 h2 i1 i2 s1 s2 : N) :
  forallb isDigit [y1; y2; y3; y4; m1; m2; d1; d2; h1; h2; i1; i2; s1; s2] = true →
  newDate ([y1; y2; y3; y4] ++ js "-" ++ [m1; m2] ++ js "-" ++ [d1; d2] ++ js "T"
           ++ [h1; h2] ++ js ":" ++ [i1; i2] ++ js ":" ++ [s1; s2] ++ js "Z")
  = {| getTime :=
         makeTime (parseDigits [y1; y2; y3; y4]) (parseDigits [m1; m2])
           (parseDigits [d1; d2]) (parseDigits [h1; h2]) (parseDigits [i1; i2])
           (parseDigits [s1; s2]) |}.
Proof.
  intros H. cbn [forallb] in H.
  repeat (apply andb_prop in H as [? H]).
  unfold newDate.
  assert (Hm : matchAt isoRe
                 ([y1; y2; y3; y4] ++ js "-" ++ [m1; m2] ++ js "-" ++ [d1; d2]
                  ++ js "T" ++ [h1; h2] ++ js ":" ++ [i1; i2] ++ js ":"
                  ++ [s1; s2] ++ js "Z")
               = Some {| matched := [y1; y2; y3; y4] ++ js "-" ++ [m1; m2] ++ js "-"
                                    ++ [d1; d2] ++ js "T" ++ [h1; h2] ++ js ":"
                                    ++ [i1; i2] ++ js ":" ++ [s1; s2] ++ js "Z";
                         groups := [[y1; y2; y3; y4]; [m1; m2]; [d1; d2]; [h1; h2];
                                    [i1; i2]; [s1; s2]];
                         rest := [] |}).
  { unfold matchAt, isoRe. simpl.
    repeat match goal with Hd : isDigit _ = true |- _ => rewrite Hd; clear Hd end.
    reflexivity. }
  rewrite Hm. reflexivity.
Qed.

(** X8 ([extractDateFromFileName]). The date of a file name is read off its
    first 19 code units and nothing else: it is [null] unless they have the
    shape [dddd-dd-dd_dd-dd-dd], and otherwise the date made of the six
    numbers written there (an Invalid Date when they are out of range). *)
Theorem extractDateFromFileName_prefix (name : jsstring) :
  extractDateFromFileName name =
  if hasDatePrefix name then
    Some {| getTime :=
              makeTime (numberAt 0 4 name) (numberAt 5 2 name) (numberAt 8 2 name)
                (numberAt 11 2 name) (numberAt 14 2 name) (numberAt 17 2 name) |}
  else None.
Proof.
  unfold extractDateFromFileName. rewrite matchAt_fileNameDateRe.
  destruct (hasDatePrefix name) eqn:H; [|done].
  cbn [groups]. f_equal. unfold numberAt.
  unfold hasDatePrefix, datePrefixClasses in H.
  destruct name as [|c1 [|c2 [|c3 [|c4 [|c5 [|c6 [|c7 [|c8 [|c9 [|c10 [|c11 [|c12
    [|c13 [|c14 [|c15 [|c16 [|c17 [|c18 [|c19 tl]]]]]]]]]]]]]]]]]]];
    cbn [matchesClasses] in H; rewrite ?andb_false_r in H; try discriminate H.
  repeat (apply andb_prop in H as [? H]).
  cbn [take drop].
  apply newDate_iso. cbn [forallb].
  repeat match goal with Hd : isDigit _ = true |- _ => rewrite Hd; clear Hd end.
  reflexivity.
Qed.

End FileNameDate.

(** ** The persistent cache: what its operations touch *)

Section MoreCache.

Import PersistentCache.

Context {A : Type}.
Variable accepts : storage A → jsstring → item A → bool.
Implicit Types (st : storage A) (k key : jsstring) (ks : list jsstring).

Lemma getKey_prefixed key : startsWith (getKey key) prefix = true.
Proof. apply startsWith_app. Qed.

Lemma getKey_inj key key' : getKey key = getKey key' → key = key'.
Proof. unfold getKey. apply app_inv_head. Qed.

Lemma cacheKeys_prefixed st k : k ∈ cacheKeys st → startsWith k prefix = true.
Proof. unfold cacheKeys. by intros [? _]%list_elem_of_filter. Qed.

Lemma entry_key_cacheKey st ke : ke ∈ entriesOf st → ke.1 ∈ cacheKeys st.
Proof. by intros [? _]%elem_entriesOf. Qed.

Lemma removedKeys_cacheKeys st now aggressive k :
  k ∈ garbageKeys st ++ expiredKeys st now ++ evictedKeys st now aggressive →
  k ∈ cacheKeys st.
Proof.
  rewrite !elem_of_app. intros [H|[H|H]].
  - unfold garbageKeys in H. by apply list_elem_of_filter in H as [_ H].
  - unfold expiredKeys in H. apply list_elem_of_fmap in H as (ke & -> & H).
    apply list_elem_of_filter in H as [_ H]. by apply entry_key_cacheKey.
  - rewrite evictedKeys_take in H. apply list_elem_of_fmap in H as (ke & -> & H).
    apply elem_of_take in H as (i & H & _). apply list_elem_of_lookup_2 in H.
    rewrite sort_Permutation in H. apply elem_validEntries in H as [H _].
    by apply entry_key_cacheKey.
Qed.

Lemma getItem_cleanup_foreign st now aggressive k :
  NoDup (keysOf st) → startsWith k prefix = false →
  getItem (cleanup st now aggressive) k = getItem st k.
Proof.
  intros Hnd Hk. rewrite cleanup_spec, getItem_removeKeys by done.
  rewrite decide_False; [done|]. intros Hin.
  apply removedKeys_cacheKeys, cacheKeys_prefixed in Hin. congruence.
Qed.

Lemma foreign_not_getKey k key : startsWith k prefix = false → k ≠ getKey key.
Proof. intros Hk ->. by rewrite getKey_prefixed in Hk. Qed.

Lemma getItem_set_foreign st now key d ttl tag k :
  NoDup (keysOf st) → startsWith k prefix = false →
  ∃ st', set accepts (Some st) now key d ttl tag = Some st'
         ∧ getItem st' k = getItem st k.
Proof.
  intros Hnd Hk. unfold set, setItem. destruct (accepts st _ _); eexists; split; try done.
  - rewrite getItem_cleanup_foreign by (done || by apply NoDup_putItem).
    rewrite getItem_putItem, decide_False; [done|by apply foreign_not_getKey].
  - by rewrite getItem_cleanup_foreign.
Qed.

Lemma getItem_delete_other st key k :
  k ≠ getKey key →
  ∃ st', delete (Some st) key = Some st' ∧ getItem st' k = getItem st k.
Proof.
  intros Hk. eexists. split; [done|]. by rewrite getItem_removeItem, decide_False.
Qed.

Lemma get_store_cases (ls : option (storage A)) now key :
  (get ls now key).2 = ls ∨ (get ls now key).2 = delete ls key.
Proof.
  destruct ls as [st|]; [|by left]. unfold get.
  destruct (getItem st (getKey key)) as [v|]; [|by left].
  destruct (itemTruthy v); [|by left].
  destruct v as [e|text]; [|by right].
  destruct (expiresAt e <? now); [by right|by left].
Qed.

End MoreCache.

(** X9 ([PersistentCache]: [set], [get], [delete], [clear], [cleanup]). The
    cache keeps to its own keys: no operation changes what localStorage
    holds under a key that does not start with [feed-watcher-cache:] (the
    saved configuration, for one). *)
Theorem cache_leaves_foreign_keys {A : Type}
    (accepts : PersistentCache.storage A → jsstring → PersistentCache.item A → bool)
    (st : PersistentCache.storage A) (o : operation) (k : jsstring) :
  NoDup (PersistentCache.keysOf st) →
  startsWith k PersistentCache.prefix = false →
  ∃ st', perform accepts (Some st) o = Some st'
         ∧ PersistentCache.getItem st' k = PersistentCache.getItem st k.
Proof.
  intros Hnd Hk. destruct o as [now key d ttl tag|now key|key|]; cbn [perform].
  - by apply getItem_set_foreign.
  - destruct (get_store_cases (Some st) now key) as [->| ->].
    + by eexists.
    + apply getItem_delete_other. by apply foreign_not_getKey.
  - apply getItem_delete_other. by apply foreign_not_getKey.
  - eexists. split; [done|]. rewrite getItem_removeKeys.
    rewrite decide_False; [done|]. intros Hin.
    apply cacheKeys_prefixed in Hin. congruence.
Qed.

(** A store with the saved configuration and two cache entries. *)
Definition smallStore : PersistentCache.storage nat :=
  [ (js "feed-watcher-config", PersistentCache.Garbage (js "{}"));
    (PersistentCache.getKey (js "a"),
     PersistentCache.Json
       {| PersistentCache.data := 1%nat; PersistentCache.timestamp := 10;
          PersistentCache.etag := None; PersistentCache.expiresAt := 500 |});
    (PersistentCache.getKey (js "b"),
     PersistentCache.Json
       {| PersistentCache.data := 2%nat; PersistentCache.timestamp := 20;
          PersistentCache.etag := None; PersistentCache.expiresAt := 600 |}) ].

Lemma cache_leaves_foreign_keys_witness :
  ∃ st', perform (λ _ _ _, true) (Some smallStore) OpClear = Some st'
    ∧ PersistentCache.getItem st' (js "feed-watcher-config")
      = PersistentCache.getItem smallStore (js "feed-watcher-config").
Proof.
  apply (cache_leaves_foreign_keys (λ _ _ _, true) smallStore OpClear
           (js "feed-watcher-config")).
  - by compute_done.
  - reflexivity.
Defined.

Section ClearDelete.

Import PersistentCache.

Context {A : Type}.
Implicit Types (st : storage A) (k key : jsstring).

Lemma get_missing st now key :
  getItem st (getKey key) = None → get (Some st) now key = (None, Some st).
Proof. intros H. unfold get. by rewrite H. Qed.

Lemma getItem_clear st key :
  getItem (removeKeys st (cacheKeys st)) (getKey key) = None.
Proof.
  rewrite getItem_removeKeys. case_decide as Hin; [done|].
  apply getItem_None. intros Hk. apply Hin. unfold cacheKeys.
  apply list_elem_of_filter. split; [apply getKey_prefixed|done].
Qed.

Lemma entriesOf_clear st : entriesOf (removeKeys st (cacheKeys st)) = [].
Proof.
  rewrite entriesOf_removeKeys. apply filter_none.
  intros ke Hke Hnot. apply Hnot. by apply entry_key_cacheKey.
Qed.

End ClearDelete.

(** X10 ([clear]). After [clear] the cache holds no entry, and [get]
    returns [null] for every key without touching the store. *)
Theorem clear_empties_cache {A : Type} (st : PersistentCache.storage A)
    (now : Z) (key : jsstring) :
  ∃ st', PersistentCache.clear (Some st) = Some st'
    ∧ entriesOf st' = []
    ∧ PersistentCache.get (Some st') now key = (None, Some st').
Proof.
  eexists. split; [done|]. split; [apply entriesOf_clear|].
  apply get_missing, getItem_clear.
Qed.

(** X11 ([delete], [get]). [delete] removes one key and no other: after
    [delete] of a key, [get] of that key returns [null] and leaves the
    store alone, and [get] of any other key returns what it returned
    before. *)
Theorem delete_removes_one_key {A : Type}
    (ls : option (PersistentCache.storage A)) (now : Z) (key key' : jsstring) :
  key' ≠ key →
  PersistentCache.get (PersistentCache.delete ls key) now key
  = (None, PersistentCache.delete ls key)
  ∧ (PersistentCache.get (PersistentCache.delete ls key) now key').1
    = (PersistentCache.get ls now key').1.
Proof.
  intros Hne. destruct ls as [st|]; [|by split].
  unfold PersistentCache.get, PersistentCache.delete. split.
  - by rewrite getItem_removeItem, decide_True.
  - rewrite getItem_removeItem, decide_False
      by (intros H; by apply getKey_inj in H).
    destruct (PersistentCache.getItem st (PersistentCache.getKey key')) as [v|]; [|done].
    destruct (PersistentCache.itemTruthy v); [|done].
    destruct v as [e|text]; [|done].
    by destruct (PersistentCache.expiresAt e <? now).
Qed.

Lemma delete_removes_one_key_witness :
  (PersistentCache.get (PersistentCache.delete (Some smallStore) (js "a")) 100 (js "b")).1
  = (PersistentCache.get (Some smallStore) 100 (js "b")).1.
Proof.
  apply (delete_removes_one_key (Some smallStore) 100 (js "a") (js "b")).
  discriminate.
Defined.

Section OtherKeys.

Import PersistentCache.

Context {A : Type}.
Variable accepts : storage A → jsstring → item A → bool.
Implicit Types (st : storage A) (k key : jsstring).

Lemma getItem_cleanup_cases st now aggressive k :
  NoDup (keysOf st) →
  getItem (cleanup st now aggressive) k = None
  ∨ getItem (cleanup st now aggressive) k = getItem st k.
Proof.
  intros Hnd. rewrite cleanup_spec, getItem_removeKeys by done.
  case_decide; [by left|by right].
Qed.

Lemma get_of_item st st' now key :
  getItem st' (getKey key) = None ∨ getItem st' (getKey key) = getItem st (getKey key) →
  (get (Some st') now key).1 = None
  ∨ (get (Some st') now key).1 = (get (Some st) now key).1.
Proof.
  intros [H|H]; unfold get; rewrite H; [by left|right].
  destruct (getItem st (getKey key)) as [v|]; [|done].
  destruct (itemTruthy v); [|done].
  destruct v as [e|text]; [|done].
  by destruct (expiresAt e <? now).
Qed.

End OtherKeys.

(** X12 ([set], [cleanup], [get]). A [set] never changes the entry of
    another key: afterwards [get] of the other key returns what it returned
    before, or [null] when the cleanup has removed the entry. *)
Theorem set_spares_other_keys {A : Type}
    (accepts : PersistentCache.storage A → jsstring → PersistentCache.item A → bool)
    (st : PersistentCache.storage A) (now t : Z) (key key' : jsstring) (d : A)
    (ttl : option Z) (tag : option jsstring) :
  NoDup (PersistentCache.keysOf st) →
  key' ≠ key →
  let after := PersistentCache.set accepts (Some st) now key d ttl tag in
  (PersistentCache.get after t key').1 = None
  ∨ (PersistentCache.get after t key').1 = (PersistentCache.get (Some st) t key').1.
Proof.
  intros Hnd Hne after. subst after. unfold PersistentCache.set, PersistentCache.setItem.
  destruct (accepts st _ _).
  - apply get_of_item.
    destruct (getItem_cleanup_cases
                (PersistentCache.putItem st (PersistentCache.getKey key)
                   (PersistentCache.Json
                      {| PersistentCache.data := d; PersistentCache.timestamp := now;
                         PersistentCache.etag := tag;
                         PersistentCache.expiresAt :=
                           now + default PersistentCache.defaultTTL ttl |}))
                now false (PersistentCache.getKey key')) as [H|H];
      [by apply NoDup_putItem|by left|].
    right. rewrite H, getItem_putItem, decide_False; [done|].
    intros Heq. by apply getKey_inj in Heq.
  - apply get_of_item. by apply getItem_cleanup_cases.
Qed.

(** X13 ([set], [cleanup(true)]). When localStorage refuses the write
    (the quota is exceeded), [set] stores nothing and makes room: of the n
    entries that have not expired it keeps n - floor(n/2), all of them
    entries that were there, and none of the removed ones is newer than a
    kept one. *)
Theorem set_refused_halves {A : Type}
    (accepts : PersistentCache.storage A → jsstring → PersistentCache.item A → bool)
    (st : PersistentCache.storage A) (now : Z) (key : jsstring) (d : A)
    (ttl : option Z) (tag : option jsstring) :
  NoDup (PersistentCache.keysOf st) →
  accepts st (PersistentCache.getKey key)
    (PersistentCache.Json
       {| PersistentCache.data := d; PersistentCache.timestamp := now;
          PersistentCache.etag := tag;
          PersistentCache.expiresAt := now + default PersistentCache.defaultTTL ttl |})
    = false →
  let valid := validEntries st now in
  ∃ st', PersistentCache.set accepts (Some st) now key d ttl tag = Some st'
    ∧ length (entriesOf st') = (length valid - length valid / 2)%nat
    ∧ (∀ ke, ke ∈ entriesOf st' → ke ∈ valid)
    ∧ (∀ kept evicted, kept ∈ entriesOf st' → evicted ∈ valid →
         evicted ∉ entriesOf st' →
         PersistentCache.timestamp evicted.2 <= PersistentCache.timestamp kept.2).
Proof.
  intros Hnd Hacc valid. unfold PersistentCache.set, PersistentCache.setItem.
  rewrite Hacc. eexists. split; [done|]. split_and!.
  - by rewrite length_entriesOf_cleanup, evictCount_aggressive.
  - intros ke Hke. rewrite entriesOf_cleanup in Hke by done.
    by apply list_elem_of_filter in Hke as [_ Hke].
  - intros kept evicted. by apply cleanup_evicts_oldest.
Qed.

Lemma set_spares_other_keys_witness :
  (PersistentCache.get
     (PersistentCache.set (λ _ _ _, true) (Some smallStore) 100 (js "a") 7%nat None None)
     100 (js "b")).1 = None
  ∨ (PersistentCache.get
       (PersistentCache.set (λ _ _ _, true) (Some smallStore) 100 (js "a") 7%nat None None)
       100 (js "b")).1
    = (PersistentCache.get (Some smallStore) 100 (js "b")).1.
Proof.
  apply (set_spares_other_keys (λ _ _ _, true) smallStore 100 100 (js "a") (js "b")
           7%nat None None).
  - by compute_done.
  - discriminate.
Defined.

Lemma set_refused_halves_witness :
  ∃ st', PersistentCache.set (λ _ _ _, false) (Some smallStore) 100 (js "c") 3%nat
           None None = Some st'
    ∧ length (entriesOf st') = 1%nat.
Proof.
  destruct (set_refused_halves (λ _ _ _, false) smallStore 100 (js "c") 3%nat None None)
    as (st' & Hset & Hlen & _).
  - by compute_done.
  - reflexivity.
  - exists st'. split; [exact Hset|]. rewrite Hlen. reflexivity.
Defined.

(** ** The configuration: repository addresses and saving *)

Section Runs.

Implicit Types (p : N → bool) (caps : list jsstring) (s : jsstring)
  (k : list jsstring → jsstring → option mresult).

(** The longest run of code units of a class at the start of a string, and
    what follows it. *)
Fixpoint leadingRun p s : jsstring :=
  match s with
  | c :: s' => if p c then c :: leadingRun p s' else []
  | [] => []
  end.

Fixpoint afterRun p s : jsstring :=
  match s with
  | c :: s' => if p c then afterRun p s' else s
  | [] => []
  end.

Lemma leading_after p s : leadingRun p s ++ afterRun p s = s.
Proof. induction s as [|c s IH]; [done|]. simpl. destruct (p c); [|done]. simpl. by rewrite IH. Qed.

Lemma leading_all p s : forallb p (leadingRun p s) = true.
Proof. induction s as [|c s IH]; [done|]. simpl. destruct (p c) eqn:E; [|done]. simpl. by rewrite E. Qed.

Lemma take_leading p s : take (length s - length (afterRun p s)) s = leadingRun p s.
Proof.
  rewrite <-(leading_after p s) at 1 3. rewrite length_app.
  replace (length (leadingRun p s) + length (afterRun p s) - length (afterRun p s))%nat
    with (length (leadingRun p s)) by lia.
  by rewrite take_app_length.
Qed.

Lemma leading_run p l t :
  forallb p l = true → (t = [] ∨ ∃ c t', t = c :: t' ∧ p c = false) →
  leadingRun p (l ++ t) = l ∧ afterRun p (l ++ t) = t.
Proof.
  intros Hl Ht. induction l as [|c l IH]; simpl.
  - destruct Ht as [->|(c & t' & -> & Hc)]; [done|]. simpl. by rewrite Hc.
  - simpl in Hl. apply andb_prop in Hl as [Hc Hl]. rewrite Hc.
    destruct (IH Hl) as [-> ->]. done.
Qed.

(** A greedy star whose continuation cannot start at a code unit of the
    class never gives back: it takes the whole run. *)
Lemma rmatch_Star_blocked p caps s k :
  (∀ c s', p c = true → k caps (c :: s') = None) →
  rmatch (Star p) caps s k = k caps (afterRun p s).
Proof.
  intros Hk. induction s as [|c s IH]; [done|].
  rewrite rmatch_Star, IH. simpl. destruct (p c) eqn:E; [|done].
  destruct (k caps (afterRun p s)); [done|]. by apply Hk.
Qed.

(** When the continuation accepts afterRun the whole run, that is the match. *)
Lemma rmatch_Star_greedy p caps s k m :
  k caps (afterRun p s) = Some m → rmatch (Star p) caps s k = Some m.
Proof.
  intros Hk. induction s as [|c s IH]; [done|].
  rewrite rmatch_Star. simpl in Hk. destruct (p c); [|done].
  by rewrite (IH Hk).
Qed.

End Runs.

Section UrlPattern.

Import Config.

Definition githubHost : jsstring := js "github.com/".

(** Owner and repository as the pattern reads them off the text behind
    [github.com/]: a run without a slash, a slash, a run without a slash. *)
Definition ownerRepoAt (s : jsstring) : option (jsstring * jsstring * jsstring) :=
  match leadingRun (isNot slash) s, afterRun (isNot slash) s with
  | c :: o, d :: s2 =>
      match leadingRun (isNot slash) s2 with
      | e :: r => Some (c :: o, e :: r, afterRun (isNot slash) s2)
      | [] => None
      end
  | _, _ => None
  end.

Lemma isNot_not_isChar c : isNot slash c = true → isChar slash c = false.
Proof. unfold isNot, isChar. by intros ->%negb_true_iff. Qed.

Lemma after_head p s c s' : afterRun p s = c :: s' → p c = false.
Proof.
  induction s as [|d s IH]; [done|]. simpl. destruct (p d) eqn:E; [done|].
  by intros [= <- <-].
Qed.

Lemma rmatch_githubUrlPattern s :
  rmatch githubUrlPattern [] s accept =
  if startsWith s githubHost then
    match ownerRepoAt (drop (length githubHost) s) with
    | Some (o, r, s') => Some ([o; r], s')
    | None => None
    end
  else None.
Proof.
  unfold githubUrlPattern. fold githubHost. rewrite rmatch_Seq, rmatch_Lit.
  destruct (startsWith s githubHost); [|done].
  generalize (drop (length githubHost) s). clear s. intros s.
  rewrite rmatch_Seq, rmatch_Group. unfold Plus at 1.
  rewrite rmatch_Seq, rmatch_Chr. unfold ownerRepoAt.
  destruct s as [|c s]; [done|]. simpl leadingRun. simpl afterRun.
  destruct (isNot slash c) eqn:Hc; [|done].
  rewrite rmatch_Star_blocked.
  2:{ intros d s' Hd. rewrite rmatch_Seq, rmatch_Chr. by rewrite isNot_not_isChar. }
  rewrite rmatch_Seq, rmatch_Chr.
  destruct (afterRun (isNot slash) s) as [|d s2] eqn:Ea; [done|].
  pose proof (after_head _ _ _ _ Ea) as Hd.
  assert (isChar slash d = true) as ->.
  { unfold isNot in Hd. unfold isChar. by apply negb_false_iff in Hd. }
  assert (Ho : take (length (c :: s) - length (d :: s2)) (c :: s)
               = c :: leadingRun (isNot slash) s).
  { rewrite <-Ea. pose proof (take_leading (isNot slash) (c :: s)) as H.
    simpl leadingRun in H. simpl afterRun in H. by rewrite Hc in H. }
  rewrite Ho. rewrite rmatch_Group. unfold Plus.
  rewrite rmatch_Seq, rmatch_Chr.
  destruct s2 as [|e s2]; [done|]. simpl leadingRun. simpl afterRun.
  destruct (isNot slash e) eqn:He; [|done].
  erewrite rmatch_Star_greedy; [|reflexivity].
  unfold accept. do 2 f_equal. simpl app. do 2 f_equal.
  pose proof (take_leading (isNot slash) (e :: s2)) as H.
  simpl leadingRun in H. simpl afterRun in H. by rewrite He in H.
Qed.


Lemma startsWith_inv s p : startsWith s p = true → s = p ++ drop (length p) s.
Proof.
  revert s. induction p as [|a p IH]; intros s H; [done|].
  destruct s as [|b s]; [done|]. simpl in H.
  apply andb_prop in H as [Hab H]. apply N.eqb_eq in Hab as ->.
  simpl. f_equal. by apply IH.
Qed.

Lemma includes_app_l a b p : includes b p = true → includes (a ++ b) p = true.
Proof.
  intros H. induction a as [|c a IH]; [done|].
  cbn [app includes]. rewrite IH. apply orb_true_r.
Qed.

Lemma searchFrom_Some r b s b' m :
  searchFrom r b s = Some (b', m) →
  ∃ pre suf, s = pre ++ suf ∧ b' = reverse b ++ pre ∧ matchAt r suf = Some m.
Proof.
  revert b. induction s as [|c s IH]; intros b H; simpl in H.
  - destruct (matchAt r []) as [m'|] eqn:E; [|done]. injection H as <- <-.
    exists [], []. split_and!; [done|by rewrite app_nil_r|done].
  - destruct (matchAt r (c :: s)) as [m'|] eqn:E.
    + injection H as <- <-. exists [], (c :: s).
      split_and!; [done|by rewrite app_nil_r|done].
    + apply IH in H as (pre & suf & -> & -> & Hm).
      exists (c :: pre), suf. split; [done|]. split; [|done].
      by rewrite reverse_cons, <-app_assoc.
Qed.

Lemma searchFrom_None r b s :
  (∀ pre suf, s = pre ++ suf → matchAt r suf = None) → searchFrom r b s = None.
Proof.
  revert b. induction s as [|c s IH]; intros b H; simpl.
  - by rewrite (H [] []).
  - rewrite (H [] (c :: s)) by done. apply IH.
    intros pre suf ->. by apply (H (c :: pre)).
Qed.

Lemma searchFrom_skip r b pre s :
  (∀ c t, c ∈ pre → matchAt r (c :: t) = None) →
  searchFrom r b (pre ++ s) = searchFrom r (reverse pre ++ b) s.
Proof.
  revert b. induction pre as [|c pre IH]; intros b H; [done|].
  cbn [app searchFrom]. rewrite H by (by left).
  rewrite IH by (intros d t Hd; apply H; by right).
  by rewrite reverse_cons, <-app_assoc.
Qed.

Lemma matchAt_rmatch r s m :
  matchAt r s = Some m → rmatch r [] s accept = Some (groups m, rest m).
Proof.
  unfold matchAt. destruct (rmatch r [] s accept) as [[caps s']|]; [|done].
  by intros [= <-].
Qed.

Lemma matchAt_githubUrlPattern_None s :
  startsWith s githubHost = false → matchAt githubUrlPattern s = None.
Proof. intros H. unfold matchAt. by rewrite rmatch_githubUrlPattern, H. Qed.

(** *** The suffix [.git] *)

Definition dotGit : jsstring := js ".git".

Lemma matchAt_gitSuffix s :
  matchAt gitSuffix s =
  if eqs s dotGit
  then Some {| matched := dotGit; groups := []; rest := [] |} else None.
Proof.
  unfold matchAt, gitSuffix. fold dotGit. rewrite rmatch_Seq, rmatch_Lit.
  destruct (startsWith s dotGit) eqn:E.
  - apply startsWith_inv in E. destruct (drop (length dotGit) s) as [|c t] eqn:Ed.
    + rewrite app_nil_r in E. subst s. reflexivity.
    + simpl. rewrite (proj2 (eqs_false s dotGit)); [done|]. intros ->. done.
  - rewrite (proj2 (eqs_false s dotGit)); [done|]. intros ->. done.
Qed.

Lemma searchFrom_gitSuffix b r :
  searchFrom gitSuffix b (r ++ dotGit)
  = Some (reverse b ++ r, {| matched := dotGit; groups := []; rest := [] |}).
Proof.
  revert b. induction r as [|c r IH]; intros b.
  - by rewrite app_nil_r.
  - cbn [app searchFrom]. rewrite matchAt_gitSuffix.
    rewrite (proj2 (eqs_false (c :: r ++ dotGit) dotGit)).
    + by rewrite IH, reverse_cons, <-app_assoc.
    + intros H. apply (f_equal length) in H. simpl in H.
      rewrite length_app in H. simpl in H. lia.
Qed.

Lemma replaceFirst_gitSuffix r : replaceFirst gitSuffix [] (r ++ dotGit) = r.
Proof.
  unfold replaceFirst, search. rewrite searchFrom_gitSuffix. simpl.
  by rewrite app_nil_r.
Qed.

Lemma endsWith_inv s p : endsWith s p = true → ∃ r, s = r ++ p.
Proof.
  unfold endsWith. intros H. apply startsWith_inv in H.
  exists (reverse (drop (length (reverse p)) (reverse s))).
  apply (f_equal reverse) in H.
  by rewrite reverse_involutive, reverse_app, reverse_involutive in H.
Qed.

Lemma endsWith_app r p : endsWith (r ++ p) p = true.
Proof. unfold endsWith. rewrite reverse_app. apply startsWith_app. Qed.

Lemma replaceFirst_gitSuffix_other s :
  endsWith s dotGit = false → replaceFirst gitSuffix [] s = s.
Proof.
  intros H. unfold replaceFirst, search. rewrite searchFrom_None; [done|].
  intros pre suf ->. rewrite matchAt_gitSuffix.
  destruct (eqs suf dotGit) eqn:E; [|done].
  apply eqs_true in E as ->. by rewrite endsWith_app in H.
Qed.

(** [repo.replace(/\.git$/, '')] in closed form. *)
Definition withoutGit (repo : jsstring) : jsstring :=
  if endsWith repo dotGit then take (length repo - 4) repo else repo.

Lemma replaceFirst_withoutGit repo : replaceFirst gitSuffix [] repo = withoutGit repo.
Proof.
  unfold withoutGit. destruct (endsWith repo dotGit) eqn:E.
  - apply endsWith_inv in E as [r ->]. rewrite replaceFirst_gitSuffix.
    rewrite length_app. change (length dotGit) with 4%nat.
    replace (length r + 4 - 4)%nat with (length r) by lia.
    by rewrite take_app_length.
  - by apply replaceFirst_gitSuffix_other.
Qed.

End UrlPattern.

Section ParseUrl.

Import Config.

Lemma parseRepositoryUrl_search url :
  parseRepositoryUrl url =
  match search githubUrlPattern url with
  | Some (_, m) =>
      match groups m with
      | [owner; repo] => Some (owner, withoutGit repo)
      | _ => None
      end
  | None => None
  end.
Proof.
  unfold parseRepositoryUrl. destruct (search githubUrlPattern url) as [[b m]|]; [|done].
  destruct (groups m) as [|o [|r [|? ?]]]; try done. by rewrite replaceFirst_withoutGit.
Qed.

Lemma ownerRepoAt_run owner repo tail :
  owner ≠ [] → repo ≠ [] →
  forallb (isNot slash) owner = true → forallb (isNot slash) repo = true →
  (tail = [] ∨ ∃ t, tail = slash :: t) →
  ownerRepoAt (owner ++ [slash] ++ repo ++ tail) = Some (owner, repo, tail).
Proof.
  intros Ho Hr Hao Har Ht. unfold ownerRepoAt.
  destruct (leading_run (isNot slash) owner ([slash] ++ repo ++ tail) Hao) as [-> ->].
  { right. by exists slash, (repo ++ tail). }
  destruct owner as [|c o]; [done|]. simpl app at 1.
  destruct (leading_run (isNot slash) repo tail Har) as [-> ->].
  { destruct Ht as [->|[t ->]]; [by left|right]. by exists slash, t. }
  by destruct repo.
Qed.

Lemma ownerRepoAt_Some s o r s' :
  ownerRepoAt s = Some (o, r, s') →
  s = o ++ [slash] ++ r ++ s' ∧ o ≠ [] ∧ r ≠ []
  ∧ forallb (isNot slash) o = true ∧ forallb (isNot slash) r = true.
Proof.
  unfold ownerRepoAt. intros H.
  pose proof (leading_after (isNot slash) s) as Hs.
  pose proof (leading_all (isNot slash) s) as Ha.
  destruct (leadingRun (isNot slash) s) as [|c o'] eqn:El; [done|].
  destruct (afterRun (isNot slash) s) as [|d s2] eqn:Ea; [done|].
  pose proof (leading_after (isNot slash) s2) as Hs2.
  pose proof (leading_all (isNot slash) s2) as Ha2.
  destruct (leadingRun (isNot slash) s2) as [|e r'] eqn:El2; [done|].
  injection H as <- <- <-.
  apply after_head in Ea. unfold isNot in Ea. apply negb_false_iff, N.eqb_eq in Ea.
  subst d. split_and!; try done.
  rewrite <-Hs. simpl in *. congruence.
Qed.

Lemma forallb_isNot c s : forallb (isNot c) s = true ↔ c ∉ s.
Proof.
  induction s as [|d s IH]; simpl.
  - split; [intros _; apply not_elem_of_nil|done].
  - rewrite andb_true_iff, IH, not_elem_of_cons. unfold isNot.
    rewrite negb_true_iff, N.eqb_neq. done.
Qed.

End ParseUrl.

(** X14 ([parseRepositoryUrl], [validateRepositoryUrl]). An address in
    which the text [github.com/] does not occur is not parsed: the result
    is [null], and the validation says no. *)
Theorem parseRepositoryUrl_without_host (url : jsstring) :
  includes url (js "github.com/") = false →
  Config.parseRepositoryUrl url = None ∧ Config.validateRepositoryUrl url = false.
Proof.
  intros H.
  assert (Hp : Config.parseRepositoryUrl url = None).
  { rewrite parseRepositoryUrl_search. unfold search.
    rewrite searchFrom_None; [done|]. intros pre suf ->.
    apply matchAt_githubUrlPattern_None. apply includes_app_r in H.
    destruct suf; [done|]. by apply includes_cons_false in H as [H _]. }
  split; [done|]. unfold Config.validateRepositoryUrl. rewrite Hp.
  apply bool_decide_eq_false_2. intros Hn. by apply Hn.
Qed.

Lemma parseRepositoryUrl_without_host_witness :
  Config.parseRepositoryUrl (js "https://gitlab.com/someone/some-repo") = None
  ∧ Config.validateRepositoryUrl (js "https://gitlab.com/someone/some-repo") = false.
Proof.
  apply (parseRepositoryUrl_without_host (js "https://gitlab.com/someone/some-repo")).
  reflexivity.
Defined.

(** X15 ([parseRepositoryUrl]). The usual forms of a repository address
    are read as intended: behind any scheme that has no letter g
    ([https://], [http://www.]), from [github.com/owner/repo] followed by
    nothing or by a slash and more, the owner is [owner] and the repository
    is [repo] without one final [.git]. *)
Theorem parseRepositoryUrl_github (scheme owner repo tail : jsstring) :
  103%N ∉ scheme →
  owner ≠ [] → repo ≠ [] → Config.slash ∉ owner → Config.slash ∉ repo →
  (tail = [] ∨ ∃ t, tail = Config.slash :: t) →
  Config.parseRepositoryUrl
    (scheme ++ js "github.com/" ++ owner ++ [Config.slash] ++ repo ++ tail)
  = Some (owner, withoutGit repo).
Proof.
  intros Hs Ho Hr Hso Hsr Ht.
  rewrite parseRepositoryUrl_search. unfold search.
  rewrite searchFrom_skip.
  2:{ intros c t Hc. apply matchAt_githubUrlPattern_None.
      change (startsWith (c :: t) githubHost)
        with ((103 =? c)%N && startsWith t (js "ithub.com/")).
      apply andb_false_iff. left. apply N.eqb_neq. intros <-. done. }
  fold githubHost.
  assert (Hm : rmatch Config.githubUrlPattern [] (githubHost ++ owner ++ [Config.slash] ++ repo ++ tail) accept
               = Some ([owner; repo], tail)).
  { rewrite rmatch_githubUrlPattern, startsWith_app, drop_app_length.
    rewrite ownerRepoAt_run; [done|done|done|by apply forallb_isNot..|done]. }
  destruct (githubHost ++ owner ++ [Config.slash] ++ repo ++ tail) as [|c s] eqn:E; [done|].
  cbn [searchFrom]. unfold matchAt. rewrite Hm. done.
Qed.

Lemma parseRepositoryUrl_github_witness :
  Config.parseRepositoryUrl (js "https://github.com/octocat/hello.git/tree/main")
  = Some (js "octocat", js "hello").
Proof.
  apply (parseRepositoryUrl_github (js "https://") (js "octocat") (js "hello.git")
           (js "/tree/main")).
  - by apply (bool_decide_unpack (103%N ∉ js "https://")).
  - discriminate.
  - discriminate.
  - by apply (bool_decide_unpack (Config.slash ∉ js "octocat")).
  - by apply (bool_decide_unpack (Config.slash ∉ js "hello.git")).
  - right. by eexists.
Defined.

(** X16 ([parseRepositoryUrl]). Whatever address is parsed, the owner is
    not empty, neither the owner nor the repository holds a slash, and
    the address contains [github.com/<owner>/<repo>]. *)
Theorem parseRepositoryUrl_result (url owner repo : jsstring) :
  Config.parseRepositoryUrl url = Some (owner, repo) →
  owner ≠ [] ∧ (Config.slash ∉ owner) ∧ (Config.slash ∉ repo)
  ∧ includes url (js "github.com/" ++ owner ++ [Config.slash] ++ repo) = true.
Proof.
  rewrite parseRepositoryUrl_search. unfold search.
  destruct (searchFrom _ _ _) as [[b m]|] eqn:E; [|done].
  apply searchFrom_Some in E as (pre & suf & -> & _ & Hm).
  apply matchAt_rmatch in Hm. rewrite rmatch_githubUrlPattern in Hm.
  destruct (startsWith suf githubHost) eqn:Hh; [|done].
  destruct (ownerRepoAt _) as [[[o r] s']|] eqn:Ho; [|done].
  injection Hm as Hg _. rewrite <-Hg. intros [= <- <-].
  apply ownerRepoAt_Some in Ho as (Hs & Hne & _ & Hao & Har).
  apply forallb_isNot in Hao, Har.
  assert (Hr : ∃ t, r = withoutGit r ++ t).
  { unfold withoutGit. destruct (endsWith r dotGit).
    - exists (drop (length r - 4) r). by rewrite take_drop.
    - exists []. by rewrite app_nil_r. }
  destruct Hr as [t Hr]. split_and!; [done|done| |].
  - intros Hin. apply Har. rewrite Hr. apply elem_of_app. by left.
  - apply includes_app_l. apply startsWith_inv in Hh. rewrite Hh, Hs.
    fold githubHost. rewrite Hr at 1.
    replace (githubHost ++ o ++ [Config.slash] ++ (withoutGit r ++ t) ++ s')
      with ((githubHost ++ o ++ [Config.slash] ++ withoutGit r) ++ t ++ s')
      by (by rewrite <-!app_assoc).
    apply includes_prefix.
Qed.

Lemma parseRepositoryUrl_result_witness :
  js "octocat" ≠ [] ∧ (Config.slash ∉ js "octocat") ∧ (Config.slash ∉ js "hello")
  ∧ includes (js "git@githubHost:x, or github.com/octocat/hello.git")
      (js "github.com/" ++ js "octocat" ++ [Config.slash] ++ js "hello") = true.
Proof.
  apply (parseRepositoryUrl_result (js "git@githubHost:x, or github.com/octocat/hello.git")
           (js "octocat") (js "hello")).
  reflexivity.
Defined.

Section SaveTwice.

Import Config.

Lemma merge_merge (c : FeedConfig) (p : PartialConfig) :
  merge (merge c p) p = merge c p.
Proof.
  destruct c, p as [[u|] [o|] [r|] [pp|]]; reflexivity.
Qed.

End SaveTwice.

(** X17 ([saveConfig], [getConfig]). Saving the same partial configuration
    a second time leaves the store as the first save left it, whether
    localStorage takes the writes or not. *)
Theorem saveConfig_idempotent (accepts : Config.FeedConfig → bool)
    (ls : Config.configStore) (config : Config.PartialConfig) :
  Config.saveConfig accepts (Config.saveConfig accepts ls config) config
  = Config.saveConfig accepts ls config.
Proof.
  destruct ls as [current|]; [|done].
  unfold Config.saveConfig at 2 3.
  match goal with
  | |- context [if accepts ?c then _ else _] => set (newConfig := c)
  end.
  destruct (accepts newConfig) eqn:Hacc.
  - unfold Config.saveConfig. rewrite getConfig_toPartial.
    assert (Hnew :
      match Config.repositoryUrl' config with
      | Some url =>
          if isTruthyString url then
            match Config.parseRepositoryUrl url with
            | Some (o, r) =>
                {| Config.repositoryUrl := Config.repositoryUrl (Config.merge newConfig config);
                   Config.owner := o; Config.repo := r;
                   Config.postsPath := Config.postsPath (Config.merge newConfig config) |}
            | None => Config.merge newConfig config
            end
          else Config.merge newConfig config
      | None => Config.merge newConfig config
      end = newConfig).
    { subst newConfig.
      destruct (Config.repositoryUrl' config) as [url|] eqn:Hu;
        [destruct (isTruthyString url);
           [destruct (Config.parseRepositoryUrl url) as [[o r]|]|]|];
        try apply merge_merge.
      destruct (Config.getConfig (Some current)), config as [? ? ? [pp|]];
        simpl in *; subst; reflexivity. }
    rewrite Hnew. by rewrite Hacc.
  - unfold Config.saveConfig. fold newConfig. by rewrite Hacc.
Qed.

(** ** The request path of the GitHub adapter *)

Section RequestFacts.

Import GitHubAPI.

Context {A : Type}.
Variable accepts : PersistentCache.storage A → jsstring → PersistentCache.item A → bool.
Implicit Types (this : api A) (ls : option (PersistentCache.storage A))
  (fetch : jsstring → list (jsstring * jsstring) → jsstring + response A).

(** The entry of the memory cache that answers a request, if one does. *)
Definition memoryHit this (now : Z) (endpoint : jsstring) (duration : Z)
    : option (CacheEntry A) :=
  match cache this !! (GITHUB_API_BASE ++ endpoint) with
  | Some cached => if now - timestamp cached <? duration then Some cached else None
  | None => None
  end.

(** The entry of the persistent cache that answers it. *)
Definition persistentHit ls (now : Z) (endpoint : jsstring) (duration : Z)
    : option (PersistentCache.PersistentCacheEntry A) :=
  match (PersistentCache.get ls now (js "api:" ++ endpoint)).1 with
  | Some e => if now - PersistentCache.timestamp e <? duration then Some e else None
  | None => None
  end.

Lemma makeRequest_memory fetch this ls now later endpoint cd cached :
  memoryHit this now endpoint (durationOf cd) = Some cached →
  makeRequest accepts fetch this ls now later endpoint cd
  = {| outcome := inr (data cached); self := this; store := ls; requests := [] |}.
Proof. unfold memoryHit, makeRequest. by intros ->. Qed.

Lemma makeRequest_persistent fetch this ls now later endpoint cd e :
  memoryHit this now endpoint (durationOf cd) = None →
  persistentHit ls now endpoint (durationOf cd) = Some e →
  makeRequest accepts fetch this ls now later endpoint cd
  = {| outcome := inr (PersistentCache.data e);
       self := withCache this
                 (<[GITHUB_API_BASE ++ endpoint := ofPersistent e]> (cache this));
       store := ls; requests := [] |}.
Proof.
  unfold memoryHit, persistentHit, makeRequest. intros -> Hp.
  pose proof (get_hit_keeps_store ls now (js "api:" ++ endpoint)) as Hk.
  destruct (PersistentCache.get ls now (js "api:" ++ endpoint)) as [pe ls'].
  simpl in *. rewrite Hp. destruct pe as [e'|]; [|done].
  by rewrite (Hk e' eq_refl).
Qed.

Lemma makeRequest_miss fetch this ls now later endpoint cd :
  memoryHit this now endpoint (durationOf cd) = None →
  persistentHit ls now endpoint (durationOf cd) = None →
  makeRequest accepts fetch this ls now later endpoint cd
  = if rateLimited this now then
      {| outcome := inl rateLimitError; self := this;
         store := (PersistentCache.get ls now (js "api:" ++ endpoint)).2;
         requests := [] |}
    else sendRequest accepts fetch this
           (PersistentCache.get ls now (js "api:" ++ endpoint)).2 later endpoint
           (durationOf cd) (PersistentCache.get ls now (js "api:" ++ endpoint)).1.
Proof.
  unfold memoryHit, persistentHit, makeRequest. intros -> Hp.
  destruct (PersistentCache.get ls now (js "api:" ++ endpoint)) as [pe ls'].
  simpl in *. by rewrite Hp.
Qed.

Lemma memoryHit_insert this c now endpoint duration entry :
  now - timestamp entry < duration →
  memoryHit (withCache this (<[GITHUB_API_BASE ++ endpoint := entry]> c))
    now endpoint duration = Some entry.
Proof.
  intros H. unfold memoryHit. simpl. rewrite lookup_insert_eq.
  by destruct (Z.ltb_spec (now - timestamp entry) duration); [|lia].
Qed.

Lemma ok_not_304 (r : response A) : ok r = true → (rstatus r =? 304) = false.
Proof. unfold ok. intros H. apply andb_prop in H as [_ H]. lia. Qed.

(** The answers of [sendRequest]. *)
Lemma sendRequest_fresh fetch this ls later endpoint duration pe r d :
  (∀ headers, fetch (GITHUB_API_BASE ++ endpoint) headers = inr r) →
  ok r = true → json r = inr d →
  let entry := {| data := d; timestamp := later; etag := truthyHeader (eTag r) |} in
  ∃ sent,
    sendRequest accepts fetch this ls later endpoint duration pe
    = {| outcome := inr d;
         self := withCache (withRateLimit this r)
                   (<[GITHUB_API_BASE ++ endpoint := entry]> (cache this));
         store := PersistentCache.set accepts ls later (js "api:" ++ endpoint) d
                    (Some duration) (truthyHeader (eTag r));
         requests := [sent] |}.
Proof.
  intros Hf Hok Hj entry. unfold sendRequest. rewrite Hf.
  rewrite (ok_not_304 r Hok), Hok, Hj. simpl. by eexists.
Qed.


(** The headers every request carries. *)
Definition fixedHeaders : list (jsstring * jsstring) :=
  [(js "Accept", js "application/vnd.github.v3+json");
   (js "User-Agent", js "FeedWatcher-UI/1.0")].

(** The entry whose ETag goes into the request: the one of the memory
    cache, or else the one the persistent cache gave. *)
Definition cachedEntryOf this (endpoint : jsstring)
    (pe : option (PersistentCache.PersistentCacheEntry A)) : option (CacheEntry A) :=
  match cache this !! (GITHUB_API_BASE ++ endpoint) with
  | Some e => Some e
  | None => ofPersistent <$> pe
  end.

Definition conditionalHeader (entry : option (CacheEntry A))
    : list (jsstring * jsstring) :=
  match entry ≫= (λ e, truthyHeader (etag e)) with
  | Some tag => [(js "If-None-Match", tag)]
  | None => []
  end.

Lemma sendRequest_requests fetch this ls later endpoint duration pe :
  requests _ (sendRequest accepts fetch this ls later endpoint duration pe)
  = [(GITHUB_API_BASE ++ endpoint,
      fixedHeaders ++ conditionalHeader (cachedEntryOf this endpoint pe))].
Proof.
  unfold sendRequest, conditionalHeader, cachedEntryOf, fixedHeaders.
  destruct (fetch _ _) as [msg|r]; [done|].
  destruct (if rstatus r =? 304 then _ else _) as [e|]; [done|].
  destruct (negb (ok r)); [done|]. by destruct (json r).
Qed.

Lemma sendRequest_error fetch this ls later endpoint duration pe err :
  outcome _ (sendRequest accepts fetch this ls later endpoint duration pe) = inl err →
  cache (self _ (sendRequest accepts fetch this ls later endpoint duration pe))
  = cache this
  ∧ config (self _ (sendRequest accepts fetch this ls later endpoint duration pe))
    = config this
  ∧ store _ (sendRequest accepts fetch this ls later endpoint duration pe) = ls.
Proof.
  unfold sendRequest.
  destruct (fetch _ _) as [msg|r]; [done|].
  destruct (if rstatus r =? 304 then _ else _) as [e|]; [done|].
  destruct (negb (ok r)); [done|]. by destruct (json r).
Qed.

Lemma sendRequest_304 fetch this ls later endpoint duration pe r e :
  (∀ headers, fetch (GITHUB_API_BASE ++ endpoint) headers = inr r) →
  rstatus r = 304 →
  cachedEntryOf this endpoint pe = Some e →
  ∃ sent,
    sendRequest accepts fetch this ls later endpoint duration pe
    = {| outcome := inr (data e);
         self := match cache this !! (GITHUB_API_BASE ++ endpoint) with
                 | Some _ =>
                     withCache (withRateLimit this r)
                       (<[GITHUB_API_BASE ++ endpoint :=
                            {| data := data e; timestamp := later; etag := etag e |}]>
                          (cache this))
                 | None => withRateLimit this r
                 end;
         store := ls; requests := [sent] |}.
Proof.
  intros Hf Hs Hc. unfold sendRequest. rewrite Hf. cbv zeta. rewrite Hs.
  unfold cachedEntryOf in Hc. rewrite Hc. change (304 =? 304) with true. cbv iota.
  destruct (cache this !! (GITHUB_API_BASE ++ endpoint)); by eexists.
Qed.

(** X18 ([makeRequest]). Fresh data is written through to the memory
    cache: what a request fetched from the network, the next request for
    the endpoint within the duration returns without the network, whatever
    has become of the persistent cache. *)
Theorem makeRequest_fresh_then_memory_hit fetch this ls now later endpoint cd r d :
  let first := makeRequest accepts fetch this ls now later endpoint cd in
  requests _ first ≠ [] →
  (∀ headers, fetch (GITHUB_API_BASE ++ endpoint) headers = inr r) →
  ok r = true → json r = inr d →
  outcome _ first = inr d
  ∧ ∀ fetch' ls' now' later',
      now' - later < durationOf cd →
      makeRequest accepts fetch' (self _ first) ls' now' later' endpoint cd
      = {| outcome := inr d; self := self _ first; store := ls'; requests := [] |}.
Proof.
  intros first Hsent Hf Hok Hj. subst first.
  destruct (memoryHit this now endpoint (durationOf cd)) as [c|] eqn:Hm.
  { rewrite (makeRequest_memory _ _ _ _ _ _ _ _ Hm) in Hsent. done. }
  destruct (persistentHit ls now endpoint (durationOf cd)) as [e|] eqn:Hp.
  { rewrite (makeRequest_persistent _ _ _ _ _ _ _ _ Hm Hp) in Hsent. done. }
  rewrite (makeRequest_miss _ _ _ _ _ _ _ Hm Hp) in *.
  destruct (rateLimited this now); [done|].
  destruct (sendRequest_fresh fetch this
              (PersistentCache.get ls now (js "api:" ++ endpoint)).2 later endpoint
              (durationOf cd) (PersistentCache.get ls now (js "api:" ++ endpoint)).1
              r d Hf Hok Hj) as [sent ->].
  split; [done|]. intros fetch' ls' now' later' Hfresh. simpl.
  rewrite (makeRequest_memory fetch' _ ls' now' later' endpoint cd
             {| data := d; timestamp := later; etag := truthyHeader (eTag r) |});
    [done|].
  by apply memoryHit_insert.
Qed.


(** X19 ([makeRequest], [PersistentCache.get]). An entry of the persistent
    cache that answers a request is copied to the memory cache: no request
    goes out, the store stays, and while the entry is fresh the memory
    cache answers, whatever has become of the persistent cache. *)
Theorem makeRequest_persistent_then_memory_hit fetch this ls now later endpoint cd e :
  memoryHit this now endpoint (durationOf cd) = None →
  persistentHit ls now endpoint (durationOf cd) = Some e →
  let first := makeRequest accepts fetch this ls now later endpoint cd in
  outcome _ first = inr (PersistentCache.data e)
  ∧ requests _ first = [] ∧ store _ first = ls
  ∧ ∀ fetch' ls' now' later',
      now' - PersistentCache.timestamp e < durationOf cd →
      makeRequest accepts fetch' (self _ first) ls' now' later' endpoint cd
      = {| outcome := inr (PersistentCache.data e); self := self _ first;
           store := ls'; requests := [] |}.
Proof.
  intros Hm Hp first. subst first.
  rewrite (makeRequest_persistent _ _ _ _ _ _ _ _ Hm Hp).
  split_and!; [done..|]. intros fetch' ls' now' later' Hfresh. simpl.
  rewrite (makeRequest_memory fetch' _ ls' now' later' endpoint cd (ofPersistent e));
    [done|].
  by apply memoryHit_insert.
Qed.

(** X20 ([clearCache], [updateConfig], [makeRequest]). [clearCache] and
    [updateConfig] empty the memory cache only: a request that follows is
    still answered from the persistent cache, without the network, when
    that holds a fresh entry. *)
Theorem clearCache_keeps_persistent_tier fetch this ls now later endpoint cd e config' :
  persistentHit ls now endpoint (durationOf cd) = Some e →
  makeRequest accepts fetch (clearCache this) ls now later endpoint cd
  = {| outcome := inr (PersistentCache.data e);
       self := withCache this {[GITHUB_API_BASE ++ endpoint := ofPersistent e]};
       store := ls; requests := [] |}
  ∧ outcome _ (makeRequest accepts fetch (updateConfig this config') ls now later
                 endpoint cd) = inr (PersistentCache.data e)
  ∧ requests _ (makeRequest accepts fetch (updateConfig this config') ls now later
                  endpoint cd) = [].
Proof.
  intros Hp. split.
  - by rewrite (makeRequest_persistent fetch (clearCache this) ls now later endpoint cd e).
  - by rewrite (makeRequest_persistent fetch (updateConfig this config') ls now later
                  endpoint cd e).
Qed.

(** X21 ([makeRequest]). A failed request caches nothing: the memory
    cache and the configuration are what they were, the persistent store
    is what the look-up left, and an error without a request is the
    rate-limit error. *)
Theorem makeRequest_error_keeps_caches fetch this ls now later endpoint cd err :
  let first := makeRequest accepts fetch this ls now later endpoint cd in
  outcome _ first = inl err →
  cache (self _ first) = cache this
  ∧ config (self _ first) = config this
  ∧ store _ first = (PersistentCache.get ls now (js "api:" ++ endpoint)).2
  ∧ (requests _ first = [] → err = rateLimitError).
Proof.
  intros first Herr. subst first.
  destruct (memoryHit this now endpoint (durationOf cd)) as [c|] eqn:Hm.
  { by rewrite (makeRequest_memory _ _ _ _ _ _ _ _ Hm) in Herr. }
  destruct (persistentHit ls now endpoint (durationOf cd)) as [e|] eqn:Hp.
  { by rewrite (makeRequest_persistent _ _ _ _ _ _ _ _ Hm Hp) in Herr. }
  rewrite (makeRequest_miss _ _ _ _ _ _ _ Hm Hp) in *.
  destruct (rateLimited this now).
  - simpl in *. by injection Herr as <-.
  - destruct (sendRequest_error _ _ _ _ _ _ _ _ Herr) as (Hc & Hg & Hs).
    split_and!; [done..|]. by rewrite sendRequest_requests.
Qed.

(** X22 ([makeRequest]). A call sends at most one request; it goes to
    the endpoint under [https://api.github.com], with the two fixed
    headers, and with [If-None-Match] only for a non-empty ETag. *)
Theorem makeRequest_requests fetch this ls now later endpoint cd :
  let first := makeRequest accepts fetch this ls now later endpoint cd in
  (length (requests _ first) ≤ 1)%nat
  ∧ ∀ url headers, (url, headers) ∈ requests _ first →
      url = GITHUB_API_BASE ++ endpoint
      ∧ (headers = fixedHeaders
         ∨ ∃ tag, headers = fixedHeaders ++ [(js "If-None-Match", tag)] ∧ tag ≠ []).
Proof.
  intros first. subst first.
  destruct (memoryHit this now endpoint (durationOf cd)) as [c|] eqn:Hm.
  { rewrite (makeRequest_memory _ _ _ _ _ _ _ _ Hm). simpl.
    split; [lia|]. intros url headers H. by apply elem_of_nil in H. }
  destruct (persistentHit ls now endpoint (durationOf cd)) as [e|] eqn:Hp.
  { rewrite (makeRequest_persistent _ _ _ _ _ _ _ _ Hm Hp). simpl.
    split; [lia|]. intros url headers H. by apply elem_of_nil in H. }
  rewrite (makeRequest_miss _ _ _ _ _ _ _ Hm Hp).
  destruct (rateLimited this now).
  { simpl. split; [lia|]. intros url headers H. by apply elem_of_nil in H. }
  rewrite sendRequest_requests. split; [simpl; lia|].
  intros url headers H. apply list_elem_of_singleton in H. injection H as -> ->.
  split; [done|]. unfold conditionalHeader.
  destruct (cachedEntryOf _ _ _) as [ce|]; simpl; [|left; by rewrite ?app_nil_r].
  unfold truthyHeader. destruct (etag ce) as [tag|]; [|left; by rewrite ?app_nil_r].
  destruct (isTruthyString tag) eqn:Ht; [|left; by rewrite ?app_nil_r].
  right. exists tag. split; [done|]. by intros ->.
Qed.


Lemma memoryHit_None_lookup this now endpoint duration :
  cache this !! (GITHUB_API_BASE ++ endpoint) = None →
  memoryHit this now endpoint duration = None.
Proof. unfold memoryHit. by intros ->. Qed.

Lemma get_later ls now now' key (e : PersistentCache.PersistentCacheEntry A) :
  (PersistentCache.get ls now key).1 = Some e →
  (PersistentCache.get ls now' key).1 = Some e
  ∨ (PersistentCache.get ls now' key).1 = None.
Proof.
  destruct ls as [st|]; [|done]. unfold PersistentCache.get.
  destruct (PersistentCache.getItem st (PersistentCache.getKey key)) as [v|]; [|done].
  destruct (PersistentCache.itemTruthy v); [|done].
  destruct v as [e'|text]; [|done].
  destruct (PersistentCache.expiresAt e' <? now); [done|].
  intros [= <-]. destruct (PersistentCache.expiresAt e' <? now'); [by right|by left].
Qed.

(** X23 ([makeRequest]). A 304 answer renews a stale entry of the memory
    cache: the data it holds is returned, and for the length of the
    duration after the answer the entry answers without the network. *)
Theorem makeRequest_304_renews_memory fetch this ls now later endpoint cd r c :
  cache this !! (GITHUB_API_BASE ++ endpoint) = Some c →
  durationOf cd <= now - timestamp c →
  persistentHit ls now endpoint (durationOf cd) = None →
  rateLimited this now = false →
  (∀ headers, fetch (GITHUB_API_BASE ++ endpoint) headers = inr r) →
  rstatus r = 304 →
  let first := makeRequest accepts fetch this ls now later endpoint cd in
  outcome _ first = inr (data c)
  ∧ ∀ fetch' ls' now' later',
      now' - later < durationOf cd →
      makeRequest accepts fetch' (self _ first) ls' now' later' endpoint cd
      = {| outcome := inr (data c); self := self _ first; store := ls';
           requests := [] |}.
Proof.
  intros Hc Hstale Hp Hrl Hf Hs first. subst first.
  assert (Hm : memoryHit this now endpoint (durationOf cd) = None).
  { unfold memoryHit. rewrite Hc.
    by destruct (Z.ltb_spec (now - timestamp c) (durationOf cd)); [lia|]. }
  rewrite (makeRequest_miss _ _ _ _ _ _ _ Hm Hp), Hrl.
  destruct (sendRequest_304 fetch this
              (PersistentCache.get ls now (js "api:" ++ endpoint)).2 later endpoint
              (durationOf cd) (PersistentCache.get ls now (js "api:" ++ endpoint)).1
              r c Hf Hs) as [sent ->].
  { unfold cachedEntryOf. by rewrite Hc. }
  rewrite Hc. split; [done|]. intros fetch' ls' now' later' Hfresh. simpl.
  rewrite (makeRequest_memory fetch' _ ls' now' later' endpoint cd
             {| data := data c; timestamp := later; etag := etag c |}); [done|].
  by apply memoryHit_insert.
Qed.

(** X24 ([makeRequest], [PersistentCache.get]). A 304 answer does not
    renew a stale entry that only the persistent cache holds: its data is
    returned, but neither cache changes, and the next call, unless the
    rate limit stops it, goes to the network again. *)
Theorem makeRequest_304_persistent_not_renewed fetch this ls now later endpoint cd r e :
  cache this !! (GITHUB_API_BASE ++ endpoint) = None →
  (PersistentCache.get ls now (js "api:" ++ endpoint)).1 = Some e →
  durationOf cd <= now - PersistentCache.timestamp e →
  rateLimited this now = false →
  (∀ headers, fetch (GITHUB_API_BASE ++ endpoint) headers = inr r) →
  rstatus r = 304 →
  let first := makeRequest accepts fetch this ls now later endpoint cd in
  outcome _ first = inr (PersistentCache.data e)
  ∧ cache (self _ first) = cache this
  ∧ store _ first = ls
  ∧ ∀ now' later',
      now <= now' → rateLimited (self _ first) now' = false →
      requests _ (makeRequest accepts fetch (self _ first) (store _ first) now' later'
                    endpoint cd) ≠ [].
Proof.
  intros Hc He Hstale Hrl Hf Hs first. subst first.
  pose proof (memoryHit_None_lookup this now endpoint (durationOf cd) Hc) as Hm.
  assert (Hp : persistentHit ls now endpoint (durationOf cd) = None).
  { unfold persistentHit. rewrite He.
    by destruct (Z.ltb_spec (now - PersistentCache.timestamp e) (durationOf cd)); [lia|]. }
  rewrite (makeRequest_miss _ _ _ _ _ _ _ Hm Hp), Hrl.
  rewrite (get_hit_keeps_store ls now (js "api:" ++ endpoint) e He), He.
  destruct (sendRequest_304 fetch this ls later endpoint (durationOf cd) (Some e)
              r (ofPersistent e) Hf Hs) as [sent ->].
  { unfold cachedEntryOf. by rewrite Hc. }
  rewrite Hc. split_and!; [done..|]. simpl.
  intros now' later' Hnow Hrl'.
  assert (Hm' : memoryHit (withRateLimit this r) now' endpoint (durationOf cd) = None)
    by (by apply memoryHit_None_lookup).
  assert (Hp' : persistentHit ls now' endpoint (durationOf cd) = None).
  { unfold persistentHit.
    destruct (get_later ls now now' (js "api:" ++ endpoint) e He) as [-> | ->]; [|done].
    by destruct (Z.ltb_spec (now' - PersistentCache.timestamp e) (durationOf cd)); [lia|]. }
  rewrite (makeRequest_miss _ _ _ _ _ _ _ Hm' Hp'), Hrl'.
  by rewrite sendRequest_requests.
Qed.

End RequestFacts.

(** Examples: the listing of a posts folder, answered with 200 or 304. *)
Definition exampleEndpoint : jsstring := js "/repos/o/r/contents/posts".

Definition exampleApi : GitHubAPI.api nat := GitHubAPI.new Config.defaultConfig.

Definition okResponse : GitHubAPI.response nat :=
  {| GitHubAPI.rstatus := 200; GitHubAPI.statusText := js "OK";
     GitHubAPI.xRateLimitRemaining := Some (js "59");
     GitHubAPI.xRateLimitReset := Some (js "1700000000");
     GitHubAPI.eTag := Some (js "W/abc"); GitHubAPI.json := inr 7%nat |}.

Definition notModified : GitHubAPI.response nat :=
  {| GitHubAPI.rstatus := 304; GitHubAPI.statusText := js "Not Modified";
     GitHubAPI.xRateLimitRemaining := Some (js "58");
     GitHubAPI.xRateLimitReset := Some (js "1700000000");
     GitHubAPI.eTag := Some (js "W/abc");
     GitHubAPI.json := inl (js "Unexpected end of JSON input") |}.

Definition exampleEntry (written : Z) : PersistentCache.PersistentCacheEntry nat :=
  {| PersistentCache.data := 7%nat; PersistentCache.timestamp := written;
     PersistentCache.etag := Some (js "W/abc");
     PersistentCache.expiresAt := written + 1800000 |}.

Definition storeWith (written : Z) : option (PersistentCache.storage nat) :=
  Some [(PersistentCache.getKey (js "api:" ++ exampleEndpoint),
         PersistentCache.Json (exampleEntry written))].

Definition apiWith (written : Z) : GitHubAPI.api nat :=
  GitHubAPI.withCache exampleApi
    {[ GitHubAPI.GITHUB_API_BASE ++ exampleEndpoint :=
         GitHubAPI.ofPersistent (exampleEntry written) ]}.

Lemma makeRequest_fresh_then_memory_hit_witness :
  GitHubAPI.outcome _
    (GitHubAPI.makeRequest (λ _ _ _, true) (λ _ _, inr okResponse) exampleApi (Some [])
       1000 1500 exampleEndpoint None) = inr 7%nat.
Proof.
  refine (proj1 (makeRequest_fresh_then_memory_hit (λ _ _ _, true)
                   (λ _ _, inr okResponse) exampleApi (Some []) 1000 1500
                   exampleEndpoint None okResponse 7%nat _ _ eq_refl eq_refl)).
  - discriminate.
  - reflexivity.
Defined.

Lemma makeRequest_persistent_then_memory_hit_witness :
  GitHubAPI.requests _
    (GitHubAPI.makeRequest (λ _ _ _, true) (λ _ _, inl []) exampleApi (storeWith 900)
       1000 1500 exampleEndpoint None) = [].
Proof.
  refine (proj1 (proj2 (makeRequest_persistent_then_memory_hit (λ _ _ _, true)
                          (λ _ _, inl []) exampleApi (storeWith 900) 1000 1500
                          exampleEndpoint None (exampleEntry 900) eq_refl eq_refl))).
Defined.

Lemma clearCache_keeps_persistent_tier_witness :
  GitHubAPI.requests _
    (GitHubAPI.makeRequest (λ _ _ _, true) (λ _ _, inl [])
       (GitHubAPI.updateConfig (apiWith 0) Config.defaultConfig) (storeWith 900)
       1000 1500 exampleEndpoint None) = [].
Proof.
  refine (proj2 (proj2 (clearCache_keeps_persistent_tier (λ _ _ _, true)
                          (λ _ _, inl []) (apiWith 0) (storeWith 900) 1000 1500
                          exampleEndpoint None (exampleEntry 900)
                          Config.defaultConfig eq_refl))).
Defined.

Lemma makeRequest_error_keeps_caches_witness :
  GitHubAPI.cache
    (GitHubAPI.self _
       (GitHubAPI.makeRequest (λ _ _ _, true) (λ _ _, inl (js "offline")) (apiWith 0)
          (Some []) 1000000 1000500 exampleEndpoint None))
  = GitHubAPI.cache (apiWith 0).
Proof.
  refine (proj1 (makeRequest_error_keeps_caches (λ _ _ _, true)
                   (λ _ _, inl (js "offline")) (apiWith 0) (Some []) 1000000 1000500
                   exampleEndpoint None
                   {| GitHubAPI.message := js "Network error: offline";
                      GitHubAPI.status := None |} eq_refl)).
Defined.

Lemma makeRequest_304_renews_memory_witness :
  GitHubAPI.outcome _
    (GitHubAPI.makeRequest (λ _ _ _, true) (λ _ _, inr notModified) (apiWith 0)
       (Some []) 1000000 1000500 exampleEndpoint None) = inr 7%nat.
Proof.
  refine (proj1 (makeRequest_304_renews_memory (λ _ _ _, true)
                   (λ _ _, inr notModified) (apiWith 0) (Some []) 1000000 1000500
                   exampleEndpoint None notModified
                   (GitHubAPI.ofPersistent (exampleEntry 0))
                   eq_refl _ eq_refl eq_refl _ eq_refl)).
  - vm_compute. discriminate.
  - reflexivity.
Defined.

Lemma makeRequest_304_persistent_not_renewed_witness :
  GitHubAPI.cache
    (GitHubAPI.self _
       (GitHubAPI.makeRequest (λ _ _ _, true) (λ _ _, inr notModified) exampleApi
          (storeWith 0) 1000000 1000500 exampleEndpoint None))
  = GitHubAPI.cache exampleApi.
Proof.
  refine (proj1 (proj2 (makeRequest_304_persistent_not_renewed (λ _ _ _, true)
                   (λ _ _, inr notModified) exampleApi (storeWith 0) 1000000 1000500
                   exampleEndpoint None notModified (exampleEntry 0)
                   eq_refl eq_refl _ eq_refl _ eq_refl))).
  - vm_compute. discriminate.
  - reflexivity.
Defined.

(** ** Clearing the memory cache *)

Section ClearExpired.

Import GitHubAPI.

Context {A : Type}.
Implicit Types (this : api A) (m : gmap jsstring (CacheEntry A))
  (l : list (jsstring * CacheEntry A)).

(** Older than an hour at [now]. *)
Definition stale (now : Z) (item : jsstring * CacheEntry A) : Prop :=
  60 * 60 * 1000 < now - timestamp item.2.

#[local] Instance stale_dec now item : Decision (stale now item).
Proof. unfold stale. apply _. Defined.

Lemma clearStep_stale now acc item :
  clearStep now acc item
  = if decide (stale now item) then (delete item.1 acc.1, acc.2 + 1) else acc.
Proof.
  unfold clearStep, stale.
  destruct (Z.ltb_spec (60 * 60 * 1000) (now - timestamp item.2)).
  - by rewrite decide_True.
  - by rewrite decide_False by lia.
Qed.

Lemma foldl_clearStep now l : ∀ m n,
  (foldl (clearStep now) (m, n) l).2
    = n + Z.of_nat (length (filter (stale now) l))
  ∧ ∀ k, (foldl (clearStep now) (m, n) l).1 !! k
         = if decide (k ∈ (filter (stale now) l).*1) then None else m !! k.
Proof.
  induction l as [|item l IH]; intros m n.
  - split; [simpl; lia|]. intros k. cbn [foldl fst].
    by rewrite filter_nil, fmap_nil, decide_False by apply not_elem_of_nil.
  - cbn [foldl]. rewrite clearStep_stale, filter_cons.
    destruct (decide (stale now item)) as [Hs|Hs]; cbn [fst snd].
    + destruct (IH (delete item.1 m) (n + 1)) as [-> Hk].
      split; [simpl; lia|]. intros k. rewrite Hk, fmap_cons.
      destruct (decide (k ∈ (filter (stale now) l).*1)) as [Hin|Hin].
      * rewrite decide_True; [done|by right].
      * destruct (decide (k = item.1)) as [->|Hne].
        -- rewrite decide_True by (by left). apply lookup_delete_eq.
        -- rewrite decide_False by (by intros [?|?]%elem_of_cons).
           by apply lookup_delete_ne.
    + destruct (IH m n) as [-> Hk]. by split.
Qed.

Lemma length_filter_complement {B} (P : B → Prop) `{!∀ x, Decision (P x)} (l : list B) :
  (length (filter P l) + length (filter (λ x, ¬ P x) l) = length l)%nat.
Proof.
  induction l as [|x l IH]; [done|]. rewrite !filter_cons.
  destruct (decide (P x)).
  - rewrite decide_False by tauto. simpl. lia.
  - rewrite decide_True by done. simpl. lia.
Qed.

Lemma map_to_list_filter_perm (P : jsstring * CacheEntry A → Prop)
    `{!∀ x, Decision (P x)} m :
  map_to_list (filter P m) ≡ₚ filter P (map_to_list m).
Proof.
  apply NoDup_Permutation.
  - apply NoDup_map_to_list.
  - apply NoDup_filter, NoDup_map_to_list.
  - intros [k e]. rewrite elem_of_map_to_list, map_lookup_filter_Some.
    rewrite list_elem_of_filter, elem_of_map_to_list. tauto.
Qed.

Lemma size_filter_complement (P : jsstring * CacheEntry A → Prop)
    `{!∀ x, Decision (P x)} m :
  (length (filter P (map_to_list m)) + size (filter (λ x, ¬ P x) m) = size m)%nat.
Proof.
  rewrite <-!length_map_to_list, map_to_list_filter_perm.
  apply length_filter_complement.
Qed.

Lemma clearExpiredCache_cache this now :
  cache (clearExpiredCache this now).1 = filter (λ item, ¬ stale now item) (cache this).
Proof.
  unfold clearExpiredCache. cbn [fst cache withCache].
  destruct (foldl_clearStep now (map_to_list (cache this)) (cache this) 0) as [_ Hk].
  apply map_eq. intros k. rewrite Hk. clear Hk.
  destruct (decide (k ∈ (filter (stale now) (map_to_list (cache this))).*1)) as [Hin|Hin].
  - apply list_elem_of_fmap in Hin as ([k' e] & -> & Hin). simpl.
    apply list_elem_of_filter in Hin as [Hs Hin]. apply elem_of_map_to_list in Hin.
    symmetry. apply map_lookup_filter_None. right. intros e' He'.
    rewrite Hin in He'. injection He' as <-. tauto.
  - destruct (cache this !! k) as [e|] eqn:E.
    + symmetry. apply map_lookup_filter_Some. split; [done|]. intros Hs.
      apply Hin, list_elem_of_fmap. exists (k, e). split; [done|].
      apply list_elem_of_filter. split; [done|]. by apply elem_of_map_to_list.
    + symmetry. apply map_lookup_filter_None. by left.
Qed.

Lemma clearExpiredCache_count this now :
  (clearExpiredCache this now).2
  = Z.of_nat (size (cache this)) - Z.of_nat (size (cache (clearExpiredCache this now).1)).
Proof.
  rewrite clearExpiredCache_cache. unfold clearExpiredCache. cbn [snd].
  destruct (foldl_clearStep now (map_to_list (cache this)) (cache this) 0) as [-> _].
  pose proof (size_filter_complement (stale now) (cache this)). lia.
Qed.


(** X25 ([clearExpiredCache], [getRateLimitInfo]). [clearExpiredCache]
    removes the entries older than an hour and only them, and returns how
    many they were; the configuration and the rate-limit counters stay,
    and a second run at the same time finds nothing to remove. *)
Theorem clearExpiredCache_spec this now :
  let cleaned := (clearExpiredCache this now).1 in
  (∀ url, cache cleaned !! url
          = match cache this !! url with
            | Some entry =>
                if now - timestamp entry <=? 60 * 60 * 1000 then Some entry else None
            | None => None
            end)
  ∧ (clearExpiredCache this now).2
    = Z.of_nat (size (cache this)) - Z.of_nat (size (cache cleaned))
  ∧ config cleaned = config this
  ∧ getRateLimitInfo cleaned = getRateLimitInfo this
  ∧ clearExpiredCache cleaned now = (cleaned, 0).
Proof.
  intros cleaned. subst cleaned. split_and!.
  - intros url. rewrite clearExpiredCache_cache, map_lookup_filter.
    destruct (cache this !! url) as [e|]; [|done]. simpl. unfold stale. simpl.
    destruct (Z.leb_spec (now - timestamp e) (60 * 60 * 1000)).
    + by rewrite option_guard_True by lia.
    + by rewrite option_guard_False by lia.
  - apply clearExpiredCache_count.
  - done.
  - done.
  - assert (Hc : cache (clearExpiredCache (clearExpiredCache this now).1 now).1
                 = cache (clearExpiredCache this now).1).
    { rewrite !clearExpiredCache_cache. apply map_filter_filter_l. tauto. }
    apply injective_projections.
    + change ((clearExpiredCache (clearExpiredCache this now).1 now).1)
        with (withCache this
                (cache (clearExpiredCache (clearExpiredCache this now).1 now).1)).
      by rewrite Hc.
    + rewrite clearExpiredCache_count, Hc. cbn [snd]. lia.
Qed.

End ClearExpired.

Section ClearAndRequest.

Import GitHubAPI.

Context {A : Type}.
Variable accepts : PersistentCache.storage A → jsstring → PersistentCache.item A → bool.

(** X26 ([clearExpiredCache], [makeRequest]). The periodic clearing never
    takes away an answer: for a duration of at most an hour (the two the
    code uses are 5 and 30 minutes) an entry that answers a request still
    answers it after a [clearExpiredCache] run at an earlier time. *)
Theorem clearExpiredCache_keeps_hits
    (fetch : jsstring → list (jsstring * jsstring) → jsstring + response A)
    (this : api A) (ls : option (PersistentCache.storage A))
    (cleared now later : Z) (endpoint : jsstring) (cd : option Z)
    (cached : CacheEntry A) :
  cleared <= now → durationOf cd <= 60 * 60 * 1000 →
  memoryHit this now endpoint (durationOf cd) = Some cached →
  makeRequest accepts fetch (clearExpiredCache this cleared).1 ls now later endpoint cd
  = {| outcome := inr (data cached); self := (clearExpiredCache this cleared).1;
       store := ls; requests := [] |}.
Proof.
  intros Ht Hd Hm. apply makeRequest_memory. unfold memoryHit in *.
  rewrite clearExpiredCache_cache, map_lookup_filter.
  destruct (cache this !! (GITHUB_API_BASE ++ endpoint)) as [e|]; [|done].
  destruct (Z.ltb_spec (now - timestamp e) (durationOf cd)) as [Hlt|]; [|done].
  injection Hm as <-. simpl. rewrite option_guard_True by (unfold stale; simpl; lia).
  simpl. by destruct (Z.ltb_spec (now - timestamp e) (durationOf cd)); [|lia].
Qed.

End ClearAndRequest.

Lemma clearExpiredCache_keeps_hits_witness :
  GitHubAPI.makeRequest (λ _ _ _, true) (λ _ _, inl [])
    (GitHubAPI.clearExpiredCache (apiWith 0) 1000).1 (Some []) 2000 2500
    exampleEndpoint None
  = {| GitHubAPI.outcome := inr 7%nat;
       GitHubAPI.self := (GitHubAPI.clearExpiredCache (apiWith 0) 1000).1;
       GitHubAPI.store := Some []; GitHubAPI.requests := [] |}.
Proof.
  apply (clearExpiredCache_keeps_hits (λ _ _ _, true) (λ _ _, inl []) (apiWith 0)
           (Some []) 1000 2000 2500 exampleEndpoint None
           (GitHubAPI.ofPersistent (exampleEntry 0))).
  - lia.
  - vm_compute. discriminate.
  - reflexivity.
Defined.

(** ** Pages of posts *)

Section PageFacts.

Import Listing.

Context {F : Type}.
Implicit Types (l : list F).

Lemma slice_subseteq l a b : slice l a b ⊆ l.
Proof.
  unfold slice. etrans; [apply subseteq_take|apply subseteq_drop].
Qed.

Lemma slice_to_zero l a : slice l a 0 = [].
Proof.
  unfold slice.
  assert (H : Z.to_nat (sliceIndex (Z.of_nat (length l)) 0
                        - sliceIndex (Z.of_nat (length l)) a) = 0%nat).
  { unfold sliceIndex. change (0 <? 0) with false.
    destruct (Z.ltb_spec a 0); lia. }
  by rewrite H, take_0.
Qed.

Lemma slice_past_end l a b : Z.of_nat (length l) <= a → slice l a b = [].
Proof.
  intros H. unfold slice, sliceIndex.
  destruct (Z.ltb_spec a 0); [lia|].
  rewrite (Z.min_r a (Z.of_nat (length l))) by lia.
  rewrite Nat2Z.id, drop_all. apply take_nil.
Qed.

Lemma length_omap_le {B} (f : F → option B) l :
  (length (omap f l) ≤ length l)%nat.
Proof.
  induction l as [|x l IH]; [done|]. cbn [omap list_omap].
  destruct (f x); cbn [length]; fold (omap f l); lia.
Qed.

Lemma length_paginate l page pageSize :
  1 <= page → 0 < pageSize →
  (length (paginate l page pageSize) ≤ Z.to_nat pageSize)%nat.
Proof.
  intros Hp Hs. rewrite paginate_take_drop by done. rewrite length_take. lia.
Qed.

Lemma paginate_past_end l page pageSize :
  Z.of_nat (length l) <= (page - 1) * pageSize →
  paginate l page pageSize = [] ∧ (0 < pageSize → hasMoreOf l page pageSize = false).
Proof.
  intros H. split; [by apply slice_past_end|].
  intros Hs. unfold hasMoreOf, endIndex, startIndex. lia.
Qed.

Lemma paginate_page_zero l pageSize :
  paginate l 0 pageSize = []
  ∧ hasMoreOf l 0 pageSize = bool_decide (l ≠ []).
Proof.
  unfold paginate, hasMoreOf, endIndex, startIndex.
  replace ((0 - 1) * pageSize + pageSize) with 0 by lia.
  split; [apply slice_to_zero|]. destruct l as [|x l]; [done|].
  rewrite bool_decide_eq_true_2 by done. apply Z.ltb_lt. simpl. lia.
Qed.

End PageFacts.

Section PostPages.

Variable localeCompare : jsstring → jsstring → Z.
Variable pathJoin : jsstring → jsstring → jsstring.
Variable localPostsPath : jsstring.
Variable loadPost : GitHubAPI.GitHubContentsResponse → option Post.
Variable loadLocalPost : PostLoader.localFile → option Post.

(** The page that either adapter returns, as posts and [hasMore]. *)
Definition remotePage (files : list GitHubAPI.GitHubContentsResponse)
    (page pageSize : Z) : list Post * bool :=
  match GitHubAPI.getPosts localeCompare loadPost (inr files) (Some page) (Some pageSize) with
  | inr p => (GitHubAPI.posts p, GitHubAPI.hasMore p)
  | inl _ => ([], false)
  end.

Definition localPage (dir : list jsstring) (page pageSize : Z) : list Post * bool :=
  PostLoader.getLocalPosts localeCompare pathJoin localPostsPath loadLocalPost dir
    (Some page) (Some pageSize).

(** X27 ([getPosts], [getLocalPosts]). For a positive page size, a page
    from 1 on has at most [pageSize] posts; a page past the end of the
    listing is empty and the last; page 0 is empty, and is reported to
    have more unless the listing is empty. *)
Theorem getPosts_page_edges (files : list GitHubAPI.GitHubContentsResponse)
    (dir : list jsstring) (page pageSize : Z) :
  0 < pageSize →
  let remote := Z.of_nat (length (GitHubAPI.mdxFiles localeCompare files)) in
  let localN :=
    Z.of_nat (length (PostLoader.localFiles localeCompare pathJoin localPostsPath dir)) in
  (1 <= page →
   (length (remotePage files page pageSize).1 ≤ Z.to_nat pageSize)%nat
   ∧ (length (localPage dir page pageSize).1 ≤ Z.to_nat pageSize)%nat)
  ∧ (remote <= (page - 1) * pageSize → remotePage files page pageSize = ([], false))
  ∧ (localN <= (page - 1) * pageSize → localPage dir page pageSize = ([], false))
  ∧ remotePage files 0 pageSize = ([], bool_decide (remote ≠ 0))
  ∧ localPage dir 0 pageSize = ([], bool_decide (localN ≠ 0)).
Proof.
  intros Hs remote localN. subst remote localN.
  unfold remotePage, localPage, GitHubAPI.getPosts, PostLoader.getLocalPosts,
    GitHubAPI.paginatedFiles, PostLoader.paginatedFiles.
  cbn [default from_option id GitHubAPI.posts GitHubAPI.hasMore]. split_and!.
  - intros Hp. cbn [fst]. split.
    + etrans; [apply length_omap_le|by apply length_paginate].
    + etrans; [apply length_omap_le|by apply length_paginate].
  - intros H. destruct (paginate_past_end _ _ _ H) as [-> Hm]. by rewrite Hm.
  - intros H. destruct (paginate_past_end _ _ _ H) as [-> Hm]. by rewrite Hm.
  - destruct (paginate_page_zero (GitHubAPI.mdxFiles localeCompare files) pageSize)
      as [-> ->].
    f_equal. apply bool_decide_ext. by destruct (GitHubAPI.mdxFiles _ _).
  - destruct (paginate_page_zero
                (PostLoader.localFiles localeCompare pathJoin localPostsPath dir)
                pageSize) as [-> ->].
    f_equal. apply bool_decide_ext. by destruct (PostLoader.localFiles _ _ _ _).
Qed.

(** X28 ([getPosts], [getLocalPosts]). Posts come from MDX files only:
    every post of a page was loaded from an entry of the listing whose
    name ends in [.mdx] (and, for GitHub, whose type is [file]). *)
Theorem getPosts_only_mdx_files (files : list GitHubAPI.GitHubContentsResponse)
    (dir : list jsstring) (page pageSize : Z) (post : Post) :
  (post ∈ (remotePage files page pageSize).1 →
   ∃ file, file ∈ files ∧ GitHubAPI.type file = js "file"
           ∧ endsWith (GitHubAPI.name file) (js ".mdx") = true
           ∧ loadPost file = Some post)
  ∧ (post ∈ (localPage dir page pageSize).1 →
     ∃ name, name ∈ dir ∧ endsWith name (js ".mdx") = true
             ∧ loadLocalPost {| PostLoader.name := name;
                                PostLoader.path := pathJoin (js "posts") name;
                                PostLoader.fullPath := pathJoin localPostsPath name |}
               = Some post).
Proof.
  unfold remotePage, localPage, GitHubAPI.getPosts, PostLoader.getLocalPosts,
    GitHubAPI.paginatedFiles, PostLoader.paginatedFiles.
  cbn [default from_option id GitHubAPI.posts GitHubAPI.hasMore fst]. split.
  - intros (file & Hin & Hload)%list_elem_of_omap. exists file.
    apply slice_subseteq in Hin. unfold GitHubAPI.mdxFiles in Hin.
    rewrite sort_Permutation in Hin. apply list_elem_of_filter in Hin as [Hf Hin].
    apply andb_prop in Hf as [Ht Hn]. apply eqs_true in Ht. done.
  - intros (file & Hin & Hload)%list_elem_of_omap.
    apply slice_subseteq in Hin. unfold PostLoader.localFiles in Hin.
    rewrite sort_Permutation in Hin. apply list_elem_of_fmap in Hin as (name & -> & Hin).
    apply list_elem_of_filter in Hin as [Hn Hin]. by exists name.
Qed.

End PostPages.

(** A listing of one post and one folder. *)
Definition smallListing : list GitHubAPI.GitHubContentsResponse :=
  [ {| GitHubAPI.name := js "2024-12-15_10-30-00_welcome.mdx";
       GitHubAPI.path := js "posts/2024-12-15_10-30-00_welcome.mdx";
       GitHubAPI.type := js "file" |};
    {| GitHubAPI.name := js "drafts.mdx"; GitHubAPI.path := js "posts/drafts.mdx";
       GitHubAPI.type := js "dir" |} ].

Definition smallDir : list jsstring :=
  [js "2024-12-15_10-30-00_welcome.mdx"; js "notes.txt"].

Definition posixJoin (a b : jsstring) : jsstring := a ++ js "/" ++ b.

Lemma getPosts_page_edges_witness :
  remotePage Listing.lexCompare (λ _, None) smallListing 0 10 = ([], true).
Proof.
  refine (proj1 (proj2 (proj2 (proj2
            (getPosts_page_edges Listing.lexCompare posixJoin (js "/srv/posts")
               (λ _, None) (λ _, None) smallListing smallDir 0 10 _))))).
  lia.
Defined.

(** ** The local adapter and its files *)

Section LocalFiles.

Import PostLoader.

Variable localeCompare : jsstring → jsstring → Z.
Variable pathJoin : jsstring → jsstring → jsstring.
Variable isAbsolute : jsstring → bool.
Variable readFileSync : jsstring → jsstring + jsstring.
Variable localPostsPath : jsstring.

Lemma elem_of_localFiles f dir :
  f ∈ localFiles localeCompare pathJoin localPostsPath dir ↔
  ∃ file, file ∈ dir ∧ endsWith file (js ".mdx") = true
          ∧ f = {| name := file; path := pathJoin (js "posts") file;
                   fullPath := pathJoin localPostsPath file |}.
Proof.
  unfold localFiles. rewrite sort_Permutation, list_elem_of_fmap. split.
  - intros (file & -> & [Hn Hin]%list_elem_of_filter). by exists file.
  - intros (file & Hin & Hn & ->). exists file. split; [done|].
    by apply list_elem_of_filter.
Qed.

(** X29 ([getLocalFileContent], [getLocalPosts]). What the listing of
    [getLocalPosts] names, [getLocalFileContent] finds: where [path.join('posts', file)] is [posts/] followed by the
    name and is not absolute, the path of a listed file leads to the very
    file the listing read. *)
Theorem getLocalFileContent_reads_listed_file (dir : list jsstring) (f : localFile) :
  (∀ file, file ∈ dir → pathJoin (js "posts") file = js "posts/" ++ file) →
  (∀ file, file ∈ dir → isAbsolute (js "posts/" ++ file) = false) →
  f ∈ localFiles localeCompare pathJoin localPostsPath dir →
  fullPathOf pathJoin isAbsolute localPostsPath (path f) = fullPath f
  ∧ getLocalFileContent pathJoin isAbsolute readFileSync localPostsPath true (path f)
    = match readFileSync (fullPath f) with
      | inl msg => inl (js "Error reading local file: " ++ msg)
      | inr text => inr text
      end.
Proof.
  intros Hjoin Habs (file & Hin & _ & ->)%elem_of_localFiles.
  assert (Hp : fullPathOf pathJoin isAbsolute localPostsPath
                 (pathJoin (js "posts") file) = pathJoin localPostsPath file).
  { unfold fullPathOf. rewrite (Hjoin file Hin), (Habs file Hin).
    by rewrite (startsWith_app (js "posts/")), (drop_app_length (js "posts/")). }
  split; [done|]. unfold getLocalFileContent. cbn [negb path fullPath]. by rewrite Hp.
Qed.

(** X30 ([validateLocalRepository], [getLocalPosts]). The validation of a
    local folder accepts it exactly when [fs] is loaded, the folder
    exists and the listing of [getLocalPosts] is not empty. *)
Theorem validateLocalRepository_iff_listing (fsLoaded existsSync : bool)
    (dir : list jsstring) :
  validateLocalRepository fsLoaded existsSync (Some dir)
  = fsLoaded && existsSync
    && bool_decide (localFiles localeCompare pathJoin localPostsPath dir ≠ []).
Proof.
  unfold validateLocalRepository. destruct fsLoaded, existsSync; try done. simpl.
  assert (Hlen : length (localFiles localeCompare pathJoin localPostsPath dir)
                 = length (filter (λ file, endsWith file (js ".mdx") = true) dir)).
  { unfold localFiles. by rewrite sort_Permutation, length_fmap. }
  destruct (localFiles localeCompare pathJoin localPostsPath dir) as [|f l];
    destruct (filter _ dir) as [|x d]; try done.
Qed.

End LocalFiles.

Lemma getLocalFileContent_reads_listed_file_witness :
  PostLoader.fullPathOf posixJoin (λ p, startsWith p (js "/")) (js "/srv/posts")
    (js "posts/2024-12-15_10-30-00_welcome.mdx")
  = js "/srv/posts/2024-12-15_10-30-00_welcome.mdx".
Proof.
  refine (proj1 (getLocalFileContent_reads_listed_file Listing.lexCompare posixJoin
                   (λ p, startsWith p (js "/")) (λ _, inl []) (js "/srv/posts")
                   smallDir
                   {| PostLoader.name := js "2024-12-15_10-30-00_welcome.mdx";
                      PostLoader.path := js "posts/2024-12-15_10-30-00_welcome.mdx";
                      PostLoader.fullPath :=
                        js "/srv/posts/2024-12-15_10-30-00_welcome.mdx" |} _ _ _)).
  - intros file _. reflexivity.
  - intros file _. reflexivity.
  - vm_compute. by left.
Defined.
